(** * BlockNote (YggTools fork): release coordinator and editor extension wiring

    A shallow embedding of two source files of the repository:

    - [ygg/release.mjs], the release script.  It discovers the workspace
      packages, bumps their manifests to a prerelease version, publishes them,
      promotes the [edge] dist-tag and restores the manifests in an outer
      [finally] block.
    - [BlockNoteExtensions.ts], which assembles the list of Tiptap extension
      groups the editor is configured with.

    The release script is asynchronous JavaScript.  Its [async] functions are
    embedded as terms of a small resumption monad [Async]: a term is suspended
    at each [await] of an I/O operation, and a scheduler decides which
    suspended task is resumed next.  [Promise.all] is the fan-out over a list
    of such tasks: it settles when every task is fulfilled or as soon as one
    is rejected, and in the latter case the sibling tasks stay in flight. *)

From stdpp Require Import gmap strings list sorting.

Open Scope string_scope.
Open Scope list_scope.
Open Scope Z_scope.

(** ** JavaScript values of type [any] *)

Inductive JsValue : Type :=
  | JsUndefined
  | JsNull
  | JsBool (b : bool)
  | JsNumber (z : Z)
  | JsString (s : string)
  | JsObject (props : string → JsValue).

(** An object is the map from property names to values, [undefined] where
    the property is absent.

    ToBoolean: [undefined], [null], [false], [0] and the empty string are
    falsy; objects are always truthy. *)
Definition truthy (v : JsValue) : bool :=
  match v with
  | JsUndefined | JsNull => false
  | JsBool b => b
  | JsNumber z => negb (z =? 0)
  | JsString s => negb (String.eqb s "")
  | JsObject _ => true
  end.

(** [v?.key]: [undefined] on [undefined] and [null], the property otherwise
    (primitives carry none of the properties read here). *)
Definition opt_get (v : JsValue) (key : string) : JsValue :=
  match v with
  | JsObject props => props key
  | _ => JsUndefined
  end.

(** [v !== "s"] *)
Definition strict_ne_string (v : JsValue) (s : string) : bool :=
  match v with
  | JsString s' => negb (String.eqb s' s)
  | _ => true
  end.

(** * Part I: the release coordinator ([ygg/release.mjs]) *)

(** ** Data *)

(** A record of the array printed by [npm query .workspace]; only the
    properties the script reads.  [version] and [gitHead] are [None] when the
    property is [undefined]; [pkg_private] is the truthiness of [private]. *)
Record Pkg : Type := {
  pkg_name : string;
  pkg_path : string;
  pkg_location : string;
  pkg_private : bool;
  pkg_version : option string;
  pkg_gitHead : option string
}.

(** The parsed content of a [package.json]: the two properties the script
    touches and the remainder of the document. *)
Record Manifest : Type := {
  m_version : option string;
  m_gitHead : option string;
  m_other : string
}.

(** The property names that occur in an [optionsNew] object, [version] and
    [gitHead]. *)
Inductive Key : Type := KVersion | KGitHead.

(** An [optionsNew] / [optionsOld] object literal, keys in insertion order. *)
Definition Options : Type := list (Key * option string).

Global Instance Key_eq_dec : EqDecision Key.
Proof. solve_decision. Defined.
Global Instance Pkg_eq_dec : EqDecision Pkg.
Proof. solve_decision. Defined.
Global Instance Manifest_eq_dec : EqDecision Manifest.
Proof. solve_decision. Defined.

(** [pkg[k]] *)
Definition pkg_get (pkg : Pkg) (k : Key) : option string :=
  match k with KVersion => pkg_version pkg | KGitHead => pkg_gitHead pkg end.

(** [packageJSON[k]] *)
Definition manifest_get (packageJSON : Manifest) (k : Key) : option string :=
  match k with KVersion => m_version packageJSON | KGitHead => m_gitHead packageJSON end.

(** [packageJSON[k] = v]; a property set to [undefined] is dropped by
    [JSON.stringify], which is what [None] stands for on disk. *)
Definition manifest_set (packageJSON : Manifest) (k : Key) (v : option string) : Manifest :=
  match k with
  | KVersion => {| m_version := v; m_gitHead := m_gitHead packageJSON; m_other := m_other packageJSON |}
  | KGitHead => {| m_version := m_version packageJSON; m_gitHead := v; m_other := m_other packageJSON |}
  end.

Definition Object_keys (o : Options) : list Key := o.*1.

(** [Object.assign(packageJSON, optionsNew)] *)
Definition Object_assign (packageJSON : Manifest) (o : Options) : Manifest :=
  foldl (fun m kv => manifest_set m kv.1 kv.2) packageJSON o.

(** [optionsNew[k]] *)
Fixpoint options_get (o : Options) (k : Key) : option string :=
  match o with
  | [] => None
  | (k', v) :: o' => if decide (k' = k) then v else options_get o' k
  end.

(** [arr.findIndex(p)], with [None] for [-1]. *)
Fixpoint findIndex {A : Type} (p : A → bool) (l : list A) : option nat :=
  match l with
  | [] => None
  | x :: l' => if p x then Some 0%nat else S <$> findIndex p l'
  end.

Inductive Error : Type :=
  | JsError (message : string)   (* [throw new Error(message)] *)
  | SyntaxError                  (* [JSON.parse] on malformed text *)
  | FsError (fname : string).    (* a rejected [fs/promises] call *)

Inductive Result (A : Type) : Type :=
  | Ok (a : A)
  | Err (e : Error).
Arguments Ok {A} a.
Arguments Err {A} e.

(** What a child process leaves behind when it closes: the exit code
    ([None] when it was killed by a signal) and what it printed. *)
Record SpawnResult : Type := {
  exit_code : option Z;
  out : string;
  err : string
}.

(** The object [exec] resolves to. *)
Record ExecResult : Type := {
  code : Z;
  stdout : string;
  stderr : string
}.

(** [exec]'s [options]: whether [stdout] / [stderr] are set to ["pipe"]. *)
Record ExecOptions : Type := {
  opt_stdout_pipe : bool;
  opt_stderr_pipe : bool
}.

Definition no_options : ExecOptions :=
  {| opt_stdout_pipe := false; opt_stderr_pipe := false |}.

(** ** Asynchronous functions *)

(** An [async] function body, suspended at its [await]s.  [MapSet] is the one
    synchronous side effect on shared state a task performs,
    [packagesToRelease.set(key, value)]. *)
Inductive Async (A : Type) : Type :=
  | Ret (a : A)
  | Throw (e : Error)
  | MapSet (key : string) (value : Pkg) (k : Async A)
  | AwaitExec (command : string) (args : list string) (k : SpawnResult → Async A)
  | AwaitRead (fname : string) (k : option Manifest → Async A)
  | AwaitWrite (fname : string) (data : Manifest) (k : bool → Async A).
Arguments Ret {A} a.
Arguments Throw {A} e.
Arguments MapSet {A} key value k.
Arguments AwaitExec {A} command args k.
Arguments AwaitRead {A} fname k.
Arguments AwaitWrite {A} fname data k.

Fixpoint bind {A B : Type} (t : Async A) (f : A → Async B) : Async B :=
  match t with
  | Ret a => f a
  | Throw e => Throw e
  | MapSet key value k => MapSet key value (bind k f)
  | AwaitExec command args k => AwaitExec command args (fun r => bind (k r) f)
  | AwaitRead fname k => AwaitRead fname (fun r => bind (k r) f)
  | AwaitWrite fname data k => AwaitWrite fname data (fun r => bind (k r) f)
  end.

Global Instance Async_ret : MRet Async := fun A a => Ret a.
Global Instance Async_bind : MBind Async := fun A B f t => bind t f.

Definition Task : Type := Async unit.

(** [exec(command, args, options)]: spawns the command in a shell and resolves
    on [close]; it never rejects.  Output that is piped through is not
    collected. *)
Definition exec (command : string) (args : list string) (options : ExecOptions)
  : Async ExecResult :=
  AwaitExec command args (fun p =>
    Ret {| code := default (-1) (exit_code p);
           stdout := if opt_stdout_pipe options then "" else out p;
           stderr := if opt_stderr_pipe options then "" else err p |}).

(** [execPipe(command, args)] *)
Definition execPipe (command : string) (args : list string) : Async unit :=
  r ← exec command args {| opt_stdout_pipe := true; opt_stderr_pipe := true |};
  if code r =? 0 then Ret tt
  else Throw (JsError (command +:+ " command failed")).

(** [fsp.readFile(fname)] followed by [JSON.parse]; the file system answers
    with the parsed manifest, or not at all when there is no such file (the
    manifests on disk are taken to be well-formed JSON). *)
Definition readFile (fname : string) : Async Manifest :=
  AwaitRead fname (fun r =>
    match r with Some m => Ret m | None => Throw (FsError fname) end).

(** [fsp.writeFile(fname, JSON.stringify(data, null, 2) + "\n")] *)
Definition writeFile (fname : string) (data : Manifest) : Async unit :=
  AwaitWrite fname data (fun ok => if ok then Ret tt else Throw (FsError fname)).

(** [path.join(dir, base)] for the absolute, normalised directories that
    [npm query] reports. *)
Definition path_join (dir base : string) : string := dir +:+ "/" +:+ base.

(** The manifest of a package, [path.join(pkg.path, "package.json")]. *)
Definition manifest_path (pkg : Pkg) : string :=
  path_join (pkg_path pkg) "package.json".

(** [changePackageOptions(pkg, optionsNew)]: resolves to [optionsOld] when the
    file was written and to [null] when it was left alone. *)
Definition changePackageOptions (pkg : Pkg) (optionsNew : Options)
  : Async (option Options) :=
  let packageFName := manifest_path pkg in
  packageJSON ← readFile packageFName;
  let optionsOld := (fun k => (k, pkg_get pkg k)) <$> Object_keys optionsNew in
  match findIndex
          (fun k => negb (bool_decide (manifest_get packageJSON k = options_get optionsNew k)))
          (Object_keys optionsNew)
  with
  | Some _ =>
      writeFile packageFName (Object_assign packageJSON optionsNew);;
      Ret (Some optionsOld)
  | None => Ret None
  end.

(** ** The world the script runs in *)

(** The library functions the script imports: [semver.inc(version, release,
    identifier, identifierBase)] ([None] for [null]) and [JSON.parse], once
    to a value of type [any] and once read as the array of package records
    that [npm query] prints ([None] when the text is not JSON). *)
Record Lib : Type := {
  semver_inc : option string → string → string → bool → option string;
  JSON_parse : string → option JsValue;
  JSON_parse_packages : string → option (list Pkg)
}.

(** The operating system: what a spawned command answers, and whether a
    write of [data] to [fname] goes through. *)
Record World : Type := {
  spawn_out : string → list string → SpawnResult;
  write_ok : string → Manifest → bool
}.

(** What the outside observes, in order: a child process being spawned, a
    manifest being read, a manifest write being attempted. *)
Inductive Event : Type :=
  | EvSpawn (command : string) (args : list string)
  | EvRead (fname : string)
  | EvWrite (fname : string) (data : Manifest) (ok : bool).

(** The file system, the module-level [packagesToRelease] map (entries in
    insertion order) and the events so far. *)
Record State : Type := {
  disk : gmap string Manifest;
  packagesToRelease : list (string * Pkg);
  trace : list Event
}.

Definition log (ev : Event) (s : State) : State :=
  {| disk := disk s; packagesToRelease := packagesToRelease s;
     trace := trace s ++ [ev] |}.

Definition write (fname : string) (data : Manifest) (s : State) : State :=
  {| disk := <[fname := data]> (disk s);
     packagesToRelease := packagesToRelease s; trace := trace s |}.

(** [Map.prototype.set]: an existing key keeps its position. *)
Fixpoint Map_set (key : string) (value : Pkg) (m : list (string * Pkg))
  : list (string * Pkg) :=
  match m with
  | [] => [(key, value)]
  | (k, v) :: m' =>
      if String.eqb k key then (k, value) :: m' else (k, v) :: Map_set key value m'
  end.

Definition set_candidate (key : string) (value : Pkg) (s : State) : State :=
  {| disk := disk s; packagesToRelease := Map_set key value (packagesToRelease s);
     trace := trace s |}.

(** A task that is neither fulfilled nor rejected. *)
Definition pending {A : Type} (t : Async A) : bool :=
  match t with Ret _ | Throw _ => false | _ => true end.

Definition fulfilled {A : Type} (t : Async A) : bool :=
  match t with Ret _ => true | _ => false end.

Definition rejection {A : Type} (t : Async A) : option Error :=
  match t with Throw e => Some e | _ => None end.

(** Runs the synchronous code of a task up to its next suspension point.  A
    child process is spawned as soon as [exec] is called, so the spawn is
    observed here, not when the process closes. *)
Fixpoint advance {A : Type} (t : Async A) (s : State) : Async A * State :=
  match t with
  | MapSet key value k => advance k (set_candidate key value s)
  | AwaitExec command args _ => (t, log (EvSpawn command args) s)
  | _ => (t, s)
  end.

Section Scheduler.
Context (w : World).

(** Completes the operation a task is suspended at and runs the task on to
    its next suspension point. *)
Definition resume {A : Type} (t : Async A) (s : State) : Async A * State :=
  match t with
  | AwaitExec command args k => advance (k (spawn_out w command args)) s
  | AwaitRead fname k => advance (k (disk s !! fname)) (log (EvRead fname) s)
  | AwaitWrite fname data k =>
      if write_ok w fname data
      then advance (k true) (log (EvWrite fname data true) (write fname data s))
      else advance (k false) (log (EvWrite fname data false) s)
  | _ => advance t s
  end.

(** Resumes the [n]-th pending task of a pool. *)
Fixpoint resume_nth (n : nat) (ts : list Task) (s : State) : list Task * State :=
  match ts with
  | [] => ([], s)
  | t :: ts' =>
      if pending t then
        match n with
        | O => let '(t', s') := resume t s in (t' :: ts', s')
        | S n' => let '(ts'', s') := resume_nth n' ts' s in (t :: ts'', s')
        end
      else let '(ts'', s') := resume_nth n ts' s in (t :: ts'', s')
  end.

Definition count_pending (ts : list Task) : nat := length (filter (fun t => pending t = true) ts).

(** Calls the tasks of a fan-out in order; each runs up to its first
    [await]. *)
Fixpoint start_all (ts : list Task) (s : State) : list Task * State :=
  match ts with
  | [] => ([], s)
  | t :: ts' =>
      let '(t', s1) := advance t s in
      let '(ts'', s2) := start_all ts' s1 in
      (t' :: ts'', s2)
  end.

(** The error of the first rejected task, if there is one. *)
Fixpoint first_rejection (ts : list Task) : option Error :=
  match ts with
  | [] => None
  | t :: ts' =>
      match rejection t with
      | Some e => Some e
      | None => first_rejection ts'
      end
  end.

(** ** The main flow *)

(** The state of the process: the observable state and the tasks of
    earlier fan-outs that are still in flight. *)
Record Conf : Type := {
  st : State;
  bg : list Task
}.

(** The top-level code of the module.  It reads scheduling decisions off a
    list: the [n]-th decision picks which pending task completes next.
    [None] means the list ran out before the flow came to its end. *)
Definition M (A : Type) : Type :=
  list nat → Conf → option (Result A * list nat * Conf).

Global Instance M_ret : MRet M := fun A a sched c => Some (Ok a, sched, c).
Global Instance M_bind : MBind M := fun A B f m sched c =>
  match m sched c with
  | Some (Ok a, sched', c') => f a sched' c'
  | Some (Err e, sched', c') => Some (Err e, sched', c')
  | None => None
  end.

Definition throw {A : Type} (e : Error) : M A :=
  fun sched c => Some (Err e, sched, c).

(** [try { body } finally { fin }]: an exception of [fin] replaces the
    outcome of [body]. *)
Definition try_finally {A : Type} (body : M A) (fin : M unit) : M A :=
  fun sched c =>
    match body sched c with
    | Some (r, sched', c') =>
        match fin sched' c' with
        | Some (Ok _, sched'', c'') => Some (r, sched'', c'')
        | Some (Err e, sched'', c'') => Some (Err e, sched'', c'')
        | None => None
        end
    | None => None
    end.

(** The event loop while the main flow awaits the single task [t]: the
    scheduler completes [t] or one of the tasks in flight. *)
Fixpoint await_loop {A : Type} (t : Async A) (sched : list nat) (c : Conf)
  {struct sched} : option (Result A * list nat * Conf) :=
  match t with
  | Ret a => Some (Ok a, sched, c)
  | Throw e => Some (Err e, sched, c)
  | _ =>
      match sched with
      | [] => None
      | n :: sched' =>
          match (n `mod` S (count_pending (bg c)))%nat with
          | O =>
              let '(t', s') := resume t (st c) in
              await_loop t' sched' {| st := s'; bg := bg c |}
          | S i =>
              let '(bg', s') := resume_nth i (bg c) (st c) in
              await_loop t sched' {| st := s'; bg := bg' |}
          end
      end
  end.

(** [await t] in the main flow. *)
Definition await {A : Type} (t : Async A) : M A :=
  fun sched c =>
    let '(t0, s0) := advance t (st c) in
    await_loop t0 sched {| st := s0; bg := bg c |}.

(** The event loop while the main flow awaits [Promise.all(fg)].  It
    rejects with the first rejection, and then the other tasks of [fg]
    remain in flight; it is fulfilled when every task is. *)
Fixpoint all_loop (fg : list Task) (sched : list nat) (c : Conf)
  {struct sched} : option (Result unit * list nat * Conf) :=
  match first_rejection fg with
  | Some e =>
      Some (Err e, sched,
            {| st := st c; bg := bg c ++ filter (fun t => pending t = true) fg |})
  | None =>
      if forallb fulfilled fg then Some (Ok tt, sched, c)
      else
        match sched with
        | [] => None
        | n :: sched' =>
            let i := (n `mod` (count_pending fg + count_pending (bg c)))%nat in
            if (i <? count_pending fg)%nat then
              let '(fg', s') := resume_nth i fg (st c) in
              all_loop fg' sched' {| st := s'; bg := bg c |}
            else
              let '(bg', s') := resume_nth (i - count_pending fg) (bg c) (st c) in
              all_loop fg sched' {| st := s'; bg := bg' |}
        end
  end.

(** [await Promise.all(ts)] in the main flow. *)
Definition Promise_all (ts : list Task) : M unit :=
  fun sched c =>
    let '(fg, s0) := start_all ts (st c) in
    all_loop fg sched {| st := s0; bg := bg c |}.

(** [[...packagesToRelease.keys()]] *)
Definition packagesToRelease_keys : M (list string) :=
  fun sched c => Some (Ok (packagesToRelease (st c)).*1, sched, c).

End Scheduler.

(** ** The script *)

(** The line feed of the template literals. *)
Definition newline : string := String (Ascii.ascii_of_nat 10) EmptyString.

(** [String.prototype.trim] on the output of [git]. *)
Fixpoint trim_start (s : string) : string :=
  match s with
  | String a s' => if Ascii.is_space a then trim_start s' else s
  | EmptyString => EmptyString
  end.

Definition trim (s : string) : string :=
  String.rev (trim_start (String.rev (trim_start s))).

(** [npm(args, options)]: [npm ... --json], throwing on a non-zero exit code
    and parsing what was printed otherwise. *)
Definition npm {A : Type} (parse : string → option A) (args : list string)
    (options : ExecOptions) : Async A :=
  r ← exec "npm" (args ++ ["--json"]) options;
  if negb (code r =? 0)
  then Throw (JsError ("npm command failed:" +:+ newline +:+ stderr r))
  else match parse (stdout r) with
       | Some json => Ret json
       | None => Throw SyntaxError
       end.

(** The predicate of the [filter] that selects [packages]. *)
Definition discovered (cwd : string) (pkg : Pkg) : bool :=
  negb (pkg_private pkg)
  && negb (String.eqb (pkg_path pkg) cwd)
  && String.prefix "@ygg.tools/" (pkg_name pkg).

(** The name under which a package at a version is viewed and tagged. *)
Definition pkgFullName (pkg : Pkg) (vnew : string) : string :=
  pkg_name pkg +:+ "@" +:+ vnew.

Definition view_args (key : string) : list string :=
  ["view"; key; "name"; "--json"].

Definition publish_args (packages : list Pkg) : list string :=
  flat_map (fun pkg => ["--workspace"; pkg_location pkg]) packages
  ++ ["publish"; "--no-git-checks"; "--tag"; "ci"].

Definition dist_tag_args (key : string) : list string :=
  ["dist-tag"; "add"; key; "edge"].

(** [[...keys].sort()]: the default comparison orders strings by their code
    units; package names and versions are ASCII. *)
Definition sort (keys : list string) : list string := merge_sort String.le keys.

Section Script.
Context (lib : Lib) (w : World).

(** The registry check of the version update: "check if package version
    exists online; if it doesn't, schedule submission". *)
Definition check_online (pkg : Pkg) (vnew : string) : Task :=
  let pkgFullName := pkgFullName pkg vnew in
  r ← exec "npm" (view_args pkgFullName) no_options;
  if negb (code r =? 0) then
    match JSON_parse lib (stdout r) with
    | None => Throw SyntaxError
    | Some json =>
        if strict_ne_string (opt_get (opt_get json "error") "code") "E404"
        then Throw (JsError ("npm command failed:" +:+ newline +:+ stderr r))
        else MapSet pkgFullName pkg (Ret tt)
    end
  else Ret tt.

(** The callback of the version update fan-out (the [console.log] calls of
    the script are left out throughout).  [if (vnew)] holds for a string
    that is not empty. *)
Definition bump (gitVersion gitHead : string) (pkg : Pkg) : Task :=
  let vold := pkg_version pkg in
  match semver_inc lib vold "prerelease" ("git." +:+ gitVersion) false with
  | Some vnew =>
      if negb (String.eqb vnew "") then
        changePackageOptions pkg [(KVersion, Some vnew); (KGitHead, Some gitHead)];;
        check_online pkg vnew
      else Ret tt
  | None => Ret tt
  end.

(** The callback of the restore fan-out. *)
Definition restore (pkg : Pkg) : Task :=
  changePackageOptions pkg
    [(KVersion, pkg_version pkg); (KGitHead, pkg_gitHead pkg)];;
  Ret tt.

(** [case "ci":] up to its [break]. *)
Definition ci (packages : list Pkg) (gitVersion gitHead : string) : M unit :=
  Promise_all w (bump gitVersion gitHead <$> packages);;
  await w (execPipe "npm" ["run"; "prepublishOnly"]);;
  try_finally
    (await w (execPipe "npm" (publish_args packages)))
    (await w (execPipe "npm" ["run"; "postpublish"])).

(** The module body, for the parsed [--type] and the working directory. *)
Definition release (type : option string) (cwd : string) : M unit :=
  all ← await w (npm (JSON_parse_packages lib) ["query"; ".workspace"] no_options);
  let packages := filter (fun pkg => discovered cwd pkg) all in
  gitDescribe ← await w (exec "git" ["describe"; "--always"; "--tags"] no_options);
  if negb (code gitDescribe =? 0)
  then throw (JsError ("git command failed:" +:+ newline +:+ stderr gitDescribe))
  else
  let gitVersion := trim (stdout gitDescribe) in
  gitRevParse ← await w (exec "git" ["rev-parse"; "HEAD"] no_options);
  if negb (code gitRevParse =? 0)
  then throw (JsError ("git command failed:" +:+ newline +:+ stderr gitRevParse))
  else
  let gitHead := trim (stdout gitRevParse) in
  try_finally
    ((if decide (type = Some "ci")
      then ci packages gitVersion gitHead
      else throw (JsError "--type is required and must be one of: {ci}"));;
     keys ← packagesToRelease_keys;
     let packageKeys := sort keys in
     Promise_all w ((fun key => execPipe "npm" (dist_tag_args key)) <$> packageKeys))
    (Promise_all w (restore <$> packages)).

(** A run of the process from a file system [disk0], under the scheduling
    decisions [sched]: how it exits and the state it leaves.  An exit with
    an error ends the tasks still in flight. *)
Definition run (type : option string) (cwd : string) (sched : list nat)
    (disk0 : gmap string Manifest) : option (Result unit * State) :=
  match release type cwd sched
          {| st := {| disk := disk0; packagesToRelease := []; trace := [] |};
             bg := [] |}
  with
  | Some (r, _, c) => Some (r, st c)
  | None => None
  end.

End Script.

(** * Part II: the editor's extension groups ([BlockNoteExtensions.ts]) *)

Module BlockNoteExtensions.

(** The pieces of [GetExtensionsOptions] that are passed through to the
    extensions unchanged. *)
Definition Plugin : Type := string.
Definition DomAttributes : Type := string.
Definition Fragment : Type := string.

(** [opts.editor], as far as it is read: the plugin of each UI element. *)
Record BlockNoteEditor : Type := {
  sideMenu_plugin : Plugin;
  formattingToolbar_plugin : Plugin;
  slashMenu_plugin : Plugin;
  hyperlinkToolbar_plugin : Plugin;
  imageToolbar_plugin : Plugin
}.

(** A block spec of the schema, named by its Tiptap node. *)
Record BlockSpec : Type := { node : string }.

Record User : Type := { user_name : string; user_color : string }.

(** How a collaboration cursor is rendered: [defaultRender] or the
    [renderCursor] function of the options. *)
Inductive Render : Type :=
  | defaultRender
  | customRender (renderCursor : string).

Record CollaborationOptions : Type := {
  fragment : Fragment;
  user : User;
  provider : JsValue;
  renderCursor : option string
}.

Record GetExtensionsOptions : Type := {
  editor : BlockNoteEditor;
  domAttributes : DomAttributes;
  blockSchema : list (string * BlockSpec);
  collaboration : option CollaborationOptions
}.

(** The Tiptap extensions the file imports, with the configuration each is
    given. *)
Inductive Extension : Type :=
  | ClipboardTextSerializer | Commands | Editable | FocusEvents | Tabindex
  | Gapcursor
  | Placeholder (includeChildren showOnlyCurrent : bool)
  | UniqueID (types : list string)
  | HardBreak
  | Text
  | Bold | Code | Italic | Strike | Underline | Link
  | TextColorMark | TextColorExtension
  | BackgroundColorMark | BackgroundColorExtension
  | TextAlignmentExtension
  | Doc
  | BlockContainer (dom : DomAttributes)
  | BlockGroup (dom : DomAttributes)
  | BlockSpecNode (name : string) (ed : BlockNoteEditor) (dom : DomAttributes)
  | CustomBlockSerializerExtension
  | Dropcursor (width : Z) (color : string)
  | TrailingNode
  | Collaboration (frag : Fragment)
  | CollaborationCursor (u : User) (render : Render) (prov : JsValue)
  | History
  | BlockNoteUIExtension (plugins : list Plugin).

Record BlockNoteExtensionGroup : Type := {
  group : string;
  required : bool;
  extensions : list Extension
}.

(** The groups [ret] is initialised with. *)
Definition base_groups (opts : GetExtensionsOptions) : list BlockNoteExtensionGroup :=
  [ {| group := "Core"; required := true;
       extensions := [ClipboardTextSerializer; Commands; Editable; FocusEvents; Tabindex] |};
    {| group := "DevTools"; required := true; extensions := [Gapcursor] |};
    {| group := "DropCursor"; required := true;
       extensions := [Placeholder true false; UniqueID ["blockContainer"]; HardBreak] |};
    {| group := "Basics"; required := true; extensions := [Text] |};
    {| group := "Marks"; required := false;
       extensions := [Bold; Code; Italic; Strike; Underline; Link;
                      TextColorMark; TextColorExtension;
                      BackgroundColorMark; BackgroundColorExtension;
                      TextAlignmentExtension] |};
    {| group := "Nodes"; required := true;
       extensions :=
         [Doc; BlockContainer (domAttributes opts); BlockGroup (domAttributes opts)]
         ++ ((fun blockSpec =>
                BlockSpecNode (node blockSpec) (editor opts) (domAttributes opts))
             <$> (blockSchema opts).*2)
         ++ [CustomBlockSerializerExtension] |};
    {| group := "Core"; required := true;
       extensions := [Dropcursor 5 "#ddeeff"; TrailingNode] |} ].

(** The group pushed when [opts.collaboration] is set. *)
Definition collaboration_group (c : CollaborationOptions) : BlockNoteExtensionGroup :=
  let extensions0 : list Extension := [] in
  let extensions1 := (extensions0 ++ [Collaboration (fragment c)])%list in
  let extensions2 :=
    if truthy (opt_get (provider c) "awareness")
    then (extensions1
          ++ [CollaborationCursor (user c)
                (from_option customRender defaultRender (renderCursor c))
                (provider c)])%list
    else extensions1 in
  {| group := "Collaboration"; required := true; extensions := extensions2 |}.

Definition history_group : BlockNoteExtensionGroup :=
  {| group := "History"; required := false; extensions := [History] |}.

Definition editor_group (opts : GetExtensionsOptions) : BlockNoteExtensionGroup :=
  {| group := "Editor"; required := true;
     extensions :=
       [BlockNoteUIExtension
          [sideMenu_plugin (editor opts);
           formattingToolbar_plugin (editor opts);
           slashMenu_plugin (editor opts);
           hyperlinkToolbar_plugin (editor opts);
           imageToolbar_plugin (editor opts)]] |}.

Definition getBlockNoteExtensionGroups (opts : GetExtensionsOptions)
  : list BlockNoteExtensionGroup :=
  let ret := base_groups opts in
  let ret :=
    match collaboration opts with
    | Some c => (ret ++ [collaboration_group c])%list
    | None => (ret ++ [history_group])%list
    end in
  let ret := (ret ++ [editor_group opts])%list in
  ret.

Definition getBlockNoteExtensions (opts : GetExtensionsOptions) : list Extension :=
  flat_map extensions (getBlockNoteExtensionGroups opts).

End BlockNoteExtensions.

(** * Specification vocabulary *)

(** ** What a task can do *)

(** Every event the task may still cause satisfies [P] and every entry it may
    put into [packagesToRelease] satisfies [Q], whatever the world answers. *)
Fixpoint emits {A : Type} (P : Event → Prop) (Q : string → Pkg → Prop)
    (t : Async A) : Prop :=
  match t with
  | Ret _ | Throw _ => True
  | MapSet key value k => Q key value ∧ emits P Q k
  | AwaitExec command args k => P (EvSpawn command args) ∧ ∀ r, emits P Q (k r)
  | AwaitRead fname k => P (EvRead fname) ∧ ∀ r, emits P Q (k r)
  | AwaitWrite fname data k => (∀ ok, P (EvWrite fname data ok)) ∧ ∀ r, emits P Q (k r)
  end.

(** The same for a task that is suspended: the child process it waits for
    has been spawned already. *)
Definition emits_susp {A : Type} (P : Event → Prop) (Q : string → Pkg → Prop)
    (t : Async A) : Prop :=
  match t with
  | AwaitExec _ _ k => ∀ r, emits P Q (k r)
  | _ => emits P Q t
  end.

(** [s'] comes after [s]: the trace grew by events in [P], the map by entries
    in [Q]. *)
Definition evolves (P : Event → Prop) (Q : string → Pkg → Prop) (s s' : State) : Prop :=
  (∃ evs, trace s' = trace s ++ evs ∧ Forall P evs)
  ∧ (∃ kvs, packagesToRelease s'
            = foldl (fun m kv => Map_set kv.1 kv.2 m) (packagesToRelease s) kvs
          ∧ Forall (fun kv => Q kv.1 kv.2) kvs).


(** How a task that has come to its end settles. *)
Definition settle {A : Type} (t : Async A) : option (Result A) :=
  match t with
  | Ret a => Some (Ok a)
  | Throw e => Some (Err e)
  | _ => None
  end.

(** Along the answers of the world [w], the task throws or puts a key in [φ]
    into [packagesToRelease] before it returns. *)
Fixpoint will_set {A : Type} (w : World) (φ : string → Prop) (t : Async A) : Prop :=
  match t with
  | Ret _ => False
  | Throw _ => True
  | MapSet key _ k => φ key ∨ will_set w φ k
  | AwaitExec command args k => will_set w φ (k (spawn_out w command args))
  | AwaitRead _ k => ∀ r, will_set w φ (k r)
  | AwaitWrite fname data k => will_set w φ (k (write_ok w fname data))
  end.

(** The task can only end by throwing. *)
Definition doomed {A : Type} (w : World) (t : Async A) : Prop :=
  will_set w (fun _ => False) t.

(** Reads and writes of the manifests of [packages]. *)
Inductive file_event (packages : list Pkg) : Event → Prop :=
  | fe_read pkg :
      pkg ∈ packages → file_event packages (EvRead (manifest_path pkg))
  | fe_write pkg data ok :
      pkg ∈ packages → file_event packages (EvWrite (manifest_path pkg) data ok).

(** What the version update of [packages] does: manifest accesses and
    registry views. *)
Inductive worker_event (packages : list Pkg) : Event → Prop :=
  | we_file ev :
      file_event packages ev → worker_event packages ev
  | we_view pkg vnew :
      pkg ∈ packages →
      worker_event packages (EvSpawn "npm" (view_args (pkgFullName pkg vnew))).

(** An entry of [packagesToRelease] for one of [packages]. *)
Definition candidate_of (packages : list Pkg) (key : string) (value : Pkg) : Prop :=
  value ∈ packages ∧ ∃ vnew, key = pkgFullName value vnew.

Definition no_event : Event → Prop := fun _ => False.
Definition no_entry : string → Pkg → Prop := fun _ _ => False.

(** The commands of the main flow. *)
Definition query_args : list string := ["query"; ".workspace"; "--json"].
Definition describe_args : list string := ["describe"; "--always"; "--tags"].
Definition rev_parse_args : list string := ["rev-parse"; "HEAD"].
Definition ev_query : Event := EvSpawn "npm" query_args.
Definition ev_describe : Event := EvSpawn "git" describe_args.
Definition ev_rev_parse : Event := EvSpawn "git" rev_parse_args.
Definition ev_prepublish : Event := EvSpawn "npm" ["run"; "prepublishOnly"].
Definition ev_publish (packages : list Pkg) : Event :=
  EvSpawn "npm" (publish_args packages).
Definition ev_postpublish : Event := EvSpawn "npm" ["run"; "postpublish"].
Definition ev_dist_tag (key : string) : Event := EvSpawn "npm" (dist_tag_args key).

(** The exit code [exec] reports for a command. *)
Definition code_of (w : World) (command : string) (args : list string) : Z :=
  default (-1) (exit_code (spawn_out w command args)).

(** Every error the task can reject with is in [E]. *)
Fixpoint throws {A : Type} (E : Error → Prop) (t : Async A) : Prop :=
  match t with
  | Ret _ => True
  | Throw e => E e
  | MapSet _ _ k => throws E k
  | AwaitExec _ _ k => ∀ r, throws E (k r)
  | AwaitRead _ k => ∀ r, throws E (k r)
  | AwaitWrite _ _ k => ∀ r, throws E (k r)
  end.

(** The error of a failed manifest access. *)
Definition is_fs_error (e : Error) : Prop := ∃ fname, e = FsError fname.

(** The error [execPipe] throws for [npm]. *)
Definition npm_failed : Error := JsError "npm command failed".

(** The error of the [default:] branch. *)
Definition type_required : Error :=
  JsError "--type is required and must be one of: {ci}".

(** ** The shape of a run *)

(** What the workspace query returns to the script. *)
Definition workspace_query (lib : Lib) (w : World) : Result (list Pkg) :=
  if negb (code_of w "npm" query_args =? 0)
  then Err (JsError ("npm command failed:" +:+ newline
                     +:+ err (spawn_out w "npm" query_args)))
  else match JSON_parse_packages lib (out (spawn_out w "npm" query_args)) with
       | Some all => Ok all
       | None => Err SyntaxError
       end.

(** The packages the script works on. *)
Definition discover (cwd : string) (all : list Pkg) : list Pkg :=
  filter (fun pkg => discovered cwd pkg) all.

Definition gitVersion_of (w : World) : string :=
  trim (out (spawn_out w "git" describe_args)).

Definition gitHead_of (w : World) : string :=
  trim (out (spawn_out w "git" rev_parse_args)).

Definition git_failed (w : World) (args : list string) : Error :=
  JsError ("git command failed:" +:+ newline +:+ err (spawn_out w "git" args)).

(** The outcome of [try { body } finally { fin }]. *)
Definition finally_result {A : Type} (body : Result A) (fin : Result unit) : Result A :=
  match fin with
  | Ok _ => body
  | Err e => Err e
  end.

(** The outcome of [execPipe("npm", args)]. *)
Definition npm_result (w : World) (args : list string) : Result unit :=
  if code_of w "npm" args =? 0 then Ok tt else Err npm_failed.

(** The outcome of publish followed by the post-publish hook. *)
Definition publish_result (w : World) (packages : list Pkg) : Result unit :=
  finally_result (npm_result w (publish_args packages))
                 (npm_result w ["run"; "postpublish"]).

(** The state after the three commands of the publish step. *)
Definition published (packages : list Pkg) (s : State) : State :=
  log ev_postpublish (log (ev_publish packages) (log ev_prepublish s)).

(** The state after the tag promotion calls have been spawned. *)
Definition tagged (s : State) : State :=
  {| disk := disk s; packagesToRelease := packagesToRelease s;
     trace := trace s ++ (ev_dist_tag <$> sort (packagesToRelease s).*1) |}.

(** The state after discovery and the two [git] commands. *)
Definition queried (s : State) : State :=
  log ev_rev_parse (log ev_describe (log ev_query s)).

(** Every way a run from the state [s0] can end: with which result, in
    which state. *)
Inductive release_shape (lib : Lib) (w : World) (type : option string)
    (cwd : string) (s0 : State) : Result unit → State → Prop :=
  | shape_query_failed e :
      workspace_query lib w = Err e →
      release_shape lib w type cwd s0 (Err e) (log ev_query s0)
  | shape_describe_failed all :
      workspace_query lib w = Ok all →
      code_of w "git" describe_args ≠ 0 →
      release_shape lib w type cwd s0
        (Err (git_failed w describe_args)) (log ev_describe (log ev_query s0))
  | shape_rev_parse_failed all :
      workspace_query lib w = Ok all →
      code_of w "git" describe_args = 0 →
      code_of w "git" rev_parse_args ≠ 0 →
      release_shape lib w type cwd s0 (Err (git_failed w rev_parse_args)) (queried s0)
  | shape_type_rejected all r_restore s' :
      workspace_query lib w = Ok all →
      code_of w "git" describe_args = 0 →
      code_of w "git" rev_parse_args = 0 →
      type ≠ Some "ci" →
      evolves (file_event (discover cwd all)) no_entry (queried s0) s' →
      (∀ e, r_restore = Err e → is_fs_error e) →
      release_shape lib w type cwd s0
        (finally_result (Err type_required) r_restore) s'
  | shape_update_rejected all e s' :
      workspace_query lib w = Ok all →
      code_of w "git" describe_args = 0 →
      code_of w "git" rev_parse_args = 0 →
      type = Some "ci" →
      evolves (worker_event (discover cwd all)) (candidate_of (discover cwd all))
        (queried s0) s' →
      release_shape lib w type cwd s0 (Err e) s'
  | shape_prepublish_failed all s1 r_restore s' :
      workspace_query lib w = Ok all →
      code_of w "git" describe_args = 0 →
      code_of w "git" rev_parse_args = 0 →
      type = Some "ci" →
      evolves (worker_event (discover cwd all)) (candidate_of (discover cwd all))
        (queried s0) s1 →
      (∀ pkg φ, pkg ∈ discover cwd all →
         will_set w φ (bump lib (gitVersion_of w) (gitHead_of w) pkg) →
         ∃ k, k ∈ (packagesToRelease s1).*1 ∧ φ k) →
      code_of w "npm" ["run"; "prepublishOnly"] ≠ 0 →
      evolves (file_event (discover cwd all)) no_entry (log ev_prepublish s1) s' →
      (∀ e, r_restore = Err e → is_fs_error e) →
      release_shape lib w type cwd s0
        (finally_result (Err npm_failed) r_restore) s'
  | shape_publish_failed all s1 r_restore s' :
      workspace_query lib w = Ok all →
      code_of w "git" describe_args = 0 →
      code_of w "git" rev_parse_args = 0 →
      type = Some "ci" →
      evolves (worker_event (discover cwd all)) (candidate_of (discover cwd all))
        (queried s0) s1 →
      (∀ pkg φ, pkg ∈ discover cwd all →
         will_set w φ (bump lib (gitVersion_of w) (gitHead_of w) pkg) →
         ∃ k, k ∈ (packagesToRelease s1).*1 ∧ φ k) →
      code_of w "npm" ["run"; "prepublishOnly"] = 0 →
      publish_result w (discover cwd all) = Err npm_failed →
      evolves (file_event (discover cwd all)) no_entry
        (published (discover cwd all) s1) s' →
      (∀ e, r_restore = Err e → is_fs_error e) →
      release_shape lib w type cwd s0
        (finally_result (Err npm_failed) r_restore) s'
  | shape_tagged all s1 r_tags r_restore s' :
      workspace_query lib w = Ok all →
      code_of w "git" describe_args = 0 →
      code_of w "git" rev_parse_args = 0 →
      type = Some "ci" →
      evolves (worker_event (discover cwd all)) (candidate_of (discover cwd all))
        (queried s0) s1 →
      (∀ pkg φ, pkg ∈ discover cwd all →
         will_set w φ (bump lib (gitVersion_of w) (gitHead_of w) pkg) →
         ∃ k, k ∈ (packagesToRelease s1).*1 ∧ φ k) →
      code_of w "npm" ["run"; "prepublishOnly"] = 0 →
      publish_result w (discover cwd all) = Ok tt →
      evolves (file_event (discover cwd all)) no_entry
        (tagged (published (discover cwd all) s1)) s' →
      (r_tags = Ok tt ∨ r_tags = Err npm_failed) →
      (∀ e, r_restore = Err e → is_fs_error e) →
      release_shape lib w type cwd s0 (finally_result r_tags r_restore) s'.

(** ** Observations on a trace *)

Global Instance Event_eq_dec : EqDecision Event.
Proof. solve_decision. Defined.

(** How often an event occurs. *)
Definition count_event (ev : Event) (tr : list Event) : nat :=
  length (filter (fun ev' => ev' = ev) tr).

(** The key of a [dist-tag add] call. *)
Definition tag_call (ev : Event) : option string :=
  match ev with
  | EvSpawn command args =>
      if decide (command = "npm" ∧ take 2 args = ["dist-tag"; "add"])
      then args !! 2%nat
      else None
  | _ => None
  end.

(** The keys of the tag promotion calls of a trace, in the order of the
    calls. *)
Definition tag_calls (tr : list Event) : list string := omap tag_call tr.

(** A call of [npm] with the [publish] command. *)
Definition is_publish (ev : Event) : Prop :=
  ∃ args, ev = EvSpawn "npm" args ∧ "publish" ∈ args.

(** A child process being spawned. *)
Definition is_spawn (ev : Event) : Prop :=
  ∃ command args, ev = EvSpawn command args.

(** The packages a run works on: none when the workspace query fails. *)
Definition packages_of (lib : Lib) (w : World) (cwd : string) : list Pkg :=
  match workspace_query lib w with
  | Ok all => discover cwd all
  | Err _ => []
  end.

(** Strictly ascending order of strings by code units. *)
Definition string_lt : relation string := strict String.le.

(** Runs a task on its own: up to [fuel] of its operations complete, one
    after the other. *)
Fixpoint run_task {A : Type} (w : World) (fuel : nat) (t : Async A) (s : State)
  : Async A * State :=
  match fuel with
  | O => (t, s)
  | S fuel' =>
      if pending t
      then let '(t', s') := resume w t s in run_task w fuel' t' s'
      else (t, s)
  end.

(** Some proposed property differs from the one in the manifest. *)
Definition differs (packageJSON : Manifest) (optionsNew : Options) : Prop :=
  Exists (fun k => manifest_get packageJSON k ≠ options_get optionsNew k)
         (Object_keys optionsNew).

(** The options of the restore call. *)
Definition restore_options (pkg : Pkg) : Options :=
  [(KVersion, pkg_version pkg); (KGitHead, pkg_gitHead pkg)].

(** The options of the version update call. *)
Definition bump_options (vnew gitHead : string) : Options :=
  [(KVersion, Some vnew); (KGitHead, Some gitHead)].

(** The state a run starts in. *)
Definition initial (disk0 : gmap string Manifest) : State :=
  {| disk := disk0; packagesToRelease := []; trace := [] |}.

(** The task is bound to set a key in [φ], or such a key is there. *)
Definition owes {A : Type} (w : World) (φ : string → Prop) (s : State)
    (t : Async A) : Prop :=
  will_set w φ t ∨ ∃ k, k ∈ (packagesToRelease s).*1 ∧ φ k.

(** Some group holds the extension. *)
Definition contains (groups : list BlockNoteExtensions.BlockNoteExtensionGroup)
    (e : BlockNoteExtensions.Extension) : Prop :=
  ∃ g, g ∈ groups ∧ e ∈ BlockNoteExtensions.extensions g.

(** Takes a membership in a list that is spelled out apart. *)
Ltac elem_cases H :=
  repeat first
    [ apply elem_of_nil in H; destruct H
    | apply elem_of_cons in H as [H|H]; [try discriminate H|]
    | apply elem_of_app in H as [H|H]
    | apply list_elem_of_fmap in H as (? & H & _); try discriminate H ].

(** The three commands of the publish step. *)
Definition publish_step (packages : list Pkg) : list Event :=
  [ev_prepublish; ev_publish packages; ev_postpublish].

(** The commands that come before the version update. *)
Definition is_query (ev : Event) : Prop :=
  ev = ev_query ∨ ev = ev_describe ∨ ev = ev_rev_parse.

(** A key of the form [name@version] for one of [packages]. *)
Definition key_of (packages : list Pkg) (key : string) : Prop :=
  ∃ pkg vnew, pkg ∈ packages ∧ key = pkgFullName pkg vnew.

(** One of the two lifecycle hooks. *)
Definition is_hook (ev : Event) : Prop := ev = ev_prepublish ∨ ev = ev_postpublish.

(** A tag promotion call for one of [packages]. *)
Definition tag_event (packages : list Pkg) (ev : Event) : Prop :=
  ∃ key, key_of packages key ∧ ev = ev_dist_tag key.

(** What can follow the workspace query in a trace: the two [git] commands,
    and commands and manifest accesses for [packages]. *)
Definition later_event (packages : list Pkg) (ev : Event) : Prop :=
  ev = ev_describe ∨ ev = ev_rev_parse
  ∨ worker_event packages ev
  ∨ ev ∈ publish_step packages
  ∨ tag_event packages ev.

(** [json?.error?.code] *)
Definition error_code (json : JsValue) : JsValue :=
  opt_get (opt_get json "error") "code".

(** The string has an [@] in it. *)
Definition has_at (s : string) : bool :=
  existsb (Ascii.eqb (Ascii.ascii_of_nat 64)) (String.list_ascii_of_string s).

(** ** Termination *)

(** The task completes at most [n] operations before it settles. *)
Fixpoint steps_le {A : Type} (n : nat) (t : Async A) : Prop :=
  match t with
  | Ret _ | Throw _ => True
  | MapSet _ _ k => steps_le n k
  | AwaitExec _ _ k =>
      match n with O => False | S n' => ∀ r, steps_le n' (k r) end
  | AwaitRead _ k =>
      match n with O => False | S n' => ∀ r, steps_le n' (k r) end
  | AwaitWrite _ _ k =>
      match n with O => False | S n' => ∀ r, steps_le n' (k r) end
  end.

(** A task as the scheduler holds it: run up to a suspension point, with at
    most [n] operations to go. *)
Definition ready {A : Type} (n : nat) (t : Async A) : Prop :=
  match t with MapSet _ _ _ => False | _ => steps_le n t end.

(** The keys the version update can put into the map. *)
Definition possible_keys (lib : Lib) (gitVersion : string) (packages : list Pkg)
  : list string :=
  omap (fun pkg =>
          vnew ← semver_inc lib (pkg_version pkg) "prerelease"
                   ("git." +:+ gitVersion) false;
          Some (pkgFullName pkg vnew))
       packages.

Definition any_event : Event → Prop := fun _ => True.

(** ** The restore *)

(** The manifest of [pkg] carries the version and the revision of the
    package record. *)
Definition restored (pkg : Pkg) (d : gmap string Manifest) : Prop :=
  ∃ m, d !! manifest_path pkg = Some m
       ∧ m_version m = pkg_version pkg ∧ m_gitHead m = pkg_gitHead pkg.

(** A restore task for [pkg] on its way: it spawns nothing, what it writes
    is a manifest of [pkg] with the version and revision of the record, and it
    is fulfilled only when it has found or made the manifest so. *)
Fixpoint restores (pkg : Pkg) (t : Task) : Prop :=
  match t with
  | Ret _ | Throw _ => True
  | MapSet _ _ _ | AwaitExec _ _ _ => False
  | AwaitRead fname k =>
      (∀ r, restores pkg (k r))
      ∧ ∀ d : gmap string Manifest,
          fulfilled (k (d !! fname)) = true → restored pkg d
  | AwaitWrite fname data k =>
      fname = manifest_path pkg
      ∧ m_version data = pkg_version pkg
      ∧ m_gitHead data = pkg_gitHead pkg
      ∧ fulfilled (k false) = false
      ∧ ∀ ok, restores pkg (k ok)
  end.

(** The restore task [t] of [pkg], one of [packages], over the file system
    [d]. *)
Definition in_restore (packages : list Pkg) (d : gmap string Manifest)
    (pkg : Pkg) (t : Task) : Prop :=
  pkg ∈ packages ∧ restores pkg t ∧ (fulfilled t = true → restored pkg d).

(** Two records for the same manifest have the same version and revision. *)
Definition agree (packages : list Pkg) : Prop :=
  ∀ p1 p2, p1 ∈ packages → p2 ∈ packages →
    manifest_path p1 = manifest_path p2 →
    pkg_version p1 = pkg_version p2 ∧ pkg_gitHead p1 = pkg_gitHead p2.

(** The file system is as it was, or a restore has written to it. *)
Definition restore_step (packages : list Pkg) (d d' : gmap string Manifest) : Prop :=
  d' = d
  ∨ ∃ pkg data,
      pkg ∈ packages
      ∧ m_version data = pkg_version pkg ∧ m_gitHead data = pkg_gitHead pkg
      ∧ d' = <[manifest_path pkg := data]> d.

Definition not_write (ev : Event) : Prop :=
  match ev with EvWrite _ _ _ => False | _ => True end.

Definition any_entry : string → Pkg → Prop := fun _ _ => True.

(** ** A small workspace to run the script on *)

Module Fixture.

Definition mkpkg (name path : string) (private : bool) (version : string) : Pkg :=
  {| pkg_name := name; pkg_path := path; pkg_location := path;
     pkg_private := private; pkg_version := Some version; pkg_gitHead := None |}.

Definition root : Pkg := mkpkg "@ygg.tools/root" "/ws" false "0.0.0".
Definition pkgA : Pkg := mkpkg "@ygg.tools/a" "/ws/a" false "1.0.0".
Definition pkgB : Pkg := mkpkg "@ygg.tools/b" "/ws/b" false "2.0.0".
Definition pkgC : Pkg := mkpkg "other" "/ws/c" false "3.0.0".
Definition pkgD : Pkg := mkpkg "@ygg.tools/d" "/ws/d" true "4.0.0".

Definition workspace : list Pkg := [root; pkgB; pkgA; pkgC; pkgD].

Definition not_found : JsValue :=
  JsObject (fun k =>
    if String.eqb k "error"
    then JsObject (fun k => if String.eqb k "code" then JsString "E404" else JsUndefined)
    else JsUndefined).

Definition server_error : JsValue :=
  JsObject (fun k =>
    if String.eqb k "error"
    then JsObject (fun k => if String.eqb k "code" then JsString "E500" else JsUndefined)
    else JsUndefined).

(** [semver.inc] is stood in for by appending the identifier. *)
Definition lib : Lib :=
  {| semver_inc := fun v _ identifier _ =>
       match v with Some v => Some (v +:+ "-" +:+ identifier) | None => None end;
     JSON_parse := fun text =>
       if String.eqb text "E404" then Some not_found
       else if String.eqb text "E500" then Some server_error
       else None;
     JSON_parse_packages := fun text =>
       if String.eqb text "workspace" then Some workspace else None |}.

Definition exited (c : Z) (text : string) : SpawnResult :=
  {| exit_code := Some c; out := text; err := "" |}.

Definition keyA : string := "@ygg.tools/a@1.0.0-git.v3-5-gabc123".
Definition keyB : string := "@ygg.tools/b@2.0.0-git.v3-5-gabc123".

(** The registry does not know the new version of [pkgA]; [viewB] is what
    it answers for [pkgB]; publishing exits with [publish_code]; the file
    system refuses to write the versions [refused] to the given files. *)
Definition world (viewB : SpawnResult) (publish_code : Z)
    (refused : list (string * string)) : World :=
  {| spawn_out := fun command args =>
       if decide (args = query_args) then exited 0 "workspace"
       else if decide (args = describe_args) then exited 0 ("v3-5-gabc123" +:+ newline)
       else if decide (args = rev_parse_args) then exited 0 ("deadbeef" +:+ newline)
       else if decide (args = view_args keyA) then exited 1 "E404"
       else if decide (args = view_args keyB) then viewB
       else if decide (args = publish_args [pkgB; pkgA]) then exited publish_code ""
       else exited 0 "";
     write_ok := fun fname data =>
       bool_decide ((fname, default "" (m_version data)) ∉ refused) |}.

Definition manifest (version : string) : Manifest :=
  {| m_version := Some version; m_gitHead := None; m_other := "{}" |}.

Definition disk0 : gmap string Manifest :=
  <[manifest_path pkgA := manifest "1.0.0"]>
    (<[manifest_path pkgB := manifest "2.0.0"]> ∅).

(** The scheduler that always completes the first pending task. *)
Definition in_order : list nat := replicate 40 0%nat.

Definition final (o : option (Result unit * State)) : State :=
  match o with
  | Some (_, s) => s
  | None => initial ∅
  end.

Definition not_found_answer : SpawnResult := exited 1 "E404".

(** Every new version is free and every command succeeds. *)
Definition world_ok : World := world not_found_answer 0 [].

Definition final_ok : State :=
  Eval vm_compute in final (run lib world_ok (Some "ci") "/ws" in_order disk0).

(** The same run with [pkgA] updated before [pkgB]. *)
Definition a_first : list nat := [0; 0; 0; 1; 1; 1]%nat ++ in_order.

Definition final_a_first : State :=
  Eval vm_compute in final (run lib world_ok (Some "ci") "/ws" a_first disk0).

(** No [--type]. *)
Definition final_no_type : State :=
  Eval vm_compute in final (run lib world_ok None "/ws" in_order disk0).

(** The registry answers the view of [pkgB] with an internal error. *)
Definition world_anomaly : World := world (exited 1 "E500") 0 [].

Definition final_anomaly : State :=
  Eval vm_compute in final (run lib world_anomaly (Some "ci") "/ws" in_order disk0).

(** Publishing fails. *)
Definition world_publish_fails : World := world not_found_answer 1 [].

Definition final_publish_fails : State :=
  Eval vm_compute in
    final (run lib world_publish_fails (Some "ci") "/ws" in_order disk0).

(** Publishing fails, and afterwards the manifest of [pkgA] cannot be
    written back. *)
Definition world_restore_fails : World :=
  world not_found_answer 1 [(manifest_path pkgA, "1.0.0")].

Definition final_restore_fails : State :=
  Eval vm_compute in
    final (run lib world_restore_fails (Some "ci") "/ws" in_order disk0).

(** The new version cannot be written to the manifest of [pkgB]. *)
Definition world_update_fails : World :=
  world not_found_answer 0 [(manifest_path pkgB, "2.0.0-git.v3-5-gabc123")].

(** The three commands; then both manifests are read for the update and
    the write for [pkgB] fails, which rejects the fan-out while the write
    for [pkgA] is in flight; then the restore reads the manifest of [pkgA],
    the write in flight completes, and the restore reads the manifest of
    [pkgB]. *)
Definition race : list nat := [0; 0; 0; 0; 1; 0; 1; 1; 0]%nat.

Definition final_race : State :=
  Eval vm_compute in final (run lib world_update_fails (Some "ci") "/ws" race disk0).

Definition bumped (version : string) : Manifest :=
  {| m_version := Some version; m_gitHead := Some "deadbeef"; m_other := "{}" |}.

End Fixture.

(** * Invariants of a run *)

(** The [try] ... [finally] statement of the module, for the packages, the
    version description and the revision that the commands before it gave. *)
Definition try_block (lib : Lib) (w : World) (type : option string)
    (packages : list Pkg) (gitVersion gitHead : string) : M unit :=
  try_finally
    ((if decide (type = Some "ci")
      then ci lib w packages gitVersion gitHead
      else throw (JsError "--type is required and must be one of: {ci}"));;
     keys ← packagesToRelease_keys;
     let packageKeys := sort keys in
     Promise_all w ((fun key => execPipe "npm" (dist_tag_args key)) <$> packageKeys))
    (Promise_all w (restore <$> packages)).

(** [I] holds of the state and [Φ] of every task in flight. *)
Definition conf_inv (I : State → Prop) (Φ : ∀ A : Type, Async A → Prop)
    (c : Conf) : Prop :=
  I (st c) ∧ Forall (Φ unit) (bg c).

(** From a process that satisfies the invariant and [pre], the flow [m]
    leads to one that satisfies the invariant again, with a value in [post]
    or an error in [E]. *)
Definition keeps (I : State → Prop) (Φ : ∀ A : Type, Async A → Prop)
    (E : Error → Prop) {A : Type}
    (pre : Conf → Prop) (m : M A) (post : A → Conf → Prop) : Prop :=
  ∀ sched c r sched' c',
    conf_inv I Φ c → pre c → m sched c = Some (r, sched', c') →
    conf_inv I Φ c'
    ∧ match r with Ok a => post a c' | Err e => E e end.

Definition any_conf : Conf → Prop := fun _ => True.
Definition any_result {A : Type} : A → Conf → Prop := fun _ _ => True.

(** The errors a run can end with before it enters the [try] block. *)
Definition early_error (lib : Lib) (w : World) (e : Error) : Prop :=
  workspace_query lib w = Err e
  ∨ (code_of w "git" describe_args ≠ 0 ∧ e = git_failed w describe_args)
  ∨ (code_of w "git" rev_parse_args ≠ 0 ∧ e = git_failed w rev_parse_args).

(** ** The candidates *)

(** Along the answers of the world [w], every entry the task puts into
    [packagesToRelease] satisfies [Q]. *)
Fixpoint sets_only {A : Type} (w : World) (Q : string → Pkg → Prop)
    (t : Async A) : Prop :=
  match t with
  | Ret _ | Throw _ => True
  | MapSet key value k => Q key value ∧ sets_only w Q k
  | AwaitExec command args k => sets_only w Q (k (spawn_out w command args))
  | AwaitRead _ k => ∀ r, sets_only w Q (k r)
  | AwaitWrite fname data k => sets_only w Q (k (write_ok w fname data))
  end.

Definition entries_in (Q : string → Pkg → Prop) (s : State) : Prop :=
  Forall (fun kv => Q kv.1 kv.2) (packagesToRelease s).

(** [npm view key] fails and prints a payload with the error code [E404]. *)
Definition not_found_in_registry (lib : Lib) (w : World) (key : string) : Prop :=
  code_of w "npm" (view_args key) ≠ 0
  ∧ ∃ json, JSON_parse lib (out (spawn_out w "npm" (view_args key))) = Some json
            ∧ error_code json = JsString "E404".

(** [key] is [name@vnew] for the package [value] of [packages], where [vnew]
    is the version [semver.inc] computes for it, and the registry does not
    have it. *)
Definition candidate (lib : Lib) (w : World) (packages : list Pkg)
    (key : string) (value : Pkg) : Prop :=
  value ∈ packages
  ∧ ∃ vnew,
      semver_inc lib (pkg_version value) "prerelease" ("git." +:+ gitVersion_of w) false
      = Some vnew
      ∧ vnew ≠ ""
      ∧ key = pkgFullName value vnew
      ∧ not_found_in_registry lib w key.

Definition any_error : Error → Prop := fun _ => True.
Definition any_key : string → Prop := fun _ => True.

(** ** The file system *)


(** What the task writes is a manifest of one of [packages] that was there
    in [d0], with the other content it had; the task having read files that
    are as [touched_only] has them. *)
Fixpoint edits {A : Type} (packages : list Pkg) (d0 : gmap string Manifest)
    (t : Async A) : Prop :=
  match t with
  | Ret _ | Throw _ => True
  | MapSet _ _ k => edits packages d0 k
  | AwaitExec _ _ k => ∀ r, edits packages d0 (k r)
  | AwaitRead fname k =>
      edits packages d0 (k None)
      ∧ ∀ m m0, d0 !! fname = Some m0 → m_other m = m_other m0 →
                edits packages d0 (k (Some m))
  | AwaitWrite fname data k =>
      (∃ pkg, pkg ∈ packages ∧ fname = manifest_path pkg)
      ∧ (∃ m0, d0 !! fname = Some m0 ∧ m_other data = m_other m0)
      ∧ ∀ ok, edits packages d0 (k ok)
  end.

(** On the file system [d0], which it leaves alone, the task comes to its
    end without a write and without throwing. *)
Fixpoint calm {A : Type} (d0 : gmap string Manifest) (t : Async A) : Prop :=
  match t with
  | Ret _ => True
  | Throw _ => False
  | MapSet _ _ k => calm d0 k
  | AwaitExec _ _ k => ∀ r, calm d0 (k r)
  | AwaitRead fname k => calm d0 (k (d0 !! fname))
  | AwaitWrite _ _ _ => False
  end.

(** The file system is [d0] and no write has been attempted. *)
Definition untouched (d0 : gmap string Manifest) (s : State) : Prop :=
  disk s = d0 ∧ Forall not_write (trace s).

(** ** A run in which nothing fails *)





(** * The extension list *)

(** The node of a block spec extension. *)
Definition block_node_name (e : BlockNoteExtensions.Extension) : option string :=
  match e with
  | BlockNoteExtensions.BlockSpecNode name _ _ => Some name
  | _ => None
  end.

(** The group that is pushed eighth: the Collaboration group or the History
    group. *)
Definition eighth_group (opts : BlockNoteExtensions.GetExtensionsOptions)
  : BlockNoteExtensions.BlockNoteExtensionGroup :=
  match BlockNoteExtensions.collaboration opts with
  | Some c => BlockNoteExtensions.collaboration_group c
  | None => BlockNoteExtensions.history_group
  end.


(** * More of the small workspace *)

Module Corner.
Import Fixture.

(** A workspace in which nothing is to be released: the root, a package
    outside the scope and a private one. *)
Definition nothing_to_release : list Pkg := [root; pkgC; pkgD].

Definition lib_none : Lib :=
  {| semver_inc := semver_inc lib;
     JSON_parse := JSON_parse lib;
     JSON_parse_packages := fun text =>
       if String.eqb text "workspace" then Some nothing_to_release else None |}.

(** Options for [changePackageOptions]. *)
Definition options : Options :=
  [(KVersion, Some "9.9.9"); (KGitHead, Some "deadbeef")].

Definition after_first_call : State :=
  Eval vm_compute in
    (run_task world_ok 2 (changePackageOptions pkgA options) (initial disk0)).2.

End Corner.

(** * Reasoning about tasks and the scheduler *)

Lemma evolves_refl P Q s : evolves P Q s s.
Proof.
  split; exists []; simpl; by rewrite ?app_nil_r.
Qed.

Lemma evolves_trans P Q s1 s2 s3 :
  evolves P Q s1 s2 → evolves P Q s2 s3 → evolves P Q s1 s3.
Proof.
  intros [(e1 & He1 & Hp1) (k1 & Hk1 & Hq1)] [(e2 & He2 & Hp2) (k2 & Hk2 & Hq2)].
  split.
  - exists (e1 ++ e2). rewrite He2, He1, app_assoc. split; [done|].
    by apply Forall_app.
  - exists (k1 ++ k2). rewrite Hk2, Hk1, foldl_app. split; [done|].
    by apply Forall_app.
Qed.

Lemma evolves_mono (P P' : Event → Prop) (Q Q' : string → Pkg → Prop) s s' :
  (∀ ev, P ev → P' ev) → (∀ k v, Q k v → Q' k v) →
  evolves P Q s s' → evolves P' Q' s s'.
Proof.
  intros HP HQ [(e & He & Hp) (k & Hk & Hq)]. split.
  - exists e. split; [done|]. eapply Forall_impl; eauto.
  - exists k. split; [done|]. eapply Forall_impl; eauto.
Qed.

Lemma evolves_log (P : Event → Prop) Q ev s : P ev → evolves P Q s (log ev s).
Proof.
  intros HP. split; [exists [ev] | exists []]; simpl; split; auto.
Qed.

Lemma evolves_write P Q fname data s : evolves P Q s (write fname data s).
Proof.
  split; exists []; simpl; by rewrite ?app_nil_r.
Qed.

Lemma evolves_set (P : Event → Prop) (Q : string → Pkg → Prop) key value s :
  Q key value → evolves P Q s (set_candidate key value s).
Proof.
  intros HQ. split; [exists [] | exists [(key, value)]]; simpl; split; auto.
  by rewrite app_nil_r.
Qed.

Lemma emits_mono {A} (P P' : Event → Prop) (Q Q' : string → Pkg → Prop) (t : Async A) :
  (∀ ev, P ev → P' ev) → (∀ k v, Q k v → Q' k v) →
  emits P Q t → emits P' Q' t.
Proof.
  intros HP HQ. induction t as [| | ? ? ? IH | ? ? ? IH | ? ? IH | ? ? ? IH];
    simpl; intuition auto.
Qed.

Lemma emits_susp_mono {A} (P P' : Event → Prop) (Q Q' : string → Pkg → Prop) (t : Async A) :
  (∀ ev, P ev → P' ev) → (∀ k v, Q k v → Q' k v) →
  emits_susp P Q t → emits_susp P' Q' t.
Proof.
  intros HP HQ H. destruct t; try (by eapply emits_mono).
  intros r. by eapply emits_mono.
Qed.

Lemma emits_bind {A B} P Q (t : Async A) (f : A → Async B) :
  emits P Q t → (∀ a, emits P Q (f a)) → emits P Q (t ≫= f).
Proof.
  intros Ht Hf. unfold mbind, Async_bind.
  induction t as [| | ? ? ? IH | ? ? ? IH | ? ? IH | ? ? ? IH];
    simpl in *; intuition auto.
Qed.

Lemma advance_spec {A} P Q (t : Async A) s t' s' :
  emits P Q t → advance t s = (t', s') →
  emits_susp P Q t' ∧ evolves P Q s s'.
Proof.
  revert s. induction t as [| | key value k IH | | |]; simpl; intros s Ht Heq;
    try (injection Heq as <- <-; split; [by simpl | apply evolves_refl]).
  - destruct Ht as [HQ Hk]. destruct (IH _ Hk Heq) as [? ?]. split; [done|].
    eapply evolves_trans; [by apply evolves_set | done].
  - injection Heq as <- <-. destruct Ht as [HP Hk]. split; [done|].
    by apply evolves_log.
Qed.

Lemma Forall_filter_keep {A} (P Q : A → Prop) `{∀ x, Decision (Q x)} (l : list A) :
  Forall P l → Forall P (filter Q l).
Proof. rewrite !Forall_forall. intros Hl x [_ ?]%list_elem_of_filter. auto. Qed.

Section SchedulerFacts.
Context (w : World).

Lemma resume_spec {A} P Q (t : Async A) s t' s' :
  emits_susp P Q t → resume w t s = (t', s') →
  emits_susp P Q t' ∧ evolves P Q s s'.
Proof.
  destruct t as [| | key value k | c a k | f k | f d k]; simpl; intros Ht Heq.
  - injection Heq as <- <-. split; [done | apply evolves_refl].
  - injection Heq as <- <-. split; [done | apply evolves_refl].
  - eapply (advance_spec P Q (MapSet key value k)); eauto.
  - eapply advance_spec; eauto.
  - destruct Ht as [HP Hk]. eapply advance_spec in Heq as [? ?]; [|by apply Hk].
    split; [done|]. eapply evolves_trans; [by apply evolves_log | done].
  - destruct Ht as [HP Hk]. destruct (write_ok w f d).
    + eapply advance_spec in Heq as [? ?]; [|by apply Hk]. split; [done|].
      eapply evolves_trans; [apply evolves_write|].
      eapply evolves_trans; [by apply evolves_log | done].
    + eapply advance_spec in Heq as [? ?]; [|by apply Hk]. split; [done|].
      eapply evolves_trans; [by apply evolves_log | done].
Qed.

Lemma resume_nth_spec P Q n (ts : list Task) s ts' s' :
  Forall (emits_susp P Q) ts → resume_nth w n ts s = (ts', s') →
  Forall (emits_susp P Q) ts' ∧ evolves P Q s s'.
Proof.
  revert n s ts' s'. induction ts as [|t ts IH]; simpl; intros n s ts' s' Hts Heq.
  - injection Heq as <- <-. split; [done | apply evolves_refl].
  - apply Forall_cons in Hts as [Ht Hts]. destruct (pending t).
    + destruct n as [|n].
      * destruct (resume w t s) as [t1 s1] eqn:Hr. injection Heq as <- <-.
        apply (resume_spec P Q) in Hr as [? ?]; [|done]. split; [|done].
        by constructor.
      * destruct (resume_nth w n ts s) as [ts1 s1] eqn:Hr. injection Heq as <- <-.
        apply IH in Hr as [? ?]; [|done]. split; [|done]. by constructor.
    + destruct (resume_nth w n ts s) as [ts1 s1] eqn:Hr. injection Heq as <- <-.
      apply IH in Hr as [? ?]; [|done]. split; [|done]. by constructor.
Qed.

Lemma start_all_spec P Q (ts : list Task) s ts' s' :
  Forall (emits P Q) ts → start_all ts s = (ts', s') →
  Forall (emits_susp P Q) ts' ∧ evolves P Q s s'.
Proof.
  revert s ts' s'. induction ts as [|t ts IH]; simpl; intros s ts' s' Hts Heq.
  - injection Heq as <- <-. split; [done | apply evolves_refl].
  - apply Forall_cons in Hts as [Ht Hts].
    destruct (advance t s) as [t1 s1] eqn:Ha.
    destruct (start_all ts s1) as [ts2 s2] eqn:Hs. injection Heq as <- <-.
    apply (advance_spec P Q) in Ha as [? ?]; [|done].
    apply IH in Hs as [? ?]; [|done]. split; [by constructor|].
    by eapply evolves_trans.
Qed.

(** A fan-out keeps the tasks in flight within [P] and [Q]. *)
Lemma all_loop_spec P Q (fg : list Task) sched c r sched' c' :
  Forall (emits_susp P Q) fg → Forall (emits_susp P Q) (bg c) →
  all_loop w fg sched c = Some (r, sched', c') →
  Forall (emits_susp P Q) (bg c') ∧ evolves P Q (st c) (st c').
Proof.
  revert fg c. induction sched as [|n sched IH]; intros fg c Hfg Hbg; simpl.
  - destruct (first_rejection fg).
    + intros [= <- <- <-]. simpl. split; [|apply evolves_refl].
      apply Forall_app. split; [done|]. by apply Forall_filter_keep.
    + destruct (forallb fulfilled fg); [|done].
      intros [= <- <- <-]. split; [done | apply evolves_refl].
  - destruct (first_rejection fg).
    + intros [= <- <- <-]. simpl. split; [|apply evolves_refl].
      apply Forall_app. split; [done|]. by apply Forall_filter_keep.
    + destruct (forallb fulfilled fg).
      { intros [= <- <- <-]. split; [done | apply evolves_refl]. }
      case_match.
      * destruct (resume_nth w _ fg (st c)) as [fg1 s1] eqn:Hr.
        apply (resume_nth_spec P Q) in Hr as [? ?]; [|done].
        intros Hl. apply IH in Hl as [? ?]; [|done..]. split; [done|].
        by eapply evolves_trans.
      * destruct (resume_nth w _ (bg c) (st c)) as [bg1 s1] eqn:Hr.
        apply (resume_nth_spec P Q) in Hr as [? ?]; [|done].
        intros Hl. apply IH in Hl as [? ?]; [|done..]. split; [done|].
        by eapply evolves_trans.
Qed.

Lemma Promise_all_spec P Q (ts : list Task) sched c r sched' c' :
  Forall (emits P Q) ts → Forall (emits_susp P Q) (bg c) →
  Promise_all w ts sched c = Some (r, sched', c') →
  Forall (emits_susp P Q) (bg c') ∧ evolves P Q (st c) (st c').
Proof.
  unfold Promise_all. intros Hts Hbg.
  destruct (start_all ts (st c)) as [fg s0] eqn:Hs.
  apply (start_all_spec P Q) in Hs as [? ?]; [|done].
  intros Hl. apply (all_loop_spec P Q) in Hl as [? ?]; [|done..].
  split; [done|]. by eapply evolves_trans.
Qed.

End SchedulerFacts.

(** ** The main flow *)

Lemma M_bind_inv {A B} (m : M A) (f : A → M B) sched c r sched' c' :
  (m ≫= f) sched c = Some (r, sched', c') →
  (∃ a sched1 c1, m sched c = Some (Ok a, sched1, c1) ∧ f a sched1 c1 = Some (r, sched', c'))
  ∨ (∃ e, m sched c = Some (Err e, sched', c') ∧ r = Err e).
Proof.
  unfold mbind, M_bind. destruct (m sched c) as [[[[a|e] sched1] c1]|]; [| |done].
  - intros Hf. left. eauto.
  - intros [= <- <- <-]. right. eauto.
Qed.

Lemma try_finally_inv {A} (body : M A) (fin : M unit) sched c r sched' c' :
  try_finally body fin sched c = Some (r, sched', c') →
  ∃ r1 sched1 c1 r2,
    body sched c = Some (r1, sched1, c1)
    ∧ fin sched1 c1 = Some (r2, sched', c')
    ∧ r = finally_result r1 r2.
Proof.
  unfold try_finally. destruct (body sched c) as [[[r1 sched1] c1]|]; [|done].
  destruct (fin sched1 c1) as [[[[[]|e] sched2] c2]|] eqn:Hfin; [| |done].
  - intros [= <- <- <-]. exists r1, sched1, c1, (Ok tt). eauto.
  - intros [= <- <- <-]. exists r1, sched1, c1, (Err e). eauto.
Qed.

Section MainFacts.
Context (w : World).

Lemma await_loop_settled {A} (t : Async A) res sched c :
  settle t = Some res → await_loop w t sched c = Some (res, sched, c).
Proof. destruct t, sched; simpl; intros [= <-]; done. Qed.

Lemma await_loop_cons {A} (t : Async A) n sched c :
  pending t = true →
  await_loop w t (n :: sched) c
  = match (n `mod` S (count_pending (bg c)))%nat with
    | O =>
        let '(t', s') := resume w t (st c) in
        await_loop w t' sched {| st := s'; bg := bg c |}
    | S i =>
        let '(bg', s') := resume_nth w i (bg c) (st c) in
        await_loop w t sched {| st := s'; bg := bg' |}
    end.
Proof. by destruct t. Qed.

(** Awaiting a single command while nothing else is in flight. *)
Lemma await_spawn {A} command args (k : SpawnResult → Async A) sched s res :
  settle (k (spawn_out w command args)) = Some res →
  await w (AwaitExec command args k) sched {| st := s; bg := [] |}
  = match sched with
    | [] => None
    | _ :: sched' =>
        Some (res, sched', {| st := log (EvSpawn command args) s; bg := [] |})
    end.
Proof.
  intros Hres. unfold await. cbn [advance]. destruct sched as [|n sched]; [done|].
  rewrite await_loop_cons by done. cbn [bg st resume].
  change (count_pending []) with 0%nat. rewrite Nat.mod_1_r.
  assert (advance (k (spawn_out w command args)) (log (EvSpawn command args) s)
          = (k (spawn_out w command args), log (EvSpawn command args) s)) as ->.
  { destruct (k (spawn_out w command args)); simpl in *; done. }
  by apply await_loop_settled.
Qed.

Lemma await_exec command args options sched s :
  await w (exec command args options) sched {| st := s; bg := [] |}
  = match sched with
    | [] => None
    | _ :: sched' =>
        Some (Ok {| code := code_of w command args;
                    stdout := if opt_stdout_pipe options then ""
                              else out (spawn_out w command args);
                    stderr := if opt_stderr_pipe options then ""
                              else err (spawn_out w command args) |},
              sched', {| st := log (EvSpawn command args) s; bg := [] |})
    end.
Proof. unfold exec. by erewrite await_spawn. Qed.

Lemma await_execPipe command args sched s :
  await w (execPipe command args) sched {| st := s; bg := [] |}
  = match sched with
    | [] => None
    | _ :: sched' =>
        Some (if code_of w command args =? 0 then Ok tt
              else Err (JsError (command +:+ " command failed")),
              sched', {| st := log (EvSpawn command args) s; bg := [] |})
    end.
Proof.
  unfold execPipe, exec, mbind, Async_bind. simpl.
  erewrite await_spawn; [done|]. simpl. unfold code_of.
  by destruct (_ =? 0).
Qed.

Lemma await_npm {A} (parse : string → option A) args sched s :
  await w (npm parse args no_options) sched {| st := s; bg := [] |}
  = match sched with
    | [] => None
    | _ :: sched' =>
        Some (if negb (code_of w "npm" (args ++ ["--json"]) =? 0)
              then Err (JsError ("npm command failed:" +:+ newline
                                 +:+ err (spawn_out w "npm" (args ++ ["--json"]))))
              else match parse (out (spawn_out w "npm" (args ++ ["--json"]))) with
                   | Some json => Ok json
                   | None => Err SyntaxError
                   end,
              sched', {| st := log (EvSpawn "npm" (args ++ ["--json"])) s; bg := [] |})
    end.
Proof.
  unfold npm, exec, mbind, Async_bind. simpl.
  erewrite await_spawn; [done|]. simpl. unfold code_of.
  destruct (negb _); [done|]. by destruct (parse _).
Qed.

Lemma resume_nth_nil n s : resume_nth w n [] s = ([], s).
Proof. done. Qed.

(** A fan-out that is fulfilled leaves nothing in flight, if nothing was. *)
Lemma all_loop_Ok_bg fg sched c sched' c' :
  bg c = [] → all_loop w fg sched c = Some (Ok tt, sched', c') → bg c' = [].
Proof.
  revert fg c. induction sched as [|n sched IH]; intros fg c Hbg; simpl.
  - destruct (first_rejection fg); [done|].
    destruct (forallb fulfilled fg); [|done]. by intros [= <- <-].
  - destruct (first_rejection fg); [done|].
    destruct (forallb fulfilled fg); [by intros [= <- <-]|].
    case_match.
    + destruct (resume_nth w _ fg (st c)) as [fg1 s1]. by apply IH.
    + rewrite Hbg. simpl. by apply IH.
Qed.

(** ** Tasks that are bound to set a key or to throw *)

Lemma Map_set_keys_mono key value (m : list (string * Pkg)) k :
  k ∈ m.*1 → k ∈ (Map_set key value m).*1.
Proof.
  induction m as [|[k0 v0] m IH]; simpl; [by intros ?%elem_of_nil|].
  destruct (String.eqb k0 key); simpl; [done|].
  rewrite !elem_of_cons. intuition.
Qed.

Lemma Map_set_keys_elem key value (m : list (string * Pkg)) :
  key ∈ (Map_set key value m).*1.
Proof.
  induction m as [|[k0 v0] m IH]; simpl; [apply list_elem_of_here|].
  destruct (String.eqb_spec k0 key) as [->|]; simpl.
  - apply list_elem_of_here.
  - by apply list_elem_of_further.
Qed.

Lemma advance_keys_mono {A} (t : Async A) s t' s' k :
  advance t s = (t', s') →
  k ∈ (packagesToRelease s).*1 → k ∈ (packagesToRelease s').*1.
Proof.
  revert s. induction t; simpl; intros s Heq Hk; try by injection Heq as <- <-.
  eapply IHt; [done|]. simpl. by apply Map_set_keys_mono.
Qed.

Lemma resume_keys_mono {A} (t : Async A) s t' s' k :
  resume w t s = (t', s') →
  k ∈ (packagesToRelease s).*1 → k ∈ (packagesToRelease s').*1.
Proof.
  destruct t; simpl; intros Heq Hk; try by injection Heq as <- <-.
  - eapply advance_keys_mono; [done|]. simpl. by apply Map_set_keys_mono.
  - by eapply advance_keys_mono.
  - by eapply advance_keys_mono.
  - destruct (write_ok w fname data); by eapply advance_keys_mono.
Qed.

Lemma advance_owes {A} φ (t : Async A) s t' s' :
  advance t s = (t', s') → owes w φ s t → owes w φ s' t'.
Proof.
  revert s. induction t; simpl; intros s Heq Ho; try by injection Heq as <- <-.
  eapply IHt; [done|]. destruct Ho as [[Hφ|Hw]|(k & Hk & Hφ)].
  - right. exists key. split; [|done]. simpl. apply Map_set_keys_elem.
  - by left.
  - right. exists k. split; [|done]. simpl. by apply Map_set_keys_mono.
Qed.

Lemma owes_mono {A} φ (t : Async A) s s' :
  (∀ k, k ∈ (packagesToRelease s).*1 → k ∈ (packagesToRelease s').*1) →
  owes w φ s t → owes w φ s' t.
Proof. intros Hm [?|(k & ? & ?)]; [by left|]. right. eauto. Qed.

Lemma resume_owes {A} φ (t : Async A) s t' s' :
  resume w t s = (t', s') → owes w φ s t → owes w φ s' t'.
Proof.
  destruct t; simpl; intros Heq Ho.
  - by injection Heq as <- <-.
  - by injection Heq as <- <-.
  - eapply (advance_owes φ (MapSet key value t)); eauto.
  - eapply advance_owes; [done|]. destruct Ho as [?|?]; [by left|by right].
  - eapply advance_owes; [done|]. destruct Ho as [Hw|?]; [left; apply Hw|by right].
  - unfold owes in Ho. simpl in Ho.
    destruct (write_ok w fname data) eqn:Hok;
      (eapply advance_owes; [done|]); (destruct Ho as [?|?]; [by left|by right]).
Qed.

Lemma resume_nth_keys_mono n (ts : list Task) s ts' s' k :
  resume_nth w n ts s = (ts', s') →
  k ∈ (packagesToRelease s).*1 → k ∈ (packagesToRelease s').*1.
Proof.
  revert n s ts' s'. induction ts as [|t ts IH]; simpl; intros n s ts' s' Heq Hk.
  - by injection Heq as <- <-.
  - destruct (pending t); [destruct n|].
    + destruct (resume w t s) as [t1 s1] eqn:Hr. injection Heq as <- <-.
      by eapply resume_keys_mono.
    + destruct (resume_nth w n ts s) as [ts1 s1] eqn:Hr. injection Heq as <- <-.
      by eapply IH.
    + destruct (resume_nth w n ts s) as [ts1 s1] eqn:Hr. injection Heq as <- <-.
      by eapply IH.
Qed.

Lemma resume_nth_owes φ n (ts : list Task) s ts' s' :
  resume_nth w n ts s = (ts', s') →
  Exists (owes w φ s) ts → Exists (owes w φ s') ts'.
Proof.
  revert n s ts' s'. induction ts as [|t ts IH]; simpl; intros n s ts' s' Heq Hts.
  - by apply Exists_nil in Hts.
  - apply Exists_cons in Hts. destruct (pending t); [destruct n|].
    + destruct (resume w t s) as [t1 s1] eqn:Hr. injection Heq as <- <-.
      apply Exists_cons. destruct Hts as [Ht|Hts].
      * left. by eapply resume_owes.
      * right. eapply Exists_impl; [done|]. intros t0. apply owes_mono.
        intros k. by eapply resume_keys_mono.
    + destruct (resume_nth w n ts s) as [ts1 s1] eqn:Hr. injection Heq as <- <-.
      apply Exists_cons. destruct Hts as [Ht|Hts].
      * left. eapply owes_mono; [|done]. intros k. by eapply resume_nth_keys_mono.
      * right. by eapply IH.
    + destruct (resume_nth w n ts s) as [ts1 s1] eqn:Hr. injection Heq as <- <-.
      apply Exists_cons. destruct Hts as [Ht|Hts].
      * left. eapply owes_mono; [|done]. intros k. by eapply resume_nth_keys_mono.
      * right. by eapply IH.
Qed.

Lemma start_all_keys_mono (ts : list Task) s ts' s' k :
  start_all ts s = (ts', s') →
  k ∈ (packagesToRelease s).*1 → k ∈ (packagesToRelease s').*1.
Proof.
  revert s ts' s'. induction ts as [|t ts IH]; simpl; intros s ts' s' Heq Hk.
  - by injection Heq as <- <-.
  - destruct (advance t s) as [t1 s1] eqn:Ha.
    destruct (start_all ts s1) as [ts2 s2] eqn:Hs. injection Heq as <- <-.
    eapply IH; [done|]. by eapply advance_keys_mono.
Qed.

Lemma start_all_owes φ (ts : list Task) s ts' s' :
  start_all ts s = (ts', s') →
  Exists (will_set w φ) ts → Exists (owes w φ s') ts'.
Proof.
  revert s ts' s'. induction ts as [|t ts IH]; simpl; intros s ts' s' Heq Hts.
  - by apply Exists_nil in Hts.
  - destruct (advance t s) as [t1 s1] eqn:Ha.
    destruct (start_all ts s1) as [ts2 s2] eqn:Hs. injection Heq as <- <-.
    apply Exists_cons. apply Exists_cons in Hts as [Ht|Hts].
    + left. eapply owes_mono; [intros k; by eapply start_all_keys_mono|].
      eapply advance_owes; [done|]. by left.
    + right. by eapply IH.
Qed.

Lemma fulfilled_owes φ (ts : list Task) s :
  forallb fulfilled ts = true → Exists (owes w φ s) ts →
  ∃ k, k ∈ (packagesToRelease s).*1 ∧ φ k.
Proof.
  intros Hf He. apply Exists_exists in He as (t & Ht & Ho).
  rewrite forallb_forall in Hf. apply list_elem_of_In, Hf in Ht.
  destruct t; try done. by destruct Ho as [[]|?].
Qed.

Lemma all_loop_Ok_owes φ fg sched c sched' c' :
  all_loop w fg sched c = Some (Ok tt, sched', c') →
  Exists (owes w φ (st c)) fg →
  ∃ k, k ∈ (packagesToRelease (st c')).*1 ∧ φ k.
Proof.
  revert fg c. induction sched as [|n sched IH]; intros fg c; simpl.
  - destruct (first_rejection fg); [done|].
    destruct (forallb fulfilled fg) eqn:Hf; [|done]. intros [= <- <-].
    by apply fulfilled_owes.
  - destruct (first_rejection fg); [done|].
    destruct (forallb fulfilled fg) eqn:Hf.
    { intros [= <- <-]. by apply fulfilled_owes. }
    case_match.
    + destruct (resume_nth w _ fg (st c)) as [fg1 s1] eqn:Hr.
      intros Hl Ho. eapply IH; [done|]. simpl. by eapply resume_nth_owes.
    + destruct (resume_nth w _ (bg c) (st c)) as [bg1 s1] eqn:Hr.
      intros Hl Ho. eapply IH; [done|]. simpl.
      eapply Exists_impl; [done|]. intros t0. apply owes_mono.
      intros k. by eapply resume_nth_keys_mono.
Qed.

(** A fan-out is fulfilled only when each of its tasks has done what it
    was bound to do. *)
Lemma Promise_all_Ok_owes φ (ts : list Task) t sched c sched' c' :
  Promise_all w ts sched c = Some (Ok tt, sched', c') →
  t ∈ ts → will_set w φ t →
  ∃ k, k ∈ (packagesToRelease (st c')).*1 ∧ φ k.
Proof.
  unfold Promise_all. destruct (start_all ts (st c)) as [fg s0] eqn:Hs.
  intros Hl Ht Hw. eapply all_loop_Ok_owes; [done|]. simpl.
  eapply start_all_owes; [done|]. apply Exists_exists. eauto.
Qed.

Lemma Promise_all_Ok_bg (ts : list Task) sched c sched' c' :
  bg c = [] → Promise_all w ts sched c = Some (Ok tt, sched', c') → bg c' = [].
Proof.
  unfold Promise_all. destruct (start_all ts (st c)) as [fg s0] eqn:Hs.
  intros Hbg Hl. by eapply all_loop_Ok_bg in Hl.
Qed.

End MainFacts.

(** ** Which errors a fan-out can reject with *)

Lemma throws_bind {A B} E (t : Async A) (f : A → Async B) :
  throws E t → (∀ a, throws E (f a)) → throws E (t ≫= f).
Proof.
  intros Ht Hf. unfold mbind, Async_bind.
  induction t; simpl in *; intuition auto.
Qed.

Lemma advance_throws {A} E (t : Async A) s t' s' :
  advance t s = (t', s') → throws E t → throws E t'.
Proof.
  revert s. induction t; simpl; intros s Heq Ht; try by injection Heq as <- <-.
  by eapply IHt.
Qed.

Section ThrowFacts.
Context (w : World).

Lemma resume_throws {A} E (t : Async A) s t' s' :
  resume w t s = (t', s') → throws E t → throws E t'.
Proof.
  destruct t; simpl; intros Heq Ht; try by injection Heq as <- <-.
  - by eapply advance_throws.
  - eapply advance_throws; [done|]. apply Ht.
  - eapply advance_throws; [done|]. apply Ht.
  - destruct (write_ok w fname data); (eapply advance_throws; [done|]); apply Ht.
Qed.

Lemma resume_nth_throws E n (ts : list Task) s ts' s' :
  resume_nth w n ts s = (ts', s') → Forall (throws E) ts → Forall (throws E) ts'.
Proof.
  revert n s ts' s'. induction ts as [|t ts IH]; simpl; intros n s ts' s' Heq Hts.
  - by injection Heq as <- <-.
  - apply Forall_cons in Hts as [Ht Hts]. destruct (pending t); [destruct n|].
    + destruct (resume w t s) as [t1 s1] eqn:Hr. injection Heq as <- <-.
      constructor; [by eapply resume_throws | done].
    + destruct (resume_nth w n ts s) as [ts1 s1] eqn:Hr. injection Heq as <- <-.
      constructor; [done | by eapply IH].
    + destruct (resume_nth w n ts s) as [ts1 s1] eqn:Hr. injection Heq as <- <-.
      constructor; [done | by eapply IH].
Qed.

Lemma start_all_throws E (ts : list Task) s ts' s' :
  start_all ts s = (ts', s') → Forall (throws E) ts → Forall (throws E) ts'.
Proof.
  revert s ts' s'. induction ts as [|t ts IH]; simpl; intros s ts' s' Heq Hts.
  - by injection Heq as <- <-.
  - apply Forall_cons in Hts as [Ht Hts].
    destruct (advance t s) as [t1 s1] eqn:Ha.
    destruct (start_all ts s1) as [ts2 s2] eqn:Hs. injection Heq as <- <-.
    constructor; [by eapply advance_throws | by eapply IH].
Qed.

Lemma first_rejection_throws E (ts : list Task) e :
  first_rejection ts = Some e → Forall (throws E) ts → E e.
Proof.
  induction ts as [|t ts IH]; simpl; [done|]. intros Hf Hts.
  apply Forall_cons in Hts as [Ht Hts].
  destruct t; simpl in *; simplify_eq; auto.
Qed.

Lemma all_loop_Err E fg sched c e sched' c' :
  all_loop w fg sched c = Some (Err e, sched', c') → Forall (throws E) fg → E e.
Proof.
  revert fg c. induction sched as [|n sched IH]; intros fg c; simpl.
  - destruct (first_rejection fg) eqn:Hf.
    + intros [= <- <- <-]. by eapply first_rejection_throws.
    + by destruct (forallb fulfilled fg).
  - destruct (first_rejection fg) eqn:Hf.
    + intros [= <- <- <-]. by eapply first_rejection_throws.
    + destruct (forallb fulfilled fg); [done|]. case_match.
      * destruct (resume_nth w _ fg (st c)) as [fg1 s1] eqn:Hr.
        intros Hl Hfg. eapply IH; [done|]. by eapply resume_nth_throws.
      * destruct (resume_nth w _ (bg c) (st c)) as [bg1 s1] eqn:Hr.
        intros Hl Hfg. by eapply IH.
Qed.

Lemma Promise_all_Err E (ts : list Task) sched c e sched' c' :
  Promise_all w ts sched c = Some (Err e, sched', c') → Forall (throws E) ts → E e.
Proof.
  unfold Promise_all. destruct (start_all ts (st c)) as [fg s0] eqn:Hs.
  intros Hl Hts. eapply all_loop_Err; [done|]. by eapply start_all_throws.
Qed.

End ThrowFacts.

(** ** The tasks of the script *)

Lemma changePackageOptions_emits packages pkg optionsNew :
  pkg ∈ packages →
  emits (file_event packages) no_entry (changePackageOptions pkg optionsNew).
Proof.
  intros Hin. unfold changePackageOptions, readFile, writeFile, mbind, Async_bind.
  simpl. split; [by constructor|]. intros [m|]; simpl; [|done].
  destruct (findIndex _ _); simpl; [|done].
  split; [intros ok; by constructor|]. by intros [].
Qed.

Lemma changePackageOptions_throws pkg optionsNew :
  throws is_fs_error (changePackageOptions pkg optionsNew).
Proof.
  unfold changePackageOptions, readFile, writeFile, mbind, Async_bind.
  simpl. intros [m|]; simpl; [|by eexists].
  destruct (findIndex _ _); simpl; [|done]. intros []; simpl; [done|by eexists].
Qed.

Lemma restore_emits packages pkg :
  pkg ∈ packages → emits (file_event packages) no_entry (restore pkg).
Proof.
  intros Hin. unfold restore. apply emits_bind; [|done].
  by apply changePackageOptions_emits.
Qed.

Lemma restore_throws pkg : throws is_fs_error (restore pkg).
Proof.
  unfold restore. apply throws_bind; [|done]. apply changePackageOptions_throws.
Qed.

Lemma check_online_emits lib packages pkg vnew :
  pkg ∈ packages →
  emits (worker_event packages) (candidate_of packages) (check_online lib pkg vnew).
Proof.
  intros Hin. unfold check_online, exec, mbind, Async_bind. simpl.
  split; [by constructor|]. intros r. destruct (negb _); simpl; [|done].
  destruct (JSON_parse lib _); simpl; [|done].
  destruct (strict_ne_string _ _); simpl; [done|].
  split; [|done]. split; [done|]. by exists vnew.
Qed.

Lemma bump_emits lib packages gitVersion gitHead pkg :
  pkg ∈ packages →
  emits (worker_event packages) (candidate_of packages)
    (bump lib gitVersion gitHead pkg).
Proof.
  intros Hin. unfold bump.
  destruct (semver_inc lib _ _ _ _) as [vnew|]; [|done].
  destruct (negb _); [|done].
  apply emits_bind; [|intros _; by apply check_online_emits].
  eapply emits_mono; [| |by apply changePackageOptions_emits]; [by constructor|done].
Qed.

Lemma execPipe_throws command args :
  throws (fun e => e = JsError (command +:+ " command failed")) (execPipe command args).
Proof.
  unfold execPipe, exec, mbind, Async_bind. simpl. intros r. by destruct (_ =? 0).
Qed.

(** ** The phases of the script *)

Lemma evolves_none s s' :
  evolves no_event no_entry s s' →
  trace s' = trace s ∧ packagesToRelease s' = packagesToRelease s.
Proof.
  intros [(evs & He & Hp) (kvs & Hk & Hq)].
  destruct evs as [|ev evs]; [|by apply Forall_cons in Hp as [[] _]].
  destruct kvs as [|kv kvs]; [|by apply Forall_cons in Hq as [[] _]].
  by rewrite He, Hk, app_nil_r.
Qed.

Lemma evolves_entries P Q s s' :
  evolves P no_entry s s' → evolves P Q s s'.
Proof. apply evolves_mono; [done|]. by intros ?? []. Qed.

Lemma emits_susp_none {A} P Q (t : Async A) :
  emits_susp no_event no_entry t → emits_susp P Q t.
Proof. apply emits_susp_mono; [by intros ? []|by intros ?? []]. Qed.

Lemma advance_execPipe command args s :
  advance (execPipe command args) s
  = (execPipe command args, log (EvSpawn command args) s).
Proof. done. Qed.

Lemma start_all_dist_tag (keys : list string) s :
  ∃ fg,
    start_all ((fun key => execPipe "npm" (dist_tag_args key)) <$> keys) s
    = (fg, {| disk := disk s; packagesToRelease := packagesToRelease s;
              trace := trace s ++ (ev_dist_tag <$> keys) |})
    ∧ Forall (emits_susp no_event no_entry) fg
    ∧ Forall (throws (fun e => e = npm_failed)) fg.
Proof.
  revert s. induction keys as [|key keys IH]; intros s.
  - exists []. simpl. rewrite app_nil_r. by destruct s.
  - rewrite fmap_cons. cbn [start_all]. rewrite advance_execPipe.
    destruct (IH (log (EvSpawn "npm" (dist_tag_args key)) s)) as (fg & -> & Hfg & Hth).
    eexists. split; [|split].
    + simpl. by rewrite <-app_assoc.
    + constructor; [|done]. simpl. intros r. by destruct (_ =? 0).
    + constructor; [|done]. simpl. intros r. by destruct (_ =? 0).
Qed.

Section Phases.
Context (lib : Lib) (w : World).

(** Tag promotion: the calls are spawned in the order of the list; what
    remains in flight afterwards causes no further event. *)
Lemma tag_phase (keys : list string) sched c r sched' c' :
  bg c = [] →
  Promise_all w ((fun key => execPipe "npm" (dist_tag_args key)) <$> keys) sched c
  = Some (r, sched', c') →
  trace (st c') = trace (st c) ++ (ev_dist_tag <$> keys)
  ∧ packagesToRelease (st c') = packagesToRelease (st c)
  ∧ Forall (emits_susp no_event no_entry) (bg c')
  ∧ (r = Ok tt ∨ r = Err npm_failed).
Proof.
  intros Hbg. unfold Promise_all.
  destruct (start_all_dist_tag keys (st c)) as (fg & -> & Hfg & Hth).
  intros Hl.
  pose proof Hl as Hl'.
  apply (all_loop_spec w no_event no_entry) in Hl as [Hbg' Hev]; simpl;
    [|done|by rewrite Hbg].
  apply evolves_none in Hev as [-> ->]. simpl. repeat split; [done|].
  destruct r as [[]|e]; [by left|right].
  by apply (all_loop_Err w (fun e => e = npm_failed)) in Hl' as ->.
Qed.

(** Restore: manifest accesses only, and only a failed access makes it
    fail. *)
Lemma restore_phase (P : Event → Prop) Q packages sched c r sched' c' :
  (∀ ev, file_event packages ev → P ev) →
  Forall (emits_susp P Q) (bg c) →
  Promise_all w (restore <$> packages) sched c = Some (r, sched', c') →
  evolves P Q (st c) (st c') ∧ (∀ e, r = Err e → is_fs_error e).
Proof.
  intros HP Hbg Hl. split.
  - eapply Promise_all_spec in Hl as [_ ?]; [done| |done].
    apply Forall_fmap, Forall_forall. intros pkg Hin.
    change (emits P Q (restore pkg)).
    eapply emits_mono; [done| |by apply restore_emits]. by intros ?? [].
  - intros e ->. eapply (Promise_all_Err w is_fs_error) in Hl; [done|].
    apply Forall_fmap, Forall_forall. intros pkg _. apply restore_throws.
Qed.

(** The [ci] case. *)
Lemma ci_spec packages gitVersion gitHead sched c r sched' c' :
  bg c = [] →
  ci lib w packages gitVersion gitHead sched c = Some (r, sched', c') →
  ∃ s1,
    evolves (worker_event packages) (candidate_of packages) (st c) s1
    ∧ (((∃ e, r = Err e) ∧ st c' = s1
        ∧ Forall (emits_susp (worker_event packages) (candidate_of packages)) (bg c'))
       ∨ (bg c' = []
          ∧ (∀ pkg φ, pkg ∈ packages →
               will_set w φ (bump lib gitVersion gitHead pkg) →
               ∃ k, k ∈ (packagesToRelease s1).*1 ∧ φ k)
          ∧ ((code_of w "npm" ["run"; "prepublishOnly"] ≠ 0
              ∧ r = Err npm_failed ∧ st c' = log ev_prepublish s1)
             ∨ (code_of w "npm" ["run"; "prepublishOnly"] = 0
                ∧ r = publish_result w packages
                ∧ st c' = published packages s1)))).
Proof.
  intros Hbg Hci. unfold ci in Hci.
  assert (Forall (emits (worker_event packages) (candidate_of packages))
            (bump lib gitVersion gitHead <$> packages)) as Hem.
  { apply Forall_fmap, Forall_forall. intros pkg Hin. by apply bump_emits. }
  apply M_bind_inv in Hci as [([] & sched1 & c1 & Hup & Hci)|(e & Hup & ->)].
  - (* the version update was fulfilled *)
    pose proof (Promise_all_Ok_bg w _ _ _ _ _ Hbg Hup) as Hbg1.
    pose proof Hup as Hup'.
    eapply Promise_all_spec in Hup' as [_ Hev]; [|done|by rewrite Hbg].
    exists (st c1). split; [done|]. right.
    assert (∀ pkg φ, pkg ∈ packages →
              will_set w φ (bump lib gitVersion gitHead pkg) →
              ∃ k, k ∈ (packagesToRelease (st c1)).*1 ∧ φ k) as Hob.
    { intros pkg φ Hin Hw. eapply Promise_all_Ok_owes; [done| |done].
      by apply list_elem_of_fmap_2. }
    destruct c1 as [s1 bg1]. simpl in *. subst bg1.
    apply M_bind_inv in Hci as [([] & sched2 & c2 & Hpre & Hci)|(e & Hpre & ->)].
    + rewrite await_execPipe in Hpre. destruct sched1 as [|n1 sched1]; [done|].
      destruct (code_of w "npm" ["run"; "prepublishOnly"] =? 0) eqn:Hc; [|done].
      injection Hpre as <- <-. apply Z.eqb_eq in Hc.
      apply try_finally_inv in Hci as (r1 & sched3 & c3 & r2 & Hpub & Hpost & ->).
      rewrite await_execPipe in Hpub. destruct sched1 as [|n2 sched1]; [done|].
      injection Hpub as <- <- <-.
      rewrite await_execPipe in Hpost. destruct sched1 as [|n3 sched1]; [done|].
      injection Hpost as <- <- <-. simpl.
      split; [done|]. split; [done|]. right. done.
    + rewrite await_execPipe in Hpre. destruct sched1 as [|n1 sched1]; [done|].
      destruct (code_of w "npm" ["run"; "prepublishOnly"] =? 0) eqn:Hc; [done|].
      injection Hpre as <- <- <-. apply Z.eqb_neq in Hc. simpl.
      split; [done|]. split; [done|]. left. done.
  - (* it was rejected *)
    eapply Promise_all_spec in Hup as [Hbg' Hev]; [|done|by rewrite Hbg].
    exists (st c'). split; [done|]. left. eauto.
Qed.

End Phases.

Lemma evolves_proper P Q s1 s2 s' :
  trace s1 = trace s2 → packagesToRelease s1 = packagesToRelease s2 →
  evolves P Q s1 s' → evolves P Q s2 s'.
Proof. unfold evolves. by intros -> ->. Qed.

Lemma npm_result_cases w args :
  npm_result w args = Ok tt ∨ npm_result w args = Err npm_failed.
Proof. unfold npm_result. destruct (_ =? 0); auto. Qed.

Lemma publish_result_cases w packages :
  publish_result w packages = Ok tt ∨ publish_result w packages = Err npm_failed.
Proof.
  unfold publish_result.
  destruct (npm_result_cases w (publish_args packages)) as [->| ->],
    (npm_result_cases w ["run"; "postpublish"]) as [->| ->]; auto.
Qed.

Section Shape.
Context (lib : Lib) (w : World).

(** Every run that comes to its end has one of the shapes of
    [release_shape]. *)
Lemma release_spec type cwd sched c r sched' c' :
  bg c = [] →
  release lib w type cwd sched c = Some (r, sched', c') →
  release_shape lib w type cwd (st c) r (st c').
Proof.
  destruct c as [s0 bg0]. simpl. intros -> Hrel. unfold release in Hrel.
  apply M_bind_inv in Hrel as [(all & sched1 & c1 & Hq & Hrel)|(e & Hq & ->)];
    rewrite await_npm in Hq; (destruct sched as [|n0 sched]; [done|]);
    change (["query"; ".workspace"] ++ ["--json"]) with query_args in Hq;
    injection Hq as Hq <- <-; fold (workspace_query lib w) in Hq;
    [|by constructor].
  apply M_bind_inv in Hrel as [(d & sched2 & c2 & Hd & Hrel)|(e & Hd & ->)];
    rewrite await_exec in Hd; (destruct sched as [|n1 sched]; [done|]);
    [|done].
  injection Hd as <- <- <-. cbn [code stdout stderr no_options opt_stdout_pipe
                                 opt_stderr_pipe] in Hrel.
  fold describe_args in Hrel.
  destruct (code_of w "git" describe_args =? 0) eqn:Hcd; cbn [negb] in Hrel.
  2:{ injection Hrel as <- <- <-. apply Z.eqb_neq in Hcd.
      by eapply shape_describe_failed. }
  apply Z.eqb_eq in Hcd.
  apply M_bind_inv in Hrel as [(p & sched3 & c3 & Hp & Hrel)|(e & Hp & ->)];
    rewrite await_exec in Hp; (destruct sched as [|n2 sched]; [done|]);
    [|done].
  injection Hp as <- <- <-. cbn [code stdout stderr no_options opt_stdout_pipe
                                 opt_stderr_pipe] in Hrel.
  fold rev_parse_args in Hrel.
  destruct (code_of w "git" rev_parse_args =? 0) eqn:Hcp; cbn [negb] in Hrel.
  2:{ injection Hrel as <- <- <-. apply Z.eqb_neq in Hcp.
      by eapply shape_rev_parse_failed. }
  apply Z.eqb_eq in Hcp.
  fold (gitVersion_of w) (gitHead_of w) (discover cwd all) in Hrel.
  change (log (EvSpawn "git" rev_parse_args)
            (log (EvSpawn "git" describe_args) (log (EvSpawn "npm" query_args) s0)))
    with (queried s0) in Hrel.
  set (packages := discover cwd all) in *.
  apply try_finally_inv in Hrel as (r1 & sched4 & c4 & r2 & Hbody & Hfin & ->).
  destruct (decide (type = Some "ci")) as [Hty|Hty].
  - (* case "ci" *)
    apply M_bind_inv in Hbody as [([] & sched5 & c5 & Hci & Htag)|(e & Hci & ->)].
    + (* publish went through: tag promotion *)
      apply ci_spec in Hci as (s1 & Hev & Hcases); [|done]. simpl in Hev.
      destruct Hcases as [([e He] & _)|(Hbg5 & Hob & Hcases)]; [done|].
      destruct Hcases as [(_ & He & _)|(Hpre & Hpub & Hst)]; [done|].
      apply M_bind_inv in Htag as [(keys & sched6 & c6 & Hk & Htag)|(e & Hk & _)];
        [|done].
      injection Hk as <- <- <-.
      apply tag_phase in Htag as (Htr & Hptr & Hbg4 & Hr1); [|done].
      eapply (restore_phase w (file_event packages) no_entry) in Hfin
        as [Hev' Hr2]; [|done|].
      2:{ eapply Forall_impl; [done|]. intros t. apply emits_susp_none. }
      eapply shape_tagged; try done.
      eapply evolves_proper; [| |done]; simpl; by rewrite ?Htr, ?Hptr, Hst.
    + (* the ci case failed *)
      apply ci_spec in Hci as (s1 & Hev & Hcases); [|done]. simpl in Hev.
      destruct Hcases as [(_ & Hst & Hbg4)|(Hbg4 & Hob & Hcases)].
      * eapply (restore_phase w (worker_event packages) (candidate_of packages))
          in Hfin as [Hev' Hr2]; [|by constructor|done].
        assert (∃ e', finally_result (Err e) r2 = Err e') as [e' ->].
        { destruct r2; simpl; eauto. }
        eapply shape_update_rejected; try done.
        eapply evolves_trans; [done|]. by rewrite <-Hst.
      * eapply (restore_phase w (file_event packages) no_entry) in Hfin
          as [Hev' Hr2]; [|done|by rewrite Hbg4].
        destruct Hcases as [(Hpre & [= ->] & Hst)|(Hpre & Hpub & Hst)].
        -- eapply shape_prepublish_failed; try done. by rewrite Hst in Hev'.
        -- destruct (publish_result_cases w packages) as [Hr|Hr];
             rewrite Hr in Hpub; [done|]. injection Hpub as ->.
           eapply shape_publish_failed; try done. by rewrite Hst in Hev'.
  - (* default: *)
    apply M_bind_inv in Hbody as [(? & ? & ? & Habs & _)|(e & Hthrow & ->)];
      [done|].
    injection Hthrow as <- <- <-.
    eapply (restore_phase w (file_event packages) no_entry) in Hfin
      as [Hev' Hr2]; [|done|done].
    by eapply shape_type_rejected.
Qed.

End Shape.

(** * The extension groups *)

Section ExtensionGroups.
Import BlockNoteExtensions.

Lemma contains_app groups1 groups2 e :
  contains (groups1 ++ groups2) e ↔ contains groups1 e ∨ contains groups2 e.
Proof.
  unfold contains. split.
  - intros (g & [Hg|Hg]%elem_of_app & He); [left|right]; eauto.
  - intros [(g & Hg & He)|(g & Hg & He)]; exists g; rewrite elem_of_app; auto.
Qed.

Lemma contains_singleton g e : contains [g] e ↔ e ∈ extensions g.
Proof.
  unfold contains. split.
  - by intros (g' & ->%list_elem_of_singleton & He).
  - intros He. exists g. by rewrite list_elem_of_singleton.
Qed.

Lemma base_groups_no_history opts : ¬ contains (base_groups opts) History.
Proof.
  intros (g & Hg & Hh). unfold base_groups in Hg.
  repeat (apply elem_of_cons in Hg as [->|Hg]; [simpl in Hh; by elem_cases Hh|]).
  by apply elem_of_nil in Hg.
Qed.

Lemma base_groups_no_collaboration opts frag :
  ¬ contains (base_groups opts) (Collaboration frag).
Proof.
  intros (g & Hg & Hh). unfold base_groups in Hg.
  repeat (apply elem_of_cons in Hg as [->|Hg]; [simpl in Hh; by elem_cases Hh|]).
  by apply elem_of_nil in Hg.
Qed.

Lemma base_groups_no_cursor opts u render prov :
  ¬ contains (base_groups opts) (CollaborationCursor u render prov).
Proof.
  intros (g & Hg & Hh). unfold base_groups in Hg.
  repeat (apply elem_of_cons in Hg as [->|Hg]; [simpl in Hh; by elem_cases Hh|]).
  by apply elem_of_nil in Hg.
Qed.

Lemma editor_group_extension opts e :
  e ∈ extensions (editor_group opts) → ∃ plugins, e = BlockNoteUIExtension plugins.
Proof. simpl. intros ->%list_elem_of_singleton. eauto. Qed.

(** C9.  The History extension is among the groups exactly when no
    collaboration option is given.  With a collaboration option the group
    that takes the place of the History group (the one at index 7) is the
    Collaboration group with the Collaboration extension for the given
    fragment, History is absent, and a CollaborationCursor extension is
    present exactly when [provider?.awareness] is truthy. *)
Theorem history_iff_no_collaboration (opts : GetExtensionsOptions) :
  let groups := getBlockNoteExtensionGroups opts in
  (contains groups History ↔ collaboration opts = None)
  ∧ match collaboration opts with
    | None =>
        groups !! 7%nat = Some history_group
        ∧ (∀ frag, ¬ contains groups (Collaboration frag))
        ∧ (∀ u render prov, ¬ contains groups (CollaborationCursor u render prov))
    | Some c =>
        groups !! 7%nat = Some (collaboration_group c)
        ∧ group (collaboration_group c) = "Collaboration"
        ∧ Collaboration (fragment c) ∈ extensions (collaboration_group c)
        ∧ ((∃ u render prov, contains groups (CollaborationCursor u render prov))
           ↔ truthy (opt_get (provider c) "awareness") = true)
    end.
Proof.
  unfold getBlockNoteExtensionGroups.
  pose proof (base_groups_no_history opts) as Hh.
  destruct (collaboration opts) as [c|]; cbv zeta; split.
  - rewrite !contains_app, !contains_singleton. split; [|done].
    intros [[Hb|Hc]|He]; [done| |by apply editor_group_extension in He as [? ?]].
    unfold collaboration_group in Hc. simpl in Hc.
    destruct (truthy _); simpl in Hc; by elem_cases Hc.
  - split; [done|]. split; [done|]. split.
    { unfold collaboration_group. simpl. destruct (truthy _); simpl;
        apply list_elem_of_here. }
    split.
    + intros (u & render & prov & Hc).
      rewrite !contains_app, !contains_singleton in Hc.
      destruct Hc as [[Hb|Hc]|He];
        [by apply base_groups_no_cursor in Hb| |by apply editor_group_extension in He as [? ?]].
      unfold collaboration_group in Hc. simpl in Hc.
      destruct (truthy _); [done|]. simpl in Hc. by elem_cases Hc.
    + intros Ht. eexists _, _, _.
      rewrite !contains_app, !contains_singleton. left. right.
      unfold collaboration_group. simpl. rewrite Ht. simpl.
      apply list_elem_of_further, list_elem_of_here.
  - rewrite !contains_app, !contains_singleton. split; [done|]. intros _.
    left. right. simpl. apply list_elem_of_here.
  - split; [done|]. split.
    + intros frag. rewrite !contains_app, !contains_singleton.
      intros [[Hb|Hc]|He];
        [by apply base_groups_no_collaboration in Hb| simpl in Hc; by elem_cases Hc
        |by apply editor_group_extension in He as [? ?]].
    + intros u render prov. rewrite !contains_app, !contains_singleton.
      intros [[Hb|Hc]|He];
        [by apply base_groups_no_cursor in Hb| simpl in Hc; by elem_cases Hc
        |by apply editor_group_extension in He as [? ?]].
Qed.

(** C10.  The Editor group, which holds the BlockNoteUIExtension, is the
    last group, and its extension is the last element of the flattened
    list. *)
Theorem editor_group_last (opts : GetExtensionsOptions) :
  last (getBlockNoteExtensionGroups opts) = Some (editor_group opts)
  ∧ group (editor_group opts) = "Editor"
  ∧ extensions (editor_group opts)
    = [BlockNoteUIExtension
         [sideMenu_plugin (editor opts); formattingToolbar_plugin (editor opts);
          slashMenu_plugin (editor opts); hyperlinkToolbar_plugin (editor opts);
          imageToolbar_plugin (editor opts)]]
  ∧ last (getBlockNoteExtensions opts)
    = Some (BlockNoteUIExtension
              [sideMenu_plugin (editor opts); formattingToolbar_plugin (editor opts);
               slashMenu_plugin (editor opts); hyperlinkToolbar_plugin (editor opts);
               imageToolbar_plugin (editor opts)]).
Proof.
  unfold getBlockNoteExtensions, getBlockNoteExtensionGroups.
  split; [by rewrite last_snoc|]. split; [done|]. split; [done|].
  rewrite flat_map_app. simpl. by rewrite last_snoc.
Qed.

End ExtensionGroups.

(** * The release coordinator *)

(** ** The candidate map *)

Lemma Map_set_keys_inv key value (m : list (string * Pkg)) k :
  k ∈ (Map_set key value m).*1 → k = key ∨ k ∈ m.*1.
Proof.
  induction m as [|[k0 v0] m IH]; simpl.
  - intros ->%list_elem_of_singleton. by left.
  - destruct (String.eqb_spec k0 key) as [->|]; simpl; rewrite !elem_of_cons.
    + intros [->|]; auto.
    + intros [->|[->|]%IH]; auto.
Qed.

Lemma Map_set_NoDup key value (m : list (string * Pkg)) :
  NoDup m.*1 → NoDup (Map_set key value m).*1.
Proof.
  induction m as [|[k0 v0] m IH]; simpl; intros Hnd.
  - apply NoDup_singleton.
  - apply NoDup_cons in Hnd as [Hk0 Hnd].
    destruct (String.eqb_spec k0 key) as [->|Hne]; simpl.
    + by apply NoDup_cons.
    + apply NoDup_cons. split; [|by apply IH].
      intros [->|]%Map_set_keys_inv; done.
Qed.

Lemma Map_set_Forall (Q : string → Pkg → Prop) key value (m : list (string * Pkg)) :
  Q key value → Forall (fun kv => Q kv.1 kv.2) m →
  Forall (fun kv => Q kv.1 kv.2) (Map_set key value m).
Proof.
  intros HQ. induction m as [|[k0 v0] m IH]; simpl; intros Hm.
  - by constructor.
  - apply Forall_cons in Hm as [H0 Hm].
    destruct (String.eqb_spec k0 key) as [->|Hne]; constructor; auto.
Qed.

Lemma evolves_keys_NoDup P Q s s' :
  evolves P Q s s' → NoDup (packagesToRelease s).*1 → NoDup (packagesToRelease s').*1.
Proof.
  intros [_ (kvs & -> & _)]. generalize (packagesToRelease s).
  induction kvs as [|[k v] kvs IH]; simpl; [done|].
  intros m Hm. by apply IH, Map_set_NoDup.
Qed.

Lemma evolves_entries_Forall P (Q : string → Pkg → Prop) s s' :
  evolves P Q s s' →
  Forall (fun kv => Q kv.1 kv.2) (packagesToRelease s) →
  Forall (fun kv => Q kv.1 kv.2) (packagesToRelease s').
Proof.
  intros [_ (kvs & -> & Hq)]. revert Hq. generalize (packagesToRelease s).
  induction kvs as [|[k v] kvs IH]; simpl; [done|].
  intros m [Hkv Hq]%Forall_cons Hm. apply IH; [done|]. by apply Map_set_Forall.
Qed.

Lemma evolves_no_entry P s s' :
  evolves P no_entry s s' → packagesToRelease s' = packagesToRelease s.
Proof.
  intros [_ (kvs & -> & Hq)].
  destruct kvs as [|kv kvs]; [done|]. by apply Forall_cons in Hq as [[] _].
Qed.

(** ** Sorting the keys *)

Lemma sort_Permutation keys : sort keys ≡ₚ keys.
Proof. apply merge_sort_Permutation. Qed.

Lemma sort_sorted keys : StronglySorted String.le (sort keys).
Proof. apply StronglySorted_merge_sort; apply _. Qed.

Lemma StronglySorted_strict {A} (R : relation A) `{!AntiSymm (=) R} (l : list A) :
  NoDup l → StronglySorted R l → StronglySorted (strict R) l.
Proof.
  induction 2 as [|x l Hl IH Hx]; [constructor|].
  apply NoDup_cons in H as [Hnin Hnd]. constructor; [by apply IH|].
  rewrite Forall_forall in Hx |- *. intros y Hy. split; [by apply Hx|].
  intros Hyx. assert (x = y) as -> by (apply (anti_symm R); auto). done.
Qed.

(** Distinct keys come out in strictly ascending order. *)
Lemma sort_strict keys : NoDup keys → StronglySorted string_lt (sort keys).
Proof.
  intros Hnd. apply StronglySorted_strict; [apply _| |apply sort_sorted].
  by rewrite sort_Permutation.
Qed.

(** The sorted list depends on the set of keys only. *)
Lemma sort_unique keys1 keys2 : keys1 ≡ₚ keys2 → sort keys1 = sort keys2.
Proof.
  intros Hp. apply (StronglySorted_unique String.le); [apply sort_sorted..|].
  by rewrite !sort_Permutation.
Qed.

(** ** Reading a trace *)

Lemma file_event_worker packages ev :
  file_event packages ev → worker_event packages ev.
Proof. by constructor. Qed.

Lemma evolves_file_worker packages Q s s' :
  evolves (file_event packages) no_entry s s' →
  evolves (worker_event packages) Q s s'.
Proof. apply evolves_mono; [apply file_event_worker|by intros ?? []]. Qed.

Lemma tag_calls_app tr1 tr2 : tag_calls (tr1 ++ tr2) = tag_calls tr1 ++ tag_calls tr2.
Proof. apply omap_app. Qed.

Lemma tag_calls_cons ev tr :
  tag_calls (ev :: tr)
  = match tag_call ev with
    | Some key => key :: tag_calls tr
    | None => tag_calls tr
    end.
Proof. done. Qed.

Lemma tag_calls_none (P : Event → Prop) tr :
  (∀ ev, P ev → tag_call ev = None) → Forall P tr → tag_calls tr = [].
Proof.
  intros HP. induction 1 as [|ev tr Hev _ IH]; [done|].
  by rewrite tag_calls_cons, (HP _ Hev).
Qed.

Lemma tag_call_worker packages ev : worker_event packages ev → tag_call ev = None.
Proof. by intros [? []|]. Qed.

Lemma tag_calls_worker packages tr :
  Forall (worker_event packages) tr → tag_calls tr = [].
Proof. apply tag_calls_none, tag_call_worker. Qed.

Lemma tag_calls_file packages tr :
  Forall (file_event packages) tr → tag_calls tr = [].
Proof.
  apply tag_calls_none. intros ev Hev. eapply tag_call_worker.
  by apply file_event_worker.
Qed.

Lemma tag_call_dist_tag key : tag_call (ev_dist_tag key) = Some key.
Proof. done. Qed.

Lemma tag_calls_dist_tag keys : tag_calls (ev_dist_tag <$> keys) = keys.
Proof.
  induction keys as [|k keys IH]; [done|].
  by rewrite fmap_cons, tag_calls_cons, tag_call_dist_tag, IH.
Qed.

Lemma tag_call_publish packages : tag_call (ev_publish packages) = None.
Proof. by destruct packages. Qed.

Lemma run_shape lib w type cwd sched disk0 r s :
  run lib w type cwd sched disk0 = Some (r, s) →
  release_shape lib w type cwd (initial disk0) r s.
Proof.
  unfold run. destruct (release _ _ _ _ _ _) as [[[r' sched'] c']|] eqn:Hrel; [|done].
  intros [= <- <-]. by apply release_spec in Hrel.
Qed.

Lemma shape_keys_NoDup lib w type cwd disk0 r s :
  release_shape lib w type cwd (initial disk0) r s →
  NoDup (packagesToRelease s).*1.
Proof.
  inversion 1 as
    [ e Hq | all Hq Hd | all Hq Hd Hp
    | all r2 s' Hq Hd Hp Hty Hev Hr2
    | all e s' Hq Hd Hp Hty Hev
    | all s1 r2 s' Hq Hd Hp Hty Hev Hob Hpre Hev' Hr2
    | all s1 r2 s' Hq Hd Hp Hty Hev Hob Hpre Hpub Hev' Hr2
    | all s1 rt r2 s' Hq Hd Hp Hty Hev Hob Hpre Hpub Hev' Hrt Hr2 ];
    subst; try apply NoDup_nil_2.
  - eapply evolves_keys_NoDup; [exact Hev|apply NoDup_nil_2].
  - eapply evolves_keys_NoDup; [exact Hev|apply NoDup_nil_2].
  - eapply evolves_keys_NoDup; [exact Hev'|]. simpl.
    eapply evolves_keys_NoDup; [exact Hev|apply NoDup_nil_2].
  - eapply evolves_keys_NoDup; [exact Hev'|]. simpl.
    eapply evolves_keys_NoDup; [exact Hev|apply NoDup_nil_2].
  - eapply evolves_keys_NoDup; [exact Hev'|]. simpl.
    eapply evolves_keys_NoDup; [exact Hev|apply NoDup_nil_2].
Qed.

(** The tag promotion calls of a run: none, or the sorted candidate keys. *)
Lemma shape_tag_calls lib w type cwd disk0 r s :
  release_shape lib w type cwd (initial disk0) r s →
  (tag_calls (trace s) = [] ∨ tag_calls (trace s) = sort (packagesToRelease s).*1)
  ∧ (r = Ok tt → tag_calls (trace s) = sort (packagesToRelease s).*1).
Proof.
  inversion 1 as
    [ e Hq | all Hq Hd | all Hq Hd Hp
    | all r2 s' Hq Hd Hp Hty [(R & HR & HfR) _] Hr2
    | all e s' Hq Hd Hp Hty [(W & HW & HfW) _]
    | all s1 r2 s' Hq Hd Hp Hty [(W & HW & HfW) _] Hob Hpre [(R & HR & HfR) _] Hr2
    | all s1 r2 s' Hq Hd Hp Hty [(W & HW & HfW) _] Hob Hpre Hpub [(R & HR & HfR) _] Hr2
    | all s1 rt r2 s' Hq Hd Hp Hty [(W & HW & HfW) _] Hob Hpre Hpub Hev Hrt Hr2 ];
    subst.
  - split; [by left|discriminate].
  - split; [by left|discriminate].
  - split; [by left|discriminate].
  - rewrite HR, tag_calls_app, (tag_calls_file _ _ HfR). split; [by left|].
    destruct r2; discriminate.
  - rewrite HW, tag_calls_app, (tag_calls_worker _ _ HfW).
    split; [by left|discriminate].
  - rewrite HR. simpl. rewrite HW, !tag_calls_app, (tag_calls_file _ _ HfR),
      (tag_calls_worker _ _ HfW). split; [by left|]. destruct r2; discriminate.
  - rewrite HR. simpl. rewrite HW, !tag_calls_app, (tag_calls_file _ _ HfR),
      (tag_calls_worker _ _ HfW).
    split; [left|destruct r2; discriminate].
    by rewrite !tag_calls_cons, tag_call_publish.
  - pose proof (evolves_no_entry _ _ _ Hev) as Hkeys.
    destruct Hev as [(R & HR & HfR) _].
    assert (tag_calls (trace s) = sort (packagesToRelease s).*1) as ->; [|auto].
    rewrite HR, Hkeys. simpl. rewrite HW, !tag_calls_app, (tag_calls_file _ _ HfR),
      (tag_calls_worker _ _ HfW), tag_calls_dist_tag.
    rewrite !tag_calls_cons, tag_call_publish. simpl. by rewrite app_nil_r.
Qed.

(** C7.  In every run the keys of the [dist-tag add ... edge] calls are, in
    the order the calls are made, strictly ascending; they are the sorted
    keys of the candidate map whenever tag promotion takes place (always when
    the run succeeds); so two runs that promote the same candidate set make
    the same calls in the same order, whatever the scheduling. *)
Theorem tag_promotion_order
    (lib : Lib) (w1 w2 : World) (type1 type2 : option string) (cwd1 cwd2 : string)
    (sched1 sched2 : list nat) (disk1 disk2 : gmap string Manifest)
    (r1 r2 : Result unit) (s1 s2 : State) :
  run lib w1 type1 cwd1 sched1 disk1 = Some (r1, s1) →
  run lib w2 type2 cwd2 sched2 disk2 = Some (r2, s2) →
  StronglySorted string_lt (tag_calls (trace s1))
  ∧ (tag_calls (trace s1) = [] ∨ tag_calls (trace s1) = sort (packagesToRelease s1).*1)
  ∧ (r1 = Ok tt → tag_calls (trace s1) = sort (packagesToRelease s1).*1)
  ∧ ((packagesToRelease s1).*1 ≡ₚ (packagesToRelease s2).*1 →
     tag_calls (trace s1) ≠ [] → tag_calls (trace s2) ≠ [] →
     tag_calls (trace s1) = tag_calls (trace s2)).
Proof.
  intros Hs1%run_shape Hs2%run_shape.
  pose proof (shape_keys_NoDup _ _ _ _ _ _ _ Hs1) as Hnd1.
  apply shape_tag_calls in Hs1 as [Hc1 Hok1]. apply shape_tag_calls in Hs2 as [Hc2 Hok2].
  split; [|split; [done|split; [done|]]].
  - destruct Hc1 as [-> | ->]; [constructor|by apply sort_strict].
  - intros Hp Hne1 Hne2. destruct Hc1 as [?| ->], Hc2 as [?| ->]; try done.
    by apply sort_unique.
Qed.

(** * Termination *)

Lemma advance_ready {A} n (t : Async A) s t' s' :
  advance t s = (t', s') → steps_le n t → ready n t'.
Proof.
  revert s. induction t; simpl; intros s Heq Hn; try by injection Heq as <- <-.
  by eapply IHt.
Qed.

Lemma ready_pending {A} n (t : Async A) :
  ready n t → pending t = true → ∃ n', n = S n'.
Proof. destruct t, n; simpl; try done; eauto. Qed.

Section Termination.
Context (w : World).

Lemma resume_ready {A} n (t : Async A) s t' s' :
resume w t s = (t', s') → ready (S n) t → pending t = true → ready n t'.
Proof.
destruct t as [| | |c a k|f k|f d k]; simpl; try done; intros Heq Hn _.
- by eapply advance_ready.
- by eapply advance_ready.
- destruct (write_ok w f d); by eapply advance_ready.
Qed.

Lemma resume_nth_ready i (ts : list Task) ns s ts' s' :
resume_nth w i ts s = (ts', s') →
Forall2 ready ns ts → (i < count_pending ts)%nat →
∃ ns', Forall2 ready ns' ts' ∧ S (sum_list ns') = sum_list ns.
Proof.
intros Heq Hns. revert i s ts' s' Heq.
induction Hns as [|n t ns ts Hn Hns IH]; intros i s ts' s' Heq Hi.
- unfold count_pending in Hi. simpl in Hi. lia.
- simpl in Heq. unfold count_pending in Hi. rewrite filter_cons in Hi.
  destruct (pending t) eqn:Hp.
  + rewrite decide_True in Hi by done. simpl in Hi. destruct i as [|i].
    * destruct (resume w t s) as [t1 s1] eqn:Hr. injection Heq as <- <-.
      destruct (ready_pending _ _ Hn Hp) as [n' ->].
      exists (n' :: ns). split; [|done]. constructor; [|done].
      by eapply resume_ready.
    * destruct (resume_nth w i ts s) as [ts1 s1] eqn:Hr. injection Heq as <- <-.
      destruct (IH _ _ _ _ Hr) as (ns' & Hns' & Hsum);
        [by apply Nat.succ_lt_mono in Hi|].
      exists (n :: ns'). split; [by constructor|]. simpl. lia.
  + rewrite decide_False in Hi by done.
    destruct (resume_nth w i ts s) as [ts1 s1] eqn:Hr. injection Heq as <- <-.
    destruct (IH _ _ _ _ Hr) as (ns' & Hns' & Hsum); [done|].
    exists (n :: ns'). split; [by constructor|]. simpl. lia.
Qed.

Lemma pending_exists (ts : list Task) :
first_rejection ts = None → forallb fulfilled ts = false →
(1 ≤ count_pending ts)%nat.
Proof.
unfold count_pending. induction ts as [|t ts IH]; simpl; [done|].
rewrite filter_cons. destruct t; simpl; try done; intros; lia.
Qed.

Lemma pending_budget (ts : list Task) ns :
Forall2 ready ns ts → (count_pending ts ≤ sum_list ns)%nat.
Proof.
unfold count_pending. induction 1 as [|n t ns ts Hn Hns IH]; simpl; [done|].
rewrite filter_cons. destruct (pending t) eqn:Hp.
- rewrite decide_True by done. destruct (ready_pending _ _ Hn Hp) as [n' ->].
  simpl. unfold Task in *. lia.
- rewrite decide_False by done. unfold Task in *. lia.
Qed.

Lemma filter_ready (ts : list Task) ns :
Forall2 ready ns ts →
∃ ns', Forall2 ready ns' (filter (fun t => pending t = true) ts)
       ∧ (sum_list ns' ≤ sum_list ns)%nat.
Proof.
induction 1 as [|n t ns ts Hn Hns (ns' & IH & Hsum)]; [by exists []|].
rewrite filter_cons. case_decide.
- exists (n :: ns'). split; [by constructor|]. simpl. lia.
- exists ns'. split; [done|]. simpl. lia.
Qed.

(** A fan-out settles once the schedule is as long as the operations the
  tasks in flight have left. *)
Lemma all_loop_halts sched (fg : list Task) c ns ms extra :
Forall2 ready ns fg → Forall2 ready ms (bg c) →
(sum_list ns + sum_list ms + extra ≤ length sched)%nat →
∃ r sched' c' ms',
  all_loop w fg sched c = Some (r, sched', c')
  ∧ Forall2 ready ms' (bg c')
  ∧ (sum_list ms' + extra ≤ length sched')%nat.
Proof.
revert fg c ns ms.
induction sched as [|n sched IH]; intros fg c ns ms Hns Hms Hlen.
- simpl. destruct (first_rejection fg) eqn:Hrej.
  + destruct (filter_ready _ _ Hns) as (ns' & Hns' & Hsum).
    eexists _, _, _, (ms ++ ns'). split; [done|]. simpl.
    split; [by apply Forall2_app|]. rewrite sum_list_with_app. simpl in Hlen. lia.
  + destruct (forallb fulfilled fg) eqn:Hful.
    * eexists _, _, _, ms. split; [done|]. split; [done|]. lia.
    * pose proof (pending_exists _ Hrej Hful).
      pose proof (pending_budget _ _ Hns). simpl in Hlen. lia.
- simpl. destruct (first_rejection fg) eqn:Hrej.
  + destruct (filter_ready _ _ Hns) as (ns' & Hns' & Hsum).
    eexists _, _, _, (ms ++ ns'). split; [done|]. simpl.
    split; [by apply Forall2_app|]. rewrite sum_list_with_app. simpl in Hlen. lia.
  + destruct (forallb fulfilled fg) eqn:Hful.
    * eexists _, _, _, ms. split; [done|]. split; [done|]. lia.
    * pose proof (pending_exists _ Hrej Hful) as Hpe.
      set (i := (n `mod` (count_pending fg + count_pending (bg c)))%nat).
      assert (i < count_pending fg + count_pending (bg c))%nat as Hi
        by (apply Nat.mod_upper_bound; lia).
      simpl in Hlen. destruct (i <? count_pending fg)%nat eqn:Hlt.
      -- apply Nat.ltb_lt in Hlt.
         destruct (resume_nth w i fg (st c)) as [fg1 s1] eqn:Hr.
         destruct (resume_nth_ready _ _ _ _ _ _ Hr Hns Hlt) as (ns' & Hns' & Hsum).
         eapply (IH fg1 _ ns' ms); [done|done|]. lia.
      -- apply Nat.ltb_ge in Hlt.
         destruct (resume_nth w (i - count_pending fg) (bg c) (st c))
           as [bg1 s1] eqn:Hr.
         destruct (resume_nth_ready _ _ _ _ _ _ Hr Hms) as (ms' & Hms' & Hsum);
           [lia|].
         eapply (IH fg _ ns ms'); [done|done|]. lia.
Qed.

Lemma start_all_ready (ts : list Task) ns s ts' s' :
start_all ts s = (ts', s') → Forall2 steps_le ns ts → Forall2 ready ns ts'.
Proof.
intros Heq Hns. revert s ts' s' Heq.
induction Hns as [|n t ns ts Hn Hns IH]; simpl; intros s ts' s' Heq.
- by injection Heq as <- <-.
- destruct (advance t s) as [t1 s1] eqn:Ha.
  destruct (start_all ts s1) as [ts2 s2] eqn:Hs. injection Heq as <- <-.
  constructor; [by eapply advance_ready|by eapply IH].
Qed.

Lemma Promise_all_halts sched (ts : list Task) c ns ms extra :
Forall2 steps_le ns ts → Forall2 ready ms (bg c) →
(sum_list ns + sum_list ms + extra ≤ length sched)%nat →
∃ r sched' c' ms',
  Promise_all w ts sched c = Some (r, sched', c')
  ∧ Forall2 ready ms' (bg c')
  ∧ (sum_list ms' + extra ≤ length sched')%nat.
Proof.
intros Hns Hms Hlen. unfold Promise_all.
destruct (start_all ts (st c)) as [fg s0] eqn:Hs.
eapply all_loop_halts; [by eapply start_all_ready|done|done].
Qed.

End Termination.

(** ** Every task of the script is a few operations long *)

Lemma steps_le_mono {A} n m (t : Async A) :
  (n ≤ m)%nat → steps_le n t → steps_le m t.
Proof.
  revert n m. induction t as [| | ? ? ? IH | ? ? ? IH | ? ? IH | ? ? ? IH];
    simpl; intros n m Hle; try done.
  - by apply IH.
  - destruct n; [done|]. destruct m; [lia|]. intros H r. eapply IH; [|apply H]. lia.
  - destruct n; [done|]. destruct m; [lia|]. intros H r. eapply IH; [|apply H]. lia.
  - destruct n; [done|]. destruct m; [lia|]. intros H r. eapply IH; [|apply H]. lia.
Qed.

Lemma steps_le_bind {A B} n m (t : Async A) (f : A → Async B) :
  steps_le n t → (∀ a, steps_le m (f a)) → steps_le (n + m) (t ≫= f).
Proof.
  intros Ht Hf. unfold mbind, Async_bind. revert n Ht.
  induction t as [| | ? ? ? IH | ? ? ? IH | ? ? IH | ? ? ? IH];
    simpl; intros n Ht; try done.
  - eapply steps_le_mono; [|apply Hf]. lia.
  - by apply IH.
  - destruct n; [done|]. simpl. intros r. by apply IH.
  - destruct n; [done|]. simpl. intros r. by apply IH.
  - destruct n; [done|]. simpl. intros r. by apply IH.
Qed.

Lemma changePackageOptions_steps pkg optionsNew :
  steps_le 2 (changePackageOptions pkg optionsNew).
Proof.
  unfold changePackageOptions, readFile, writeFile, mbind, Async_bind.
  simpl. intros [m|]; simpl; [|done].
  destruct (findIndex _ _); simpl; [|done]. by intros [].
Qed.

Lemma check_online_steps lib pkg vnew : steps_le 1 (check_online lib pkg vnew).
Proof.
  unfold check_online, exec, mbind, Async_bind. simpl.
  intros r. destruct (negb _); simpl; [|done].
  destruct (JSON_parse lib _); simpl; [|done].
  by destruct (strict_ne_string _ _).
Qed.

Lemma bump_steps lib gitVersion gitHead pkg :
  steps_le 3 (bump lib gitVersion gitHead pkg).
Proof.
  unfold bump. destruct (semver_inc lib _ _ _ _) as [vnew|]; [|done].
  destruct (negb _); [|done].
  apply (steps_le_bind 2 1); [apply changePackageOptions_steps|].
  intros _. apply check_online_steps.
Qed.

Lemma restore_steps pkg : steps_le 2 (restore pkg).
Proof.
  unfold restore. apply (steps_le_bind 2 0); [apply changePackageOptions_steps|done].
Qed.

Lemma execPipe_steps command args : steps_le 1 (execPipe command args).
Proof.
  unfold execPipe, exec, mbind, Async_bind. simpl. intros r. by destruct (_ =? 0).
Qed.

Lemma fmap_steps {A} d (f : A → Task) (l : list A) :
  (∀ a, steps_le d (f a)) →
  Forall2 steps_le (replicate (length l) d) (f <$> l).
Proof. intros Hf. induction l; simpl; by constructor. Qed.

(** ** The keys of the version update *)

Lemma possible_keys_length lib gitVersion packages :
  (length (possible_keys lib gitVersion packages) ≤ length packages)%nat.
Proof.
  unfold possible_keys. induction packages as [|pkg packages IH]; simpl; [done|].
  unfold omap in *. destruct (_ ≫= _); simpl; lia.
Qed.

Lemma bump_keys lib gitVersion gitHead packages pkg :
  pkg ∈ packages →
  emits any_event (fun key _ => key ∈ possible_keys lib gitVersion packages)
    (bump lib gitVersion gitHead pkg).
Proof.
  intros Hin. unfold bump.
  destruct (semver_inc lib _ _ _ _) as [vnew|] eqn:Hv; [|done].
  destruct (negb _); [|done].
  apply emits_bind.
  { eapply emits_mono; [| |by apply (changePackageOptions_emits [pkg]), list_elem_of_singleton];
      [done|by intros ?? []]. }
  intros _. unfold check_online, exec, mbind, Async_bind. simpl.
  split; [done|]. intros r. destruct (negb _); simpl; [|done].
  destruct (JSON_parse lib _); simpl; [|done].
  destruct (strict_ne_string _ _); simpl; [done|].
  split; [|done]. unfold possible_keys. apply list_elem_of_omap.
  exists pkg. split; [done|]. by rewrite Hv.
Qed.

Lemma keys_bound (K : list string) (m : list (string * Pkg)) :
  NoDup m.*1 → Forall (fun kv => kv.1 ∈ K) m → (length m ≤ length K)%nat.
Proof.
  intros Hnd Hin. rewrite <-(length_fmap fst m).
  apply submseteq_length, NoDup_submseteq; [done|].
  intros k (kv & -> & Hkv)%list_elem_of_fmap.
  rewrite Forall_forall in Hin. by apply Hin.
Qed.

(** ** The script terminates *)

Section ScriptTermination.
Context (lib : Lib) (w : World).

(** The [ci] case comes to an end within three operations for each package
  and the three hooks, and leaves at most one candidate for each
  package. *)
Lemma ci_halts packages gitVersion gitHead sched c extra :
bg c = [] → packagesToRelease (st c) = [] →
(3 * length packages + 3 + extra ≤ length sched)%nat →
∃ r sched' c' ms',
  ci lib w packages gitVersion gitHead sched c = Some (r, sched', c')
  ∧ Forall2 ready ms' (bg c')
  ∧ (sum_list ms' + extra ≤ length sched')%nat
  ∧ (r = Ok tt → bg c' = [])
  ∧ (length (packagesToRelease (st c')) ≤ length packages)%nat.
Proof.
intros Hbg Hptr Hlen. unfold ci, mbind, M_bind.
destruct (Promise_all_halts w sched (bump lib gitVersion gitHead <$> packages) c
            (replicate (length packages) 3%nat) [] (3 + extra))
  as (r1 & sched1 & c1 & ms1 & Hup & Hms1 & Hlen1).
{ apply fmap_steps. intros pkg. apply bump_steps. }
{ rewrite Hbg. constructor. }
{ rewrite sum_list_replicate. simpl. lia. }
rewrite Hup.
assert (length (packagesToRelease (st c1)) ≤ length packages)%nat as Hkeys.
{ pose proof Hup as Hup'.
  eapply (Promise_all_spec w any_event
            (fun key _ => key ∈ possible_keys lib gitVersion packages))
    in Hup' as [_ Hev].
  - etrans; [|apply (possible_keys_length lib gitVersion)].
    apply keys_bound.
    + eapply evolves_keys_NoDup; [done|]. rewrite Hptr. constructor.
    + eapply (evolves_entries_Forall _ (fun key _ => key ∈ _)); [done|].
      rewrite Hptr. constructor.
  - apply Forall_fmap, Forall_forall. intros pkg Hin. by apply bump_keys.
  - rewrite Hbg. constructor. }
destruct r1 as [[]|e].
- pose proof (Promise_all_Ok_bg w _ _ _ _ _ Hbg Hup) as Hbg1.
  destruct c1 as [s1 bg1]. simpl in Hbg1, Hkeys, Hms1. subst bg1.
  inversion Hms1; subst. simpl in Hlen1.
  rewrite await_execPipe.
  destruct sched1 as [|n1 sched1]; [simpl in Hlen1; lia|].
  destruct (code_of w "npm" ["run"; "prepublishOnly"] =? 0).
  + unfold try_finally. rewrite await_execPipe.
    destruct sched1 as [|n2 sched1]; [simpl in Hlen1; lia|].
    destruct (code_of w "npm" (publish_args packages) =? 0);
      rewrite await_execPipe;
      (destruct sched1 as [|n3 sched1]; [simpl in Hlen1; lia|]);
      destruct (code_of w "npm" ["run"; "postpublish"] =? 0);
      eexists _, _, _, []; (split; [done|]); simpl;
      (split; [constructor|]); simpl in Hlen1; (split; [lia|]); done.
  + eexists _, _, _, []. split; [done|]. simpl.
    split; [constructor|]. simpl in Hlen1. split; [lia|]. done.
- eexists _, _, _, ms1. split; [done|]. split; [done|].
  split; [lia|]. done.
Qed.

(** The [try] block with its [finally]. *)
Lemma try_block_halts type packages gitVersion gitHead sched c :
bg c = [] → packagesToRelease (st c) = [] →
(6 * length packages + 3 ≤ length sched)%nat →
∃ r sched' c',
  try_finally
    ((if decide (type = Some "ci")
      then ci lib w packages gitVersion gitHead
      else throw (JsError "--type is required and must be one of: {ci}"));;
     keys ← packagesToRelease_keys;
     Promise_all w
       ((fun key => execPipe "npm" (dist_tag_args key)) <$> sort keys))
    (Promise_all w (restore <$> packages)) sched c
  = Some (r, sched', c').
Proof.
intros Hbg Hptr Hlen.
assert (Hrestore : ∀ (A : Type) (r1 : Result A) sched1 c1 ms1,
          Forall2 ready ms1 (bg c1) →
          (sum_list ms1 + 2 * length packages ≤ length sched1)%nat →
          ∃ r sched' c',
            match Promise_all w (restore <$> packages) sched1 c1 with
            | Some (Ok _, sched'', c'') => Some (r1, sched'', c'')
            | Some (Err e, sched'', c'') => Some (Err e, sched'', c'')
            | None => None
            end = Some (r, sched', c')).
{ intros A r1 sched1 c1 ms1 Hms1 Hlen1.
  destruct (Promise_all_halts w sched1 (restore <$> packages) c1
              (replicate (length packages) 2%nat) ms1 0)
    as (r2 & sched2 & c2 & ms2 & -> & _).
  { apply fmap_steps. intros pkg. apply restore_steps. }
  { done. }
  { rewrite sum_list_replicate. lia. }
  destruct r2; eauto. }
unfold try_finally, mbind, M_bind. case_decide.
- destruct (ci_halts packages gitVersion gitHead sched c (3 * length packages))
    as (r1 & sched1 & c1 & ms1 & -> & Hms1 & Hlen1 & Hbg1 & Hkeys);
    [done|done|lia|].
  destruct r1 as [[]|e]; [|eapply Hrestore; [done|lia]].
  unfold packagesToRelease_keys.
  destruct (Promise_all_halts w sched1
              ((fun key => execPipe "npm" (dist_tag_args key))
                 <$> sort (packagesToRelease (st c1)).*1) c1
              (replicate (length (sort (packagesToRelease (st c1)).*1)) 1%nat)
              [] (2 * length packages))
    as (r2 & sched2 & c2 & ms2 & -> & Hms2 & Hlen2).
  { apply fmap_steps. intros key. apply execPipe_steps. }
  { rewrite Hbg1 by done. constructor. }
  { rewrite sum_list_replicate, (Permutation_length (sort_Permutation _)),
      length_fmap. simpl. lia. }
  eapply Hrestore; [done|lia].
- unfold throw. eapply (Hrestore _ _ _ _ []); [rewrite Hbg; constructor|].
  simpl. lia.
Qed.

(** The script comes to an end when the schedule has a decision for each of
  its operations: six for each package, and six more. *)
Lemma release_halts type cwd sched s :
packagesToRelease s = [] →
(6 * length (packages_of lib w cwd) + 6 ≤ length sched)%nat →
∃ r sched' c',
  release lib w type cwd sched {| st := s; bg := [] |} = Some (r, sched', c').
Proof.
intros Hptr Hlen. unfold release, mbind, M_bind. rewrite await_npm.
destruct sched as [|n0 sched]; [simpl in Hlen; lia|].
unfold packages_of, workspace_query, query_args in Hlen. simpl in Hlen.
change (["query"; ".workspace"] ++ ["--json"])
  with ["query"; ".workspace"; "--json"].
destruct (negb (code_of w "npm" _ =? 0)); [by eauto|].
destruct (JSON_parse_packages lib _) as [all|]; [|by eauto].
rewrite await_exec.
destruct sched as [|n1 sched]; [simpl in Hlen; lia|]. cbn [code].
destruct (negb (code_of w "git" _ =? 0)); [unfold throw; by eauto|].
rewrite await_exec.
destruct sched as [|n2 sched]; [simpl in Hlen; lia|]. cbn [code].
destruct (negb (code_of w "git" _ =? 0)); [unfold throw; by eauto|].
apply try_block_halts; [done|done|]. unfold discover in Hlen. simpl in Hlen. lia.
Qed.

Lemma run_halts type cwd sched disk0 :
(6 * length (packages_of lib w cwd) + 6 ≤ length sched)%nat →
∃ r s, run lib w type cwd sched disk0 = Some (r, s).
Proof.
intros Hlen. unfold run.
destruct (release_halts type cwd sched
            {| disk := disk0; packagesToRelease := []; trace := [] |})
  as (r & sched' & c' & ->); [done|done|]. eauto.
Qed.

End ScriptTermination.

(** ** The grammar of a trace *)

Lemma packages_of_query lib w cwd all :
  workspace_query lib w = Ok all → packages_of lib w cwd = discover cwd all.
Proof. unfold packages_of. by intros ->. Qed.

Lemma entries_keys packages (m : list (string * Pkg)) :
  Forall (fun kv => candidate_of packages kv.1 kv.2) m → Forall (key_of packages) m.*1.
Proof.
  intros Hm. apply Forall_fmap. eapply Forall_impl; [done|].
  intros [k v] [Hin [vnew Hk]]. simpl in *. subst k. by exists v, vnew.
Qed.

(** A run spawns the queries, then updates versions, then runs none, one
    or all three commands of the publish step, then promotes tags, then
    restores. *)
Lemma shape_trace lib w type cwd disk0 r s :
  release_shape lib w type cwd (initial disk0) r s →
  let packages := packages_of lib w cwd in
  ∃ pre hooks tags post,
    trace s = pre ++ hooks ++ tags ++ post
    ∧ Forall (fun ev => is_query ev ∨ worker_event packages ev) pre
    ∧ (hooks = [] ∨ hooks = [ev_prepublish] ∨ hooks = publish_step packages)
    ∧ (tags = [] ∨ tags = ev_dist_tag <$> sort (packagesToRelease s).*1)
    ∧ Forall (file_event packages) post
    ∧ Forall (key_of packages) (packagesToRelease s).*1
    ∧ (r = Ok tt → hooks = publish_step packages)
    ∧ (hooks ≠ publish_step packages → tags = [])
    ∧ (hooks ≠ [] →
       ∀ pkg φ, pkg ∈ packages →
         will_set w φ (bump lib (gitVersion_of w) (gitHead_of w) pkg) →
         ∃ k, k ∈ (packagesToRelease s).*1 ∧ φ k)
    ∧ (hooks = publish_step packages →
       ∃ r_tags r_restore,
         r = finally_result
               (match publish_result w packages with
                | Ok _ => r_tags
                | Err e => Err e
                end) r_restore
         ∧ (r_tags = Ok tt ∨ r_tags = Err npm_failed)
         ∧ (∀ e, r_restore = Err e → is_fs_error e))
    ∧ (∃ pre',
         pre = ev_query :: pre'
         ∧ Forall (fun ev => ev = ev_describe ∨ ev = ev_rev_parse
                             ∨ worker_event packages ev) pre').
Proof.
  assert (Hw' : ∀ packages W,
            Forall (worker_event packages) W →
            ∃ pre',
              ev_query :: ev_describe :: ev_rev_parse :: W = ev_query :: pre'
              ∧ Forall (fun ev => ev = ev_describe ∨ ev = ev_rev_parse
                                  ∨ worker_event packages ev) pre').
  { intros packages W HW. eexists. split; [done|].
    repeat (apply Forall_cons; split; [auto|]).
    eapply Forall_impl; [done|]. auto. }
  assert (Hw : ∀ packages W,
            Forall (worker_event packages) W →
            Forall (fun ev => is_query ev ∨ worker_event packages ev)
              (ev_query :: ev_describe :: ev_rev_parse :: W)).
  { intros packages W HW.
    repeat (apply Forall_cons; split; [left; unfold is_query; auto|]).
    eapply Forall_impl; [done|]. auto. }
  pose proof (Forall_nil_2 (key_of (packages_of lib w cwd))) as Hnil.
  inversion 1 as
    [ e Hq | all Hq Hd | all Hq Hd Hp
    | all r2 s' Hq Hd Hp Hty Hev Hr2
    | all e s' Hq Hd Hp Hty Hev
    | all s1 r2 s' Hq Hd Hp Hty Hev Hob Hpre Hev' Hr2
    | all s1 r2 s' Hq Hd Hp Hty Hev Hob Hpre Hpub Hev' Hr2
    | all s1 rt r2 s' Hq Hd Hp Hty Hev Hob Hpre Hpub Hev' Hrt Hr2 ];
    subst; intros packages; subst packages;
    try rewrite (packages_of_query _ _ _ _ Hq) in *.
  - exists [ev_query], [], [], [].
    repeat split; auto; try discriminate; try done.
    + repeat (apply Forall_cons; split; [left; unfold is_query; auto|]).
      apply Forall_nil_2.
    + by exists [].
  - exists [ev_query; ev_describe], [], [], [].
    repeat split; auto; try discriminate; try done.
    + repeat (apply Forall_cons; split; [left; unfold is_query; auto|]).
      apply Forall_nil_2.
    + eexists. split; [done|]. repeat constructor.
  - exists [ev_query; ev_describe; ev_rev_parse], [], [], [].
    repeat split; auto; try discriminate; try done; try (by apply (Hw' [] [])).
  - pose proof (evolves_no_entry _ _ _ Hev) as Hk.
    destruct Hev as [(R & HR & HfR) _].
    exists [ev_query; ev_describe; ev_rev_parse], [], [], R. rewrite Hk.
    repeat split; auto; try discriminate; try done;
      try (by apply (Hw' [] [])); try (destruct r2; discriminate).
  - pose proof (evolves_entries_Forall _ _ _ _ Hev (Forall_nil_2 _)) as Hk.
    apply entries_keys in Hk.
    destruct Hev as [(W & HW & HfW) _].
    exists ([ev_query; ev_describe; ev_rev_parse] ++ W), [], [], [].
    rewrite HW, !app_nil_r.
    repeat split; auto; try discriminate; try done; try (by apply Hw);
      try (by apply Hw').
  - pose proof (evolves_entries_Forall _ _ _ _ Hev (Forall_nil_2 _)) as Hk.
    pose proof (evolves_no_entry _ _ _ Hev') as Hsame. simpl in Hsame.
    rewrite <-Hsame in Hk, Hob. apply entries_keys in Hk.
    destruct Hev as [(W & HW & HfW) _], Hev' as [(R & HR & HfR) _].
    exists ([ev_query; ev_describe; ev_rev_parse] ++ W), [ev_prepublish], [], R.
    rewrite HR. simpl. rewrite HW, <-!app_assoc.
    repeat split; auto; try discriminate; try done; try (by apply Hw);
      try (by apply Hw'); try (destruct r2; discriminate).
  - pose proof (evolves_entries_Forall _ _ _ _ Hev (Forall_nil_2 _)) as Hk.
    pose proof (evolves_no_entry _ _ _ Hev') as Hsame. simpl in Hsame.
    rewrite <-Hsame in Hk, Hob. apply entries_keys in Hk.
    destruct Hev as [(W & HW & HfW) _], Hev' as [(R & HR & HfR) _].
    exists ([ev_query; ev_describe; ev_rev_parse] ++ W),
      (publish_step (discover cwd all)), [], R.
    rewrite HR. simpl. rewrite HW, <-!app_assoc.
    repeat split; auto; try discriminate; try done; try (by apply Hw);
      try (by apply Hw');
      try (intros _; exists (Ok tt), r2; rewrite Hpub; by auto).
  - pose proof (evolves_entries_Forall _ _ _ _ Hev (Forall_nil_2 _)) as Hk.
    pose proof (evolves_no_entry _ _ _ Hev') as Hsame. simpl in Hsame.
    rewrite <-Hsame in Hk, Hob. apply entries_keys in Hk.
    destruct Hev as [(W & HW & HfW) _], Hev' as [(R & HR & HfR) _].
    exists ([ev_query; ev_describe; ev_rev_parse] ++ W),
      (publish_step (discover cwd all)),
      (ev_dist_tag <$> sort (packagesToRelease s).*1), R.
    simpl in HR. rewrite <-Hsame in HR. rewrite HR, HW, <-!app_assoc.
    repeat split; auto; try discriminate; try done; try (by apply Hw);
      try (by apply Hw');
      try (intros _; exists rt, r2; rewrite Hpub; by auto).
Qed.

(** ** Telling the commands apart *)

Lemma has_at_app a b : has_at (a +:+ b) = has_at a || has_at b.
Proof.
  unfold has_at. induction a as [|c a IH]; simpl; [done|].
  by rewrite IH, orb_assoc.
Qed.

Lemma pkgFullName_has_at pkg vnew : has_at (pkgFullName pkg vnew) = true.
Proof.
  unfold pkgFullName. rewrite !has_at_app.
  replace (has_at "@") with true by done. by rewrite orb_true_r.
Qed.

Lemma key_of_not_publish packages key : key_of packages key → key ≠ "publish".
Proof.
  intros (pkg & vnew & _ & ->) Heq.
  pose proof (pkgFullName_has_at pkg vnew) as Hat. by rewrite Heq in Hat.
Qed.

Lemma is_publish_ev_publish packages : is_publish (ev_publish packages).
Proof.
  eexists. split; [done|]. unfold publish_args.
  rewrite elem_of_app. right. apply list_elem_of_here.
Qed.

Lemma query_not_publish ev : is_query ev → ¬ is_publish ev.
Proof.
  intros [->|[->| ->]] (args & [= <-] & Hin); by elem_cases Hin.
Qed.

Lemma worker_not_publish packages ev : worker_event packages ev → ¬ is_publish ev.
Proof.
  intros [ev' Hf|pkg vnew Hin] (args & Heq & Hp).
  - destruct Hf; discriminate.
  - injection Heq as <-. unfold view_args in Hp.
    apply elem_of_cons in Hp as [Hp|Hp]; [discriminate|].
    apply elem_of_cons in Hp as [Hp|Hp]; [|by elem_cases Hp].
    eapply key_of_not_publish; [|done]. by exists pkg, vnew.
Qed.

Lemma file_not_publish packages ev : file_event packages ev → ¬ is_publish ev.
Proof. intros Hf. by apply (worker_not_publish packages), file_event_worker. Qed.

Lemma dist_tag_not_publish packages key :
  key_of packages key → ¬ is_publish (ev_dist_tag key).
Proof.
  intros Hk (args & [= <-] & Hp). unfold dist_tag_args in Hp.
  apply elem_of_cons in Hp as [Hp|Hp]; [discriminate|].
  apply elem_of_cons in Hp as [Hp|Hp]; [discriminate|].
  apply elem_of_cons in Hp as [Hp|Hp]; [|by elem_cases Hp].
  by eapply key_of_not_publish.
Qed.

Lemma prepublish_not_publish : ¬ is_publish ev_prepublish.
Proof. intros (args & [= <-] & Hin). by elem_cases Hin. Qed.

Lemma postpublish_not_publish : ¬ is_publish ev_postpublish.
Proof. intros (args & [= <-] & Hin). by elem_cases Hin. Qed.

Lemma publish_args_head packages :
  head (publish_args packages) = Some "--workspace"
  ∨ head (publish_args packages) = Some "publish".
Proof. destruct packages; [by right|by left]. Qed.

Lemma ev_publish_neq_prepublish packages : ev_publish packages ≠ ev_prepublish.
Proof. intros [= Heq]. by destruct (publish_args_head packages) as [H|H];
  rewrite Heq in H. Qed.

Lemma ev_publish_neq_postpublish packages : ev_publish packages ≠ ev_postpublish.
Proof. intros [= Heq]. by destruct (publish_args_head packages) as [H|H];
  rewrite Heq in H. Qed.

Lemma query_not_hook ev : is_query ev → ¬ is_hook ev.
Proof. by intros [->|[->| ->]] [|]. Qed.

Lemma worker_not_hook packages ev : worker_event packages ev → ¬ is_hook ev.
Proof. intros [ev' []|pkg vnew Hin] [|]; discriminate. Qed.

Lemma file_not_hook packages ev : file_event packages ev → ¬ is_hook ev.
Proof. intros Hf. by apply (worker_not_hook packages), file_event_worker. Qed.

Lemma dist_tag_not_hook key : ¬ is_hook (ev_dist_tag key).
Proof. intros [|]; discriminate. Qed.

(** ** Counting events *)

Lemma count_event_app ev tr1 tr2 :
  count_event ev (tr1 ++ tr2) = (count_event ev tr1 + count_event ev tr2)%nat.
Proof. unfold count_event. by rewrite filter_app, length_app. Qed.

Lemma count_event_cons ev ev' tr :
  count_event ev (ev' :: tr)
  = ((if decide (ev' = ev) then 1 else 0) + count_event ev tr)%nat.
Proof. unfold count_event. rewrite filter_cons. by destruct (decide _). Qed.

Lemma count_event_none (P : Event → Prop) ev tr :
  Forall P tr → (∀ ev', P ev' → ev' ≠ ev) → count_event ev tr = 0%nat.
Proof.
  intros Htr HP. induction Htr as [|ev' tr Hev' _ IH]; [done|].
  rewrite count_event_cons, IH. destruct (decide _) as [Heq|]; [|done].
  by apply HP in Hev'.
Qed.

Lemma count_event_elem ev tr : ev ∈ tr ↔ (0 < count_event ev tr)%nat.
Proof.
  induction tr as [|ev' tr IH]; simpl.
  - rewrite elem_of_nil. unfold count_event. simpl. lia.
  - rewrite elem_of_cons, count_event_cons, IH.
    destruct (decide (ev' = ev)) as [->|Hne]; [split; [lia|auto]|].
    split; [intros [->|]; [done|lia]|]. intros. right. lia.
Qed.

Lemma tags_tag_event packages (keys : list string) tags :
  Forall (key_of packages) keys →
  tags = [] ∨ tags = ev_dist_tag <$> sort keys →
  Forall (tag_event packages) tags.
Proof.
  intros Hk [->| ->]; [constructor|]. apply Forall_fmap.
  rewrite sort_Permutation. eapply Forall_impl; [done|].
  intros key Hkey. by exists key.
Qed.

Lemma tag_not_publish packages ev : tag_event packages ev → ¬ is_publish ev.
Proof. intros (key & Hk & ->). by eapply dist_tag_not_publish. Qed.

Lemma tag_not_hook packages ev : tag_event packages ev → ¬ is_hook ev.
Proof. intros (key & Hk & ->). apply dist_tag_not_hook. Qed.

Lemma pre_not_publish packages ev :
  is_query ev ∨ worker_event packages ev → ¬ is_publish ev.
Proof. intros [?|?]; [by apply query_not_publish|by eapply worker_not_publish]. Qed.

Lemma pre_not_hook packages ev :
  is_query ev ∨ worker_event packages ev → ¬ is_hook ev.
Proof. intros [?|?]; [by apply query_not_hook|by eapply worker_not_hook]. Qed.

(** The hooks and the publish command occur in the publish step only. *)
Lemma grammar_counts packages pre hooks tags post ev :
  Forall (fun ev => is_query ev ∨ worker_event packages ev) pre →
  Forall (tag_event packages) tags →
  Forall (file_event packages) post →
  is_publish ev ∨ is_hook ev →
  count_event ev (pre ++ hooks ++ tags ++ post) = count_event ev hooks.
Proof.
  intros Hpre Htags Hpost Hev. rewrite !count_event_app.
  rewrite (count_event_none _ ev pre Hpre), (count_event_none _ ev tags Htags),
    (count_event_none _ ev post Hpost); [lia|..]; intros ev' H' ->; destruct Hev.
  - by eapply file_not_publish.
  - by eapply file_not_hook.
  - by eapply tag_not_publish.
  - by eapply tag_not_hook.
  - by eapply pre_not_publish.
  - by eapply pre_not_hook.
Qed.

Lemma count_publish_step packages :
  count_event ev_prepublish (publish_step packages) = 1%nat
  ∧ count_event (ev_publish packages) (publish_step packages) = 1%nat
  ∧ count_event ev_postpublish (publish_step packages) = 1%nat.
Proof.
  unfold publish_step. rewrite !count_event_cons.
  pose proof (ev_publish_neq_prepublish packages).
  pose proof (ev_publish_neq_postpublish packages).
  repeat case_decide; try done; try congruence.
Qed.

(** C8.  A run comes to an end (as soon as the schedule has six decisions
    for each package and six more), and whatever it publishes is published by
    the one batched command: every [npm ... publish ...] call of a run has,
    as its arguments, a [--workspace] entry for each discovered package
    followed by [publish --no-git-checks --tag ci]; there is at most one such
    call and at most one [npm run prepublishOnly]; the publish call comes
    right after the pre-publish hook; and a run that succeeds has made each
    exactly once. *)
Theorem publish_batched (lib : Lib) (w : World) (type : option string)
    (cwd : string) (sched : list nat) (disk0 : gmap string Manifest) :
  let packages := packages_of lib w cwd in
  ((6 * length packages + 6 ≤ length sched)%nat →
   ∃ r s, run lib w type cwd sched disk0 = Some (r, s))
  ∧ ∀ r s,
      run lib w type cwd sched disk0 = Some (r, s) →
      (∀ ev, ev ∈ trace s → is_publish ev →
         ev = EvSpawn "npm"
                (flat_map (fun pkg => ["--workspace"; pkg_location pkg]) packages
                 ++ ["publish"; "--no-git-checks"; "--tag"; "ci"]))
      ∧ (count_event (ev_publish packages) (trace s) ≤ 1)%nat
      ∧ (count_event ev_prepublish (trace s) ≤ 1)%nat
      ∧ (ev_publish packages ∈ trace s →
         ∃ before after,
           trace s = before ++ [ev_prepublish; ev_publish packages] ++ after)
      ∧ (r = Ok tt →
         count_event ev_prepublish (trace s) = 1%nat
         ∧ count_event (ev_publish packages) (trace s) = 1%nat).
Proof.
  intros packages. split; [apply run_halts|]. intros r s Hrun.
  apply run_shape, shape_trace in Hrun
    as (pre & hooks & tags & post & Htr & Hpre & Hhooks & Htags & Hpost & Hkeys
        & Hok & _).
  fold packages in Hpre, Hhooks, Hpost, Hkeys, Hok.
  pose proof (tags_tag_event _ _ _ Hkeys Htags) as Htags'.
  pose proof (count_publish_step packages) as (Hc1 & Hc2 & Hc3).
  assert (Hcount : ∀ ev, is_publish ev ∨ is_hook ev →
            count_event ev (trace s) = count_event ev hooks).
  { intros ev Hev. rewrite Htr. by eapply grammar_counts. }
  assert (Hpub : ev_publish packages ∈ trace s → hooks = publish_step packages).
  { rewrite count_event_elem, Hcount by (left; apply is_publish_ev_publish).
    destruct Hhooks as [->|[->| ->]]; [| |done].
    - unfold count_event. simpl. lia.
    - rewrite count_event_cons. pose proof (ev_publish_neq_prepublish packages).
      case_decide; [congruence|]. unfold count_event. simpl. lia. }
  split; [|split; [|split; [|split]]].
  - intros ev Hin Hp.
    assert (ev = ev_publish packages ∨ count_event ev hooks = 0%nat) as [->|H0];
      [|done|].
    { destruct Hhooks as [->|[->| ->]]; [by right| |].
      - right. rewrite count_event_cons. case_decide as Heq; [|done].
        subst ev. by apply prepublish_not_publish in Hp.
      - unfold publish_step. rewrite !count_event_cons.
        repeat case_decide; subst; auto; exfalso;
          first [ by apply prepublish_not_publish in Hp
                | by apply postpublish_not_publish in Hp ]. }
    apply count_event_elem in Hin. rewrite Hcount in Hin by auto. lia.
  - rewrite Hcount by (left; apply is_publish_ev_publish).
    destruct Hhooks as [->|[->| ->]]; [unfold count_event; simpl; lia| |lia].
    rewrite count_event_cons. case_decide; unfold count_event; simpl; lia.
  - rewrite Hcount by (right; by left).
    destruct Hhooks as [->|[->| ->]]; [unfold count_event; simpl; lia| |lia].
    rewrite count_event_cons. case_decide; unfold count_event; simpl; lia.
  - intros Hin. rewrite Htr, (Hpub Hin).
    by exists pre, (ev_postpublish :: tags ++ post).
  - intros Hr. rewrite !Hcount, (Hok Hr);
      [done|left; apply is_publish_ev_publish|right; by left].
Qed.

Lemma grammar_publish_step packages pre hooks tags post :
  Forall (fun ev => is_query ev ∨ worker_event packages ev) pre →
  (hooks = [] ∨ hooks = [ev_prepublish] ∨ hooks = publish_step packages) →
  Forall (tag_event packages) tags →
  Forall (file_event packages) post →
  ev_publish packages ∈ pre ++ hooks ++ tags ++ post →
  hooks = publish_step packages.
Proof.
  intros Hpre Hhooks Htags Hpost.
  rewrite count_event_elem, (grammar_counts packages) by
    (try done; left; apply is_publish_ev_publish).
  destruct Hhooks as [->|[->| ->]]; [| |done].
  - unfold count_event. simpl. lia.
  - rewrite count_event_cons. pose proof (ev_publish_neq_prepublish packages).
    case_decide; [congruence|]. unfold count_event. simpl. lia.
Qed.

Lemma npm_result_failed w args :
  code_of w "npm" args ≠ 0 → npm_result w args = Err npm_failed.
Proof. unfold npm_result. intros Hc. by apply Z.eqb_neq in Hc as ->. Qed.

(** The [try { publish } finally { postpublish }] block of the [ci] case,
    run while no task is in flight: the two commands complete one after the
    other, whatever the first one exits with. *)
Lemma publish_block w packages sched s :
  try_finally (await w (execPipe "npm" (publish_args packages)))
              (await w (execPipe "npm" ["run"; "postpublish"]))
              sched {| st := s; bg := [] |}
  = match sched with
    | _ :: _ :: sched' =>
        Some (publish_result w packages, sched',
              {| st := log ev_postpublish (log (ev_publish packages) s); bg := [] |})
    | _ => None
    end.
Proof.
  unfold try_finally. rewrite await_execPipe.
  destruct sched as [|n1 sched]; [done|].
  rewrite await_execPipe. destruct sched as [|n2 sched]; [done|].
  unfold publish_result, npm_result, npm_failed.
  by destruct (code_of w "npm" (publish_args packages) =? 0),
    (code_of w "npm" ["run"; "postpublish"] =? 0).
Qed.

(** C4.  The [try { publish } finally { postpublish }] block runs the hook
    right after the publish command, whatever that command exits with, and
    when the publish command fails the block throws the publish error once
    the hook is done ([execPipe] gives a failed hook an error with the same
    message).  In terms of whole runs, which come to an end as soon as the
    schedule has six decisions for each package and six more: whenever the
    batched publish command is run, with success or not, [npm run
    postpublish] is run exactly once and right after it; and when the publish
    command fails the process exits with an error, which is the publish error
    unless the restore of the outer [finally] fails in its turn, for then
    the file system error of the restore takes its place. *)
Theorem postpublish_hook (lib : Lib) (w : World) (type : option string)
    (cwd : string) (sched : list nat) (disk0 : gmap string Manifest) :
  let packages := packages_of lib w cwd in
  let publish := await w (execPipe "npm" (publish_args packages)) in
  let hook := await w (execPipe "npm" ["run"; "postpublish"]) in
  (∀ n1 n2 sched0 s0,
     try_finally publish hook (n1 :: n2 :: sched0) {| st := s0; bg := [] |}
     = Some (publish_result w packages, sched0,
             {| st := log ev_postpublish (log (ev_publish packages) s0);
                bg := [] |}))
  ∧ (code_of w "npm" (publish_args packages) ≠ 0 →
     publish_result w packages = Err npm_failed)
  ∧ ((6 * length packages + 6 ≤ length sched)%nat →
     ∃ r s, run lib w type cwd sched disk0 = Some (r, s))
  ∧ ∀ r s,
      run lib w type cwd sched disk0 = Some (r, s) →
      ev_publish packages ∈ trace s →
      count_event ev_postpublish (trace s) = 1%nat
      ∧ (∃ before after,
           trace s = before ++ [ev_publish packages; ev_postpublish] ++ after)
      ∧ (code_of w "npm" (publish_args packages) ≠ 0 →
         (∃ e, r = Err e)
         ∧ (r = Err npm_failed ∨ ∃ e, is_fs_error e ∧ r = Err e)).
Proof.
  intros packages publish hook.
  assert (Hfailed : code_of w "npm" (publish_args packages) ≠ 0 →
                    publish_result w packages = Err npm_failed).
  { intros Hcode. unfold publish_result. rewrite (npm_result_failed _ _ Hcode).
    by destruct (npm_result_cases w ["run"; "postpublish"]) as [->| ->]. }
  split; [intros n1 n2 sched0 s0; apply publish_block|].
  split; [done|]. split; [apply run_halts|]. intros r s Hrun Hin.
  apply run_shape, shape_trace in Hrun
    as (pre & hooks & tags & post & Htr & Hpre & Hhooks & Htags & Hpost & Hkeys
        & Hok & Hnotags & Hob & Hres & _).
  fold packages in Hpre, Hhooks, Hpost, Hkeys, Hok, Hnotags, Hob, Hres.
  pose proof (tags_tag_event _ _ _ Hkeys Htags) as Htags'.
  rewrite Htr in Hin. apply grammar_publish_step in Hin; [|done..].
  destruct (Hres Hin) as (r_tags & r_restore & Hr & Hrt & Hrr).
  pose proof (count_publish_step packages) as (_ & _ & Hc3).
  split; [|split].
  - rewrite Htr, (grammar_counts packages); [by rewrite Hin|done..|].
    right. by right.
  - rewrite Htr, Hin. exists (pre ++ [ev_prepublish]), (tags ++ post).
    by rewrite <-!app_assoc.
  - intros Hcode. rewrite (Hfailed Hcode) in Hr. rewrite Hr.
    destruct r_restore as [[]|e]; simpl.
    + split; [by eexists|by left].
    + split; [by eexists|]. right. exists e. auto.
Qed.

(** ** Discovery *)

Lemma discover_spec cwd all pkg :
  pkg ∈ discover cwd all
  ↔ pkg ∈ all
    ∧ pkg_private pkg = false
    ∧ pkg_path pkg ≠ cwd
    ∧ String.prefix "@ygg.tools/" (pkg_name pkg) = true.
Proof.
  unfold discover, discovered.
  rewrite list_elem_of_filter, Is_true_true, !andb_true_iff, !negb_true_iff.
  rewrite String.eqb_neq. tauto.
Qed.

(** C6.  The packages the script works on are exactly the workspace
    packages that are not private, do not sit at the working directory and
    have a name that starts with [@ygg.tools/]; and everything a run does
    after the workspace query is done for these packages only: manifest
    accesses, registry views and tag promotions are for discovered packages,
    and the publish command names their locations. *)
Theorem discovery_filter (lib : Lib) (w : World) (type : option string)
    (cwd : string) (sched : list nat) (disk0 : gmap string Manifest)
    (all : list Pkg) (r : Result unit) (s : State) :
  workspace_query lib w = Ok all →
  run lib w type cwd sched disk0 = Some (r, s) →
  let packages := filter (fun pkg => discovered cwd pkg) all in
  (∀ pkg, pkg ∈ packages
          ↔ pkg ∈ all
            ∧ pkg_private pkg = false
            ∧ pkg_path pkg ≠ cwd
            ∧ String.prefix "@ygg.tools/" (pkg_name pkg) = true)
  ∧ ∃ evs, trace s = ev_query :: evs ∧ Forall (later_event packages) evs.
Proof.
  intros Hq Hrun packages. split; [intros pkg; apply discover_spec|].
  apply run_shape, shape_trace in Hrun
    as (pre & hooks & tags & post & Htr & _ & Hhooks & Htags & Hpost & Hkeys
        & _ & _ & _ & _ & pre' & -> & Hpre).
  rewrite (packages_of_query _ _ _ _ Hq) in *. fold (discover cwd all) in packages.
  fold packages in Hpre, Hhooks, Hpost, Hkeys.
  pose proof (tags_tag_event _ _ _ Hkeys Htags) as Htags'.
  exists (pre' ++ hooks ++ tags ++ post). split; [done|].
  repeat (apply Forall_app; split).
  - eapply Forall_impl; [done|]. unfold later_event. intuition.
  - destruct Hhooks as [->|[->| ->]]; [constructor|..];
      repeat (apply Forall_cons; split; [|]); try apply Forall_nil_2;
      unfold later_event; do 3 right; left; unfold publish_step;
      rewrite !elem_of_cons; auto.
  - eapply Forall_impl; [done|]. unfold later_event. intuition.
  - eapply Forall_impl; [done|]. unfold later_event.
    intros ev Hev. do 2 right. left. by constructor.
Qed.

(** ** The registry check *)

Lemma will_set_bind {A B} w φ (t : Async A) (f : A → Async B) :
  (∀ a, will_set w φ (f a)) → will_set w φ (t ≫= f).
Proof.
  intros Hf. unfold mbind, Async_bind.
  induction t; simpl; auto.
Qed.

Lemma strict_ne_string_false v s : strict_ne_string v s = false ↔ v = JsString s.
Proof.
  destruct v; simpl; try (split; [discriminate|discriminate]).
  rewrite negb_false_iff, String.eqb_eq. split; [by intros ->|by intros [= ->]].
Qed.

Lemma bump_unfold lib gitVersion gitHead pkg vnew :
  semver_inc lib (pkg_version pkg) "prerelease" ("git." +:+ gitVersion) false = Some vnew →
  vnew ≠ "" →
  bump lib gitVersion gitHead pkg
  = changePackageOptions pkg (bump_options vnew gitHead)
    ≫= fun _ => check_online lib pkg vnew.
Proof.
  intros Hinc Hne. unfold bump. rewrite Hinc.
  by apply String.eqb_neq in Hne as ->.
Qed.

Section RegistryCheck.
Context (lib : Lib) (w : World) (pkg : Pkg) (vnew : string).

Let key : string := pkgFullName pkg vnew.
Let answer : SpawnResult := spawn_out w "npm" (view_args key).

Lemma check_online_not_found s json :
  code_of w "npm" (view_args key) ≠ 0 →
  JSON_parse lib (out answer) = Some json →
  error_code json = JsString "E404" →
  resume w (check_online lib pkg vnew) s = (Ret tt, set_candidate key pkg s).
Proof.
  intros Hc Hj He. unfold check_online, exec, mbind, Async_bind. simpl.
  fold key. fold (code_of w "npm" (view_args key)).
  apply Z.eqb_neq in Hc as ->. simpl. fold answer. rewrite Hj.
  fold (error_code json). by rewrite He.
Qed.

Lemma check_online_anomaly s :
  code_of w "npm" (view_args key) ≠ 0 →
  (∀ json, JSON_parse lib (out answer) = Some json →
           error_code json ≠ JsString "E404") →
  ∃ e, resume w (check_online lib pkg vnew) s = (Throw e, s).
Proof.
  intros Hc Hj. unfold check_online, exec, mbind, Async_bind. simpl.
  fold key. fold (code_of w "npm" (view_args key)).
  apply Z.eqb_neq in Hc as ->. simpl. fold answer.
  destruct (JSON_parse lib (out answer)) as [json|] eqn:Hp; [|by eexists].
  fold (error_code json).
  destruct (strict_ne_string (error_code json) "E404") eqn:Hs; [by eexists|].
  apply strict_ne_string_false in Hs. by apply Hj in Hs.
Qed.

Lemma check_online_published s :
  code_of w "npm" (view_args key) = 0 →
  resume w (check_online lib pkg vnew) s = (Ret tt, s).
Proof.
  intros Hc. unfold check_online, exec, mbind, Async_bind. simpl.
  fold key. fold (code_of w "npm" (view_args key)). by rewrite Hc.
Qed.

Lemma check_online_will_set json :
  code_of w "npm" (view_args key) ≠ 0 →
  JSON_parse lib (out answer) = Some json →
  error_code json = JsString "E404" →
  will_set w (fun k => k = key) (check_online lib pkg vnew).
Proof.
  intros Hc Hj He. unfold check_online, exec, mbind, Async_bind. simpl.
  fold key. fold (code_of w "npm" (view_args key)).
  apply Z.eqb_neq in Hc as ->. simpl. fold answer. rewrite Hj.
  fold (error_code json). rewrite He. simpl. by left.
Qed.

Lemma check_online_doomed :
  code_of w "npm" (view_args key) ≠ 0 →
  (∀ json, JSON_parse lib (out answer) = Some json →
           error_code json ≠ JsString "E404") →
  doomed w (check_online lib pkg vnew).
Proof.
  intros Hc Hj. unfold doomed, check_online, exec, mbind, Async_bind. simpl.
  fold key. fold (code_of w "npm" (view_args key)).
  apply Z.eqb_neq in Hc as ->. simpl. fold answer.
  destruct (JSON_parse lib (out answer)) as [json|] eqn:Hp; [|done].
  fold (error_code json).
  destruct (strict_ne_string (error_code json) "E404") eqn:Hs; [done|].
  apply strict_ne_string_false in Hs. by apply Hj in Hs.
Qed.

End RegistryCheck.

(** C3.  For a package with a new version [vnew], the version update
    consists of the manifest update followed by the registry check, and the
    answer to [npm view name@vnew] decides as follows.  A failure whose
    payload has the error code [E404] puts [name@vnew] into the candidate
    map; any other failure makes the task throw; a success leaves the map
    alone.  In terms of whole runs, which come to an end as soon as the
    schedule has six decisions for each package and six more: after a failure
    other than [E404] the run ends with an error and runs neither hook nor
    the publish command nor a tag promotion; after an [E404], the key is in
    the candidate map of every run that gets as far as the publish step, and
    is promoted by every run that succeeds. *)
Theorem registry_check (lib : Lib) (w : World) (pkg : Pkg) (vnew : string)
    (type : option string) (cwd : string) (sched : list nat)
    (disk0 : gmap string Manifest) :
  let key := pkgFullName pkg vnew in
  let answer := spawn_out w "npm" (view_args key) in
  let failed := code_of w "npm" (view_args key) ≠ 0 in
  let not_found :=
    ∃ json, JSON_parse lib (out answer) = Some json
            ∧ error_code json = JsString "E404" in
  semver_inc lib (pkg_version pkg) "prerelease" ("git." +:+ gitVersion_of w) false
  = Some vnew →
  vnew ≠ "" →
  pkg ∈ packages_of lib w cwd →
  bump lib (gitVersion_of w) (gitHead_of w) pkg
  = (changePackageOptions pkg (bump_options vnew (gitHead_of w))
     ≫= fun _ => check_online lib pkg vnew)
  ∧ (∀ s0, failed → not_found →
       resume w (check_online lib pkg vnew) s0 = (Ret tt, set_candidate key pkg s0))
  ∧ (∀ s0, failed → ¬ not_found →
       ∃ e, resume w (check_online lib pkg vnew) s0 = (Throw e, s0))
  ∧ (∀ s0, ¬ failed →
       resume w (check_online lib pkg vnew) s0 = (Ret tt, s0))
  ∧ ((6 * length (packages_of lib w cwd) + 6 ≤ length sched)%nat →
     ∃ r s, run lib w type cwd sched disk0 = Some (r, s))
  ∧ ∀ r s,
      run lib w type cwd sched disk0 = Some (r, s) →
      (failed → ¬ not_found →
         (∃ e, r = Err e)
         ∧ (ev_prepublish ∉ trace s)
         ∧ (ev_publish (packages_of lib w cwd) ∉ trace s)
         ∧ (ev_postpublish ∉ trace s)
         ∧ tag_calls (trace s) = [])
      ∧ (failed → not_found →
           (ev_prepublish ∈ trace s → key ∈ (packagesToRelease s).*1)
           ∧ (r = Ok tt → key ∈ tag_calls (trace s))).
Proof.
  intros key answer failed not_found Hinc Hne Hin.
  pose proof (bump_unfold lib _ (gitHead_of w) _ _ Hinc Hne) as Hbump.
  split; [done|]. split; [|split; [|split; [|split; [apply run_halts|]]]].
  { intros s0 Hf (json & Hj & He). by eapply check_online_not_found. }
  { intros s0 Hf Hnf. apply check_online_anomaly; [done|].
    intros json Hj He. apply Hnf. by exists json. }
  { intros s0 Hf. apply check_online_published.
    destruct (decide (code_of w "npm" (view_args key) = 0)); [done|].
    by destruct Hf. }
  intros r s Hrun.
  pose proof (run_shape _ _ _ _ _ _ _ _ Hrun) as Hshape.
  pose proof (shape_tag_calls _ _ _ _ _ _ _ Hshape) as [Htc Htok].
  apply shape_trace in Hshape
    as (pre & hooks & tags & post & Htr & Hpre & Hhooks & Htags & Hpost & Hkeys
        & Hok & Hnotags & Hob & Hres & _).
  pose proof (tags_tag_event _ _ _ Hkeys Htags) as Htags'.
  assert (Hcount : ∀ ev, is_publish ev ∨ is_hook ev →
            count_event ev (trace s) = count_event ev hooks).
  { intros ev Hev. rewrite Htr. by eapply grammar_counts. }
  split.
  - intros Hf Hnf.
    assert (hooks = []) as ->.
    { destruct (decide (hooks = [])) as [|Hne']; [done|].
      destruct (Hob Hne' pkg (fun _ => False) Hin) as (k & _ & []).
      rewrite Hbump. apply will_set_bind. intros _.
      apply check_online_doomed; [done|].
      intros json Hj He. apply Hnf. by exists json. }
    assert (tags = []) as -> by (apply Hnotags; by destruct (packages_of lib w cwd)).
    split; [|split; [|split; [|split]]].
    + destruct r as [[]|e]; [|by exists e]. by specialize (Hok eq_refl).
    + rewrite count_event_elem, Hcount by (right; by left).
      unfold count_event. simpl. lia.
    + rewrite count_event_elem, Hcount by (left; apply is_publish_ev_publish).
      unfold count_event. simpl. lia.
    + rewrite count_event_elem, Hcount by (right; by right).
      unfold count_event. simpl. lia.
    + rewrite Htr, !tag_calls_app. simpl.
      rewrite (tag_calls_file _ _ Hpost), app_nil_r.
      eapply tag_calls_none; [|exact Hpre].
      intros ev [[->|[->| ->]]|Hw]; [done..|]. by eapply tag_call_worker.
  - intros Hf (json & Hj & He).
    assert (Hkey : hooks ≠ [] → key ∈ (packagesToRelease s).*1).
    { intros Hne'. destruct (Hob Hne' pkg (fun k => k = key) Hin) as (k & Hk & ->);
        [|done].
      rewrite Hbump. apply will_set_bind. intros _.
      by eapply check_online_will_set. }
    split.
    + rewrite count_event_elem, Hcount by (right; by left).
      intros Hc. apply Hkey. intros ->. unfold count_event in Hc. simpl in Hc. lia.
    + intros Hr. rewrite (Htok Hr), sort_Permutation. apply Hkey.
      rewrite (Hok Hr). discriminate.
Qed.

(** ** Writing a manifest only when it differs *)

Lemma findIndex_differs packageJSON optionsNew :
  is_Some (findIndex
             (fun k => negb (bool_decide (manifest_get packageJSON k
                                          = options_get optionsNew k)))
             (Object_keys optionsNew))
  ↔ differs packageJSON optionsNew.
Proof.
  unfold differs. generalize (Object_keys optionsNew) as keys.
  induction keys as [|k keys IH]; simpl.
  - split; [by intros [? ?]|by intros ?%Exists_nil].
  - rewrite Exists_cons. case_bool_decide as Hk; simpl.
    + rewrite fmap_is_Some, IH. tauto.
    + split; [by left|by eexists].
Qed.

Lemma changePackageOptions_alone w pkg optionsNew packageJSON s :
  disk s !! manifest_path pkg = Some packageJSON →
  ∃ t' s',
    run_task w 2 (changePackageOptions pkg optionsNew) s = (t', s')
    ∧ pending t' = false
    ∧ trace s'
      = trace s ++ EvRead (manifest_path pkg)
          :: (if decide (differs packageJSON optionsNew)
              then [EvWrite (manifest_path pkg)
                      (Object_assign packageJSON optionsNew)
                      (write_ok w (manifest_path pkg)
                         (Object_assign packageJSON optionsNew))]
              else [])
    ∧ (¬ differs packageJSON optionsNew → disk s' = disk s ∧ t' = Ret None).
Proof.
  intros Hdisk. unfold changePackageOptions, readFile, writeFile, mbind, Async_bind.
  simpl. rewrite Hdisk. simpl.
  pose proof (findIndex_differs packageJSON optionsNew) as Hf.
  destruct (findIndex _ _) as [i|]; simpl.
  - assert (differs packageJSON optionsNew) as Hd by (apply Hf; by eexists).
    rewrite decide_True by done.
    destruct (write_ok w _ _); simpl; eexists _, _;
      (split; [done|]); (split; [done|]); (split; [simpl; by rewrite <-app_assoc|]); done.
  - assert (¬ differs packageJSON optionsNew) as Hd by (by intros [? ?]%Hf).
    rewrite decide_False by done. eexists _, _. done.
Qed.

(** The step that completes the read, whenever it is taken: the task goes on
    to the write, or is done. *)
Lemma changePackageOptions_read w pkg optionsNew packageJSON s :
  disk s !! manifest_path pkg = Some packageJSON →
  resume w (changePackageOptions pkg optionsNew) s
  = (if decide (differs packageJSON optionsNew)
     then writeFile (manifest_path pkg) (Object_assign packageJSON optionsNew);;
          Ret (Some ((fun k => (k, pkg_get pkg k)) <$> Object_keys optionsNew))
     else Ret None,
     log (EvRead (manifest_path pkg)) s).
Proof.
  intros Hdisk. unfold changePackageOptions, readFile, writeFile, mbind, Async_bind.
  simpl. rewrite Hdisk. simpl.
  pose proof (findIndex_differs packageJSON optionsNew) as Hf.
  destruct (findIndex _ _) as [i|]; simpl.
  - rewrite decide_True; [done|]. apply Hf. by eexists.
  - rewrite decide_False; [done|]. by intros [? ?]%Hf.
Qed.

Lemma advance_bind_ret {A B} (t : Async A) (b : B) s :
  advance (bind t (fun _ => Ret b)) s
  = let '(t', s') := advance t s in (bind t' (fun _ => Ret b), s').
Proof. revert s. induction t; simpl; intros s; done. Qed.

Lemma pending_bind_ret {A B} (t : Async A) (b : B) :
  pending (bind t (fun _ => Ret b)) = pending t.
Proof. by destruct t. Qed.

Lemma resume_bind_ret {A B} w (t : Async A) (b : B) s :
  resume w (bind t (fun _ => Ret b)) s
  = let '(t', s') := resume w t s in (bind t' (fun _ => Ret b), s').
Proof.
  destruct t as [| |key value t| | |fname data k]; simpl;
    first [ done
          | apply advance_bind_ret
          | apply (advance_bind_ret (MapSet key value t))
          | destruct (write_ok w fname data); apply advance_bind_ret ].
Qed.

Lemma run_task_bind_ret {A B} w fuel (t : Async A) (b : B) s :
  run_task w fuel (bind t (fun _ => Ret b)) s
  = let '(t', s') := run_task w fuel t s in (bind t' (fun _ => Ret b), s').
Proof.
  revert t s. induction fuel as [|fuel IH]; intros t s; simpl; [done|].
  rewrite pending_bind_ret. destruct (pending t); [|done].
  rewrite resume_bind_ret. destruct (resume w t s) as [t1 s1]. apply IH.
Qed.

(** C5.  [changePackageOptions], on a manifest that is there: when the read
    completes, in whatever interleaving, the task goes on to write the file
    if some proposed property differs from the one read, and is done without
    a write otherwise.  Run on its own, it reads the manifest and then writes
    it once or not at all accordingly, and when it does not write, file and
    disk stay as they were.  A package for which [semver.inc] yields no new
    version is done at once: the version update does not touch its manifest.
    The restore is the same function applied to the version and revision of
    the package, so it writes under the same condition. *)
Theorem write_only_if_different (lib : Lib) (w : World) (pkg : Pkg)
    (optionsNew : Options) (packageJSON : Manifest) (s : State) :
  disk s !! manifest_path pkg = Some packageJSON →
  let fname := manifest_path pkg in
  let writes (o : Options) : list Event :=
    if decide (differs packageJSON o)
    then [EvWrite fname (Object_assign packageJSON o)
            (write_ok w fname (Object_assign packageJSON o))]
    else [] in
  resume w (changePackageOptions pkg optionsNew) s
  = (if decide (differs packageJSON optionsNew)
     then writeFile fname (Object_assign packageJSON optionsNew);;
          Ret (Some ((fun k => (k, pkg_get pkg k)) <$> Object_keys optionsNew))
     else Ret None,
     log (EvRead fname) s)
  ∧ (∃ t' s',
       run_task w 2 (changePackageOptions pkg optionsNew) s = (t', s')
       ∧ pending t' = false
       ∧ trace s' = trace s ++ EvRead fname :: writes optionsNew
       ∧ (¬ differs packageJSON optionsNew → disk s' = disk s ∧ t' = Ret None))
  ∧ (∀ gitVersion gitHead,
       let vnew := semver_inc lib (pkg_version pkg) "prerelease"
                     ("git." +:+ gitVersion) false in
       vnew = None ∨ vnew = Some "" →
       bump lib gitVersion gitHead pkg = Ret tt
       ∧ run_task w 3 (bump lib gitVersion gitHead pkg) s = (Ret tt, s))
  ∧ (∃ t' s',
       run_task w 2 (restore pkg) s = (t', s')
       ∧ pending t' = false
       ∧ trace s' = trace s ++ EvRead fname :: writes (restore_options pkg)
       ∧ (¬ differs packageJSON (restore_options pkg) →
          disk s' = disk s ∧ t' = Ret tt)).
Proof.
  intros Hdisk fname writes. split; [|split; [|split]].
  - by apply changePackageOptions_read.
  - by apply changePackageOptions_alone.
  - intros gitVersion gitHead vnew Hv. unfold bump. fold vnew.
    by destruct Hv as [-> | ->].
  - destruct (changePackageOptions_alone w pkg (restore_options pkg) _ _ Hdisk)
      as (t' & s' & Hrun & Hpend & Htr & Hsame).
    unfold restore. fold (restore_options pkg). unfold mbind, Async_bind.
    rewrite run_task_bind_ret, Hrun. eexists _, _. split; [done|].
    rewrite pending_bind_ret. split; [done|]. split; [done|].
    intros Hd. destruct (Hsame Hd) as [-> ->]. done.
Qed.

(** ** The mode check *)

(** C2, as amended.  With a [--type] other than [ci], or none, the run comes
    to an end (as soon as the schedule has six decisions for each package and
    six more), and it ends with an error.  The only commands it spawns are
    the workspace query and the two [git] commands, which come before the
    mode is looked at (it runs no registry view, no hook, no publish and no
    tag promotion).  Apart from these it only accesses the manifests of the
    discovered packages, in the restore step.  When the three commands
    succeed, the error is the configuration error of the [default:] branch
    unless a manifest access of the restore fails. *)
Theorem mode_check (lib : Lib) (w : World) (type : option string)
    (cwd : string) (sched : list nat) (disk0 : gmap string Manifest) :
  type ≠ Some "ci" →
  let packages := packages_of lib w cwd in
  ((6 * length packages + 6 ≤ length sched)%nat →
   ∃ r s, run lib w type cwd sched disk0 = Some (r, s))
  ∧ ∀ r s,
      run lib w type cwd sched disk0 = Some (r, s) →
      (∃ e, r = Err e)
      ∧ (∀ ev, ev ∈ trace s → is_spawn ev → is_query ev)
      ∧ (∃ n post,
           trace s = take n [ev_query; ev_describe; ev_rev_parse] ++ post
           ∧ (1 ≤ n ≤ 3)%nat
           ∧ Forall (file_event packages) post
           ∧ ((n < 3)%nat → post = []))
      ∧ (∀ all,
           workspace_query lib w = Ok all →
           code_of w "git" describe_args = 0 →
           code_of w "git" rev_parse_args = 0 →
           (r = Err type_required ∨ ∃ e, is_fs_error e ∧ r = Err e)
           ∧ ∃ post,
               trace s = [ev_query; ev_describe; ev_rev_parse] ++ post
               ∧ Forall (file_event packages) post).
Proof.
  intros Hty packages. split; [apply run_halts|]. intros r s Hrun.
  assert (Hfile : ∀ post ev,
            Forall (file_event packages) post → ev ∈ post → ¬ is_spawn ev).
  { intros post ev Hpost Hin (c & a & ->). rewrite Forall_forall in Hpost.
    specialize (Hpost _ Hin). inversion Hpost. }
  assert (Hspawn : ∀ n post,
            Forall (file_event packages) post →
            ∀ ev,
              ev ∈ take n [ev_query; ev_describe; ev_rev_parse] ++ post →
              is_spawn ev → is_query ev).
  { intros n post Hpost ev [Hin|Hin]%elem_of_app Hsp;
      [|by eapply Hfile in Hsp].
    apply elem_of_take in Hin as (i & Hi & _).
    apply list_elem_of_lookup_2 in Hi. unfold is_query. by elem_cases Hi; auto. }
  apply run_shape in Hrun.
  inversion Hrun as
    [ e Hq | all Hq Hd | all Hq Hd Hp
    | all r2 s' Hq Hd Hp Hty' Hev Hr2
    | | | | ]; subst; try done; subst packages.
  - split; [by eexists|]. split; [by apply (Hspawn 1%nat [] (Forall_nil_2 _))|].
    split; [exists 1%nat, []; repeat split; auto; lia|].
    intros all Hq'. rewrite Hq in Hq'. discriminate.
  - split; [by eexists|]. split; [by apply (Hspawn 2%nat [] (Forall_nil_2 _))|].
    split; [exists 2%nat, []; repeat split; auto; lia|].
    intros all' _ Hd'. done.
  - split; [by eexists|]. split; [by apply (Hspawn 3%nat [] (Forall_nil_2 _))|].
    split; [exists 3%nat, []; repeat split; auto; lia|].
    intros all' _ _ Hp'. done.
  - rewrite (packages_of_query _ _ _ _ Hq) in *.
    destruct Hev as [(post & Htr & Hpost) _]. simpl in Htr.
    split; [destruct r2; by eexists|].
    split; [rewrite Htr; by apply (Hspawn 3%nat post)|].
    split; [exists 3%nat, post; repeat split; auto; lia|].
    intros all' _ _ _. split; [|by exists post].
    destruct r2 as [[]|e]; [by left|]. right. exists e. auto.
Qed.

(** * The restore *)

Lemma advance_disk {A} (t : Async A) s t' s' :
  advance t s = (t', s') → disk s' = disk s.
Proof.
  revert s. induction t as [| | ? ? ? IH | | |]; simpl; intros s Heq;
    try by injection Heq as <- <-.
  by apply IH in Heq.
Qed.

Lemma restores_advance pkg (t : Task) s : restores pkg t → advance t s = (t, s).
Proof. by destruct t. Qed.

Lemma restore_restores pkg : restores pkg (restore pkg).
Proof.
  unfold restore, changePackageOptions, readFile, writeFile, mbind, Async_bind.
  simpl. split.
  - intros [m|]; simpl; [|done].
    repeat case_bool_decide; simpl; try done; repeat split; try done; by intros [].
  - intros d. destruct (d !! manifest_path pkg) as [m|] eqn:Hm; simpl; [|done].
    repeat case_bool_decide; simpl; try done. intros _. by exists m.
Qed.

Lemma restored_stable packages pkg p data d :
  agree packages → pkg ∈ packages → p ∈ packages →
  m_version data = pkg_version p → m_gitHead data = pkg_gitHead p →
  restored pkg d → restored pkg (<[manifest_path p := data]> d).
Proof.
  intros Hag Hin Hp Hv Hg (m & Hm & Hmv & Hmg). unfold restored.
  destruct (decide (manifest_path p = manifest_path pkg)) as [Heq|Hne].
  - rewrite Heq, lookup_insert_eq. destruct (Hag p pkg Hp Hin Heq) as [? ?].
    exists data. split; [done|]. split; congruence.
  - rewrite lookup_insert_ne by done. by exists m.
Qed.

Lemma restore_step_stable packages pkg d d' :
  agree packages → pkg ∈ packages →
  restore_step packages d d' → restored pkg d → restored pkg d'.
Proof.
  intros Hag Hin [->|(p & data & Hp & Hv & Hg & ->)]; [done|].
  by eapply restored_stable.
Qed.

Lemma in_restore_stable packages pkg t d d' :
  agree packages → restore_step packages d d' →
  in_restore packages d pkg t → in_restore packages d' pkg t.
Proof.
  intros Hag Hstep (Hin & Hr & Hf). split; [done|]. split; [done|].
  intros Hful. eapply restore_step_stable; eauto.
Qed.

Section RestoreFacts.
Context (w : World).

Lemma resume_not_write {A} Q (t : Async A) s t' s' :
emits_susp not_write Q t → resume w t s = (t', s') → disk s' = disk s.
Proof.
destruct t as [| | key value k | c a k | f k | f d k]; simpl; intros Ht Heq.
- by injection Heq as <- <-.
- by injection Heq as <- <-.
- by apply advance_disk in Heq.
- by apply advance_disk in Heq.
- by apply advance_disk in Heq.
- destruct Ht as [Hw _]. destruct (Hw true).
Qed.

Lemma resume_nth_not_write Q n (ts : list Task) s ts' s' :
Forall (emits_susp not_write Q) ts → resume_nth w n ts s = (ts', s') →
disk s' = disk s.
Proof.
revert n s ts' s'. induction ts as [|t ts IH]; simpl; intros n s ts' s' Hts Heq.
- by injection Heq as <- <-.
- apply Forall_cons in Hts as [Ht Hts]. destruct (pending t).
  + destruct n as [|n].
    * destruct (resume w t s) as [t1 s1] eqn:Hr. injection Heq as <- <-.
      by eapply resume_not_write.
    * destruct (resume_nth w n ts s) as [ts1 s1] eqn:Hr. injection Heq as <- <-.
      by eapply IH.
  + destruct (resume_nth w n ts s) as [ts1 s1] eqn:Hr. injection Heq as <- <-.
    by eapply IH.
Qed.

Lemma resume_in_restore packages pkg (t : Task) s t' s' :
in_restore packages (disk s) pkg t → resume w t s = (t', s') →
in_restore packages (disk s') pkg t'
∧ restore_step packages (disk s) (disk s').
Proof.
intros (Hin & Hr & Hf) Heq.
destruct t as [[]| | key value k | c a k | f k | f d k]; simpl in Hr, Heq;
  try done.
- injection Heq as <- <-. split; [done|by left].
- injection Heq as <- <-. split; [done|by left].
- destruct Hr as [Hk Hd]. rewrite (restores_advance pkg) in Heq by apply Hk.
  injection Heq as <- <-. simpl. split; [|by left].
  split; [done|]. split; [done|]. apply Hd.
- destruct Hr as (-> & Hv & Hg & Hfalse & Hk).
  destruct (write_ok w _ d); rewrite (restores_advance pkg) in Heq by apply Hk;
    injection Heq as <- <-; simpl.
  + split; [|right; by exists pkg, d].
    split; [done|]. split; [done|]. intros _.
    exists d. by rewrite lookup_insert_eq.
  + split; [|by left]. split; [done|]. split; [done|]. by rewrite Hfalse.
Qed.

Lemma resume_nth_in_restore packages n pkgs (ts : list Task) s ts' s' :
agree packages →
Forall2 (in_restore packages (disk s)) pkgs ts →
resume_nth w n ts s = (ts', s') →
Forall2 (in_restore packages (disk s')) pkgs ts'
∧ restore_step packages (disk s) (disk s').
Proof.
intros Hag Hts. revert n ts' s'.
induction Hts as [|pkg t pkgs ts Ht Hts IH]; simpl; intros n ts' s' Heq.
- injection Heq as <- <-. split; [constructor|by left].
- destruct (pending t).
  + destruct n as [|n].
    * destruct (resume w t s) as [t1 s1] eqn:Hr. injection Heq as <- <-.
      destruct (resume_in_restore _ _ _ _ _ _ Ht Hr) as [Ht1 Hstep].
      split; [|done]. constructor; [done|].
      eapply Forall2_impl; [done|]. intros p t0. by apply in_restore_stable.
    * destruct (resume_nth w n ts s) as [ts1 s1] eqn:Hr. injection Heq as <- <-.
      destruct (IH _ _ _ Hr) as [Hts1 Hstep]. split; [|done].
      constructor; [|done]. by eapply in_restore_stable.
  + destruct (resume_nth w n ts s) as [ts1 s1] eqn:Hr. injection Heq as <- <-.
    destruct (IH _ _ _ Hr) as [Hts1 Hstep]. split; [|done].
    constructor; [|done]. by eapply in_restore_stable.
Qed.

Lemma fulfilled_restored packages d pkgs (ts : list Task) :
Forall2 (in_restore packages d) pkgs ts → forallb fulfilled ts = true →
Forall (fun pkg => restored pkg d) pkgs.
Proof.
induction 1 as [|pkg t pkgs ts (_ & _ & Hf) Hts IH]; simpl; [done|].
intros [Ht Hall]%andb_true_iff. constructor; auto.
Qed.

(** When the restore fan-out is fulfilled while nothing else writes, every
  manifest carries the version and revision of its record. *)
Lemma all_loop_restores packages pkgs (fg : list Task) sched c sched' c' :
agree packages →
Forall2 (in_restore packages (disk (st c))) pkgs fg →
Forall (emits_susp not_write any_entry) (bg c) →
all_loop w fg sched c = Some (Ok tt, sched', c') →
Forall (fun pkg => restored pkg (disk (st c'))) pkgs.
Proof.
intros Hag. revert fg c.
induction sched as [|n sched IH]; intros fg c Hfg Hbg; simpl.
- destruct (first_rejection fg); [done|].
  destruct (forallb fulfilled fg) eqn:Hful; [|done].
  intros [= <- <-]. by eapply fulfilled_restored.
- destruct (first_rejection fg); [done|].
  destruct (forallb fulfilled fg) eqn:Hful.
  { intros [= <- <-]. by eapply fulfilled_restored. }
  destruct (_ <? _)%nat.
  + destruct (resume_nth w _ fg (st c)) as [fg1 s1] eqn:Hr.
    destruct (resume_nth_in_restore _ _ _ _ _ _ _ Hag Hfg Hr) as [Hfg1 _].
    by apply IH.
  + destruct (resume_nth w _ (bg c) (st c)) as [bg1 s1] eqn:Hr.
    pose proof (resume_nth_not_write _ _ _ _ _ _ Hbg Hr) as Hd.
    apply (resume_nth_spec w not_write any_entry) in Hr as [Hbg1 _]; [|done].
    apply IH; simpl; [by rewrite Hd|done].
Qed.

Lemma start_all_restore (packages : list Pkg) s :
start_all (restore <$> packages) s = (restore <$> packages, s).
Proof.
induction packages as [|pkg packages IH]; [done|].
rewrite fmap_cons. cbn [start_all].
rewrite (restores_advance pkg) by apply restore_restores. by rewrite IH.
Qed.

Lemma Promise_all_restores packages sched c sched' c' :
agree packages →
Forall (emits_susp not_write any_entry) (bg c) →
Promise_all w (restore <$> packages) sched c = Some (Ok tt, sched', c') →
Forall (fun pkg => restored pkg (disk (st c'))) packages.
Proof.
intros Hag Hbg. unfold Promise_all. rewrite start_all_restore. intros Hl.
eapply (all_loop_restores packages) in Hl; [done|done| |done].
simpl. clear Hl. apply Forall2_fmap_r, Forall2_same_length_lookup_2; [done|].
intros i p1 p2 H1 H2. simplify_eq. split; [by eapply list_elem_of_lookup_2|].
split; [apply restore_restores|done].
Qed.

End RestoreFacts.

(** ** The restore in a run *)

Lemma restored_agree packages d :
  (∀ pkg, pkg ∈ packages → restored pkg d) → agree packages.
Proof.
  intros Hd p1 p2 Hp1 Hp2 Heq.
  destruct (Hd _ Hp1) as (m1 & Hm1 & <- & <-).
  destruct (Hd _ Hp2) as (m2 & Hm2 & <- & <-).
  rewrite Heq in Hm1. by simplify_eq.
Qed.

Section RestoreRun.
Context (lib : Lib) (w : World).

(** In a run in which the version update is not rejected (the script gets as
  far as the pre-publish hook, or the mode is not [ci]) and no manifest
  access of the restore fails, the manifests end with the version and
  revision they had when the workspace was queried. *)
Lemma release_restores type cwd sched s0 r sched' c' :
release lib w type cwd sched {| st := s0; bg := [] |} = Some (r, sched', c') →
ev_prepublish ∉ trace s0 →
type ≠ Some "ci" ∨ ev_prepublish ∈ trace (st c') →
(∀ e, r = Err e → ¬ is_fs_error e) →
(∀ pkg, pkg ∈ packages_of lib w cwd → restored pkg (disk s0)) →
∀ pkg, pkg ∈ packages_of lib w cwd → restored pkg (disk (st c')).
Proof.
intros Hrel Hnew Hup Hfs Hd0. unfold release in Hrel.
apply M_bind_inv in Hrel as [(all & sched1 & c1 & Hq & Hrel)|(e & Hq & ->)];
  rewrite await_npm in Hq; (destruct sched as [|n0 sched]; [done|]);
  change (["query"; ".workspace"] ++ ["--json"]) with query_args in Hq;
  injection Hq as Hq <- <-; fold (workspace_query lib w) in Hq;
  [|done].
rewrite (packages_of_query _ _ _ _ Hq) in *.
apply M_bind_inv in Hrel as [(d & sched2 & c2 & Hd & Hrel)|(e & Hd & ->)];
  rewrite await_exec in Hd; (destruct sched as [|n1 sched]; [done|]);
  [|done].
injection Hd as <- <- <-. cbn [code stdout stderr no_options opt_stdout_pipe
                               opt_stderr_pipe] in Hrel.
fold describe_args in Hrel.
destruct (code_of w "git" describe_args =? 0) eqn:Hcd; cbn [negb] in Hrel.
2:{ by injection Hrel as <- <- <-. }
apply M_bind_inv in Hrel as [(p & sched3 & c3 & Hp & Hrel)|(e & Hp & ->)];
  rewrite await_exec in Hp; (destruct sched as [|n2 sched]; [done|]);
  [|done].
injection Hp as <- <- <-. cbn [code stdout stderr no_options opt_stdout_pipe
                               opt_stderr_pipe] in Hrel.
fold rev_parse_args in Hrel.
destruct (code_of w "git" rev_parse_args =? 0) eqn:Hcp; cbn [negb] in Hrel.
2:{ by injection Hrel as <- <- <-. }
fold (gitVersion_of w) (gitHead_of w) (discover cwd all) in Hrel.
change (log (EvSpawn "git" rev_parse_args)
          (log (EvSpawn "git" describe_args) (log (EvSpawn "npm" query_args) s0)))
  with (queried s0) in Hrel.
set (packages := discover cwd all) in *.
apply try_finally_inv in Hrel as (r1 & sched4 & c4 & r2 & Hbody & Hfin & ->).
assert (Forall (emits_susp not_write any_entry) (bg c4)) as Hbg.
{ destruct (decide (type = Some "ci")) as [Hty|Hty].
  - destruct Hup as [?|Hup]; [done|].
    apply M_bind_inv in Hbody as [([] & sched5 & c5 & Hci & Htag)|(e & Hci & ->)].
    + apply ci_spec in Hci as (s1 & Hev & Hcases); [|done].
      destruct Hcases as [([e He] & _)|(Hbg5 & _)]; [done|].
      apply M_bind_inv in Htag as [(keys & sched6 & c6 & Hk & Htag)|(e & Hk & _)];
        [|done].
      injection Hk as <- <- <-.
      apply tag_phase in Htag as (_ & _ & Hbg4 & _); [|done].
      eapply Forall_impl; [done|]. intros t.
      apply emits_susp_mono; [by intros ? []|by intros ?? []].
    + apply ci_spec in Hci as (s1 & Hev & Hcases); [|done]. simpl in Hev.
      destruct Hcases as [(_ & Hst & Hbg4)|(Hbg4 & _)]; [|by rewrite Hbg4].
      (* the update was rejected: the hook is not run *)
      eapply (restore_phase w (worker_event packages) (candidate_of packages))
        in Hfin as [Hev' _]; [|by constructor|done].
      rewrite Hst in Hev'.
      destruct (evolves_trans _ _ _ _ _ Hev Hev') as [(evs & Htr & Hevs) _].
      rewrite Htr in Hup. simpl in Hup.
      rewrite <-!app_assoc in Hup. simpl in Hup.
      apply elem_of_app in Hup as [?|Hup]; [done|].
      apply elem_of_cons in Hup as [?|Hup]; [done|].
      apply elem_of_cons in Hup as [?|Hup]; [done|].
      apply elem_of_cons in Hup as [?|Hup]; [done|].
      rewrite Forall_forall in Hevs.
      destruct (worker_not_hook packages ev_prepublish); [by apply Hevs|by left].
  - apply M_bind_inv in Hbody as [(? & ? & ? & Habs & _)|(e & Hthrow & ->)];
      [done|].
    injection Hthrow as <- <- <-. constructor. }
assert (r2 = Ok tt) as ->.
{ destruct r2 as [[]|e]; [done|].
  eapply (restore_phase w (fun _ => True) any_entry) in Hfin as [_ Hr2];
    [|done|].
  - destruct (Hfs e eq_refl). by apply Hr2.
  - eapply Forall_impl; [done|]. intros t.
    by apply emits_susp_mono. }
eapply Promise_all_restores in Hfin; [|by eapply restored_agree|done].
rewrite Forall_forall in Hfin. exact Hfin.
Qed.

Lemma run_restores type cwd sched disk0 r s :
run lib w type cwd sched disk0 = Some (r, s) →
type ≠ Some "ci" ∨ ev_prepublish ∈ trace s →
(∀ e, r = Err e → ¬ is_fs_error e) →
(∀ pkg, pkg ∈ packages_of lib w cwd → restored pkg disk0) →
∀ pkg, pkg ∈ packages_of lib w cwd → restored pkg (disk s).
Proof.
unfold run. destruct (release _ _ _ _ _ _) as [[[r' sched'] c']|] eqn:Hrel; [|done].
intros [= <- <-] Hup Hfs Hd0.
apply (release_restores _ _ _ _ _ _ _ Hrel); simpl; [|done..].
by intros ?%elem_of_nil.
Qed.

End RestoreRun.

(** * The script at work on the small workspace *)

Section Examples.
Import Fixture.

(** The run without [--type]: three commands have been spawned and both
    manifests read by the time the process exits with the configuration
    error. *)
Lemma mode_check_counterexample :
  run lib world_ok None "/ws" in_order disk0
  = Some (Err type_required, final_no_type)
  ∧ trace final_no_type
    = [EvSpawn "npm" ["query"; ".workspace"; "--json"];
       EvSpawn "git" ["describe"; "--always"; "--tags"];
       EvSpawn "git" ["rev-parse"; "HEAD"];
       EvRead "/ws/b/package.json";
       EvRead "/ws/a/package.json"].
Proof. split; vm_compute; reflexivity. Qed.

Lemma mode_check_witness :
  None ≠ Some "ci"
  ∧ (6 * length (packages_of lib world_ok "/ws") + 6 ≤ length in_order)%nat
  ∧ (∃ r s, run lib world_ok None "/ws" in_order disk0 = Some (r, s))
  ∧ run lib world_ok None "/ws" in_order disk0
    = Some (Err type_required, final_no_type)
  ∧ ∀ ev, ev ∈ trace final_no_type → is_spawn ev → is_query ev.
Proof.
  assert (H1 : (None : option string) ≠ Some "ci") by discriminate.
  assert (H2 : run lib world_ok None "/ws" in_order disk0
               = Some (Err type_required, final_no_type))
    by (vm_compute; reflexivity).
  assert (H3 : (6 * length (packages_of lib world_ok "/ws") + 6
                ≤ length in_order)%nat) by (vm_compute; lia).
  split; [exact H1|]. split; [exact H3|].
  split; [exact (proj1 (mode_check lib world_ok None "/ws" in_order disk0 H1) H3)|].
  split; [exact H2|].
  exact (proj1 (proj2 (proj2 (mode_check lib world_ok None "/ws" in_order disk0 H1)
                         (Err type_required) final_no_type H2))).
Defined.

(** C1, on the run in which the new version of [pkgB] cannot be written.
    The claim is that every manifest ends with the version and revision it
    started with unless a restoring write failed.  Here the failed update
    of [pkgB] rejects the fan-out, and the restore runs while the write of
    [pkgA] is still in flight: it finds the manifest of [pkgA] as it was
    and leaves it alone, and the write then goes through.  No write of the
    restore fails (it makes none), and the process exits with the manifest
    of [pkgA] at the new version.  ([run_restores] has the invariant for
    the runs in which the update is not rejected.) *)
Lemma restore_race :
  run lib world_update_fails (Some "ci") "/ws" race disk0
  = Some (Err (FsError "/ws/b/package.json"), final_race)
  ∧ disk0 !! manifest_path pkgA = Some (manifest "1.0.0")
  ∧ disk final_race !! manifest_path pkgA
    = Some (bumped "1.0.0-git.v3-5-gabc123")
  ∧ trace final_race
    = [EvSpawn "npm" ["query"; ".workspace"; "--json"];
       EvSpawn "git" ["describe"; "--always"; "--tags"];
       EvSpawn "git" ["rev-parse"; "HEAD"];
       EvRead "/ws/b/package.json";
       EvRead "/ws/a/package.json";
       EvWrite "/ws/b/package.json" (bumped "2.0.0-git.v3-5-gabc123") false;
       EvRead "/ws/a/package.json";
       EvWrite "/ws/a/package.json" (bumped "1.0.0-git.v3-5-gabc123") true;
       EvSpawn "npm" ["view"; keyA; "name"; "--json"];
       EvRead "/ws/b/package.json"].
Proof. repeat split; vm_compute; reflexivity. Qed.

(** Under the scheduler that lets every task finish before the next one,
    the same failure is restored from. *)
Lemma restore_in_order :
  ∃ s, run lib world_update_fails (Some "ci") "/ws" in_order disk0
       = Some (Err (FsError "/ws/b/package.json"), s)
       ∧ disk s = disk0.
Proof. eexists. split; vm_compute; reflexivity. Qed.

(** Publishing fails after the update of both packages: the restore brings
    both manifests back. *)
Lemma restore_after_failed_publish :
  ∀ pkg, pkg ∈ packages_of lib world_publish_fails "/ws" →
         restored pkg (disk final_publish_fails).
Proof.
  apply (run_restores lib world_publish_fails (Some "ci") "/ws" in_order disk0
           (Err npm_failed)).
  - vm_compute; reflexivity.
  - right. vm_compute. do 9 apply list_elem_of_further. apply list_elem_of_here.
  - intros e [= <-] [fname Hf]. discriminate.
  - intros pkg Hin. vm_compute in Hin. elem_cases Hin; subst pkg.
    + exists (manifest "2.0.0"). split; [vm_compute; reflexivity|done].
    + exists (manifest "1.0.0"). split; [vm_compute; reflexivity|done].
Qed.

(** Publishing fails and the manifest of [pkgA] cannot be written back:
    the hook is run, the publish error is thrown on, and the error of the
    restore takes its place in the outer [finally]. *)
Lemma restore_error_masks :
  run lib world_restore_fails (Some "ci") "/ws" in_order disk0
  = Some (Err (FsError "/ws/a/package.json"), final_restore_fails)
  ∧ code_of world_restore_fails "npm" (publish_args [pkgB; pkgA]) = 1
  ∧ count_event ev_postpublish (trace final_restore_fails) = 1%nat.
Proof. repeat split; vm_compute; reflexivity. Qed.

Lemma postpublish_hook_witness :
  (6 * length (packages_of lib world_publish_fails "/ws") + 6
   ≤ length in_order)%nat
  ∧ (∃ r s, run lib world_publish_fails (Some "ci") "/ws" in_order disk0
            = Some (r, s))
  ∧ code_of world_publish_fails "npm" (publish_args [pkgB; pkgA]) ≠ 0
  ∧ publish_result world_publish_fails [pkgB; pkgA] = Err npm_failed
  ∧ run lib world_publish_fails (Some "ci") "/ws" in_order disk0
    = Some (Err npm_failed, final_publish_fails)
  ∧ ev_publish [pkgB; pkgA] ∈ trace final_publish_fails
  ∧ count_event ev_postpublish (trace final_publish_fails) = 1%nat.
Proof.
  assert (H0 : (6 * length (packages_of lib world_publish_fails "/ws") + 6
                ≤ length in_order)%nat) by (vm_compute; lia).
  assert (H1 : run lib world_publish_fails (Some "ci") "/ws" in_order disk0
               = Some (Err npm_failed, final_publish_fails))
    by (vm_compute; reflexivity).
  assert (H2 : ev_publish (packages_of lib world_publish_fails "/ws")
               ∈ trace final_publish_fails).
  { vm_compute. do 10 apply list_elem_of_further. apply list_elem_of_here. }
  assert (H3 : code_of world_publish_fails "npm"
                 (publish_args (packages_of lib world_publish_fails "/ws")) ≠ 0)
    by (vm_compute; discriminate).
  pose proof (postpublish_hook lib world_publish_fails (Some "ci") "/ws"
                in_order disk0) as (_ & Hthrown & Hhalt & Hrun).
  split; [exact H0|]. split; [exact (Hhalt H0)|]. split; [exact H3|].
  split; [exact (Hthrown H3)|]. split; [exact H1|]. split; [exact H2|].
  exact (proj1 (Hrun _ _ H1 H2)).
Defined.

Lemma registry_check_witness :
  semver_inc lib (pkg_version pkgB) "prerelease"
    ("git." +:+ gitVersion_of world_anomaly) false
  = Some "2.0.0-git.v3-5-gabc123"
  ∧ pkgB ∈ packages_of lib world_anomaly "/ws"
  ∧ (6 * length (packages_of lib world_anomaly "/ws") + 6 ≤ length in_order)%nat
  ∧ (∃ r s, run lib world_anomaly (Some "ci") "/ws" in_order disk0 = Some (r, s))
  ∧ run lib world_anomaly (Some "ci") "/ws" in_order disk0
    = Some (Err (JsError ("npm command failed:" +:+ newline)), final_anomaly)
  ∧ code_of world_anomaly "npm" (view_args keyB) ≠ 0
  ∧ (ev_publish (packages_of lib world_anomaly "/ws") ∉ trace final_anomaly)
  ∧ tag_calls (trace final_anomaly) = [].
Proof.
  assert (H1 : semver_inc lib (pkg_version pkgB) "prerelease"
                 ("git." +:+ gitVersion_of world_anomaly) false
               = Some "2.0.0-git.v3-5-gabc123") by (vm_compute; reflexivity).
  assert (H2 : "2.0.0-git.v3-5-gabc123" ≠ "") by discriminate.
  assert (H3 : pkgB ∈ packages_of lib world_anomaly "/ws").
  { vm_compute. apply list_elem_of_here. }
  assert (H4 : (6 * length (packages_of lib world_anomaly "/ws") + 6
                ≤ length in_order)%nat) by (vm_compute; lia).
  assert (H5 : run lib world_anomaly (Some "ci") "/ws" in_order disk0
               = Some (Err (JsError ("npm command failed:" +:+ newline)),
                       final_anomaly)) by (vm_compute; reflexivity).
  assert (H6 : code_of world_anomaly "npm"
                 (view_args (pkgFullName pkgB "2.0.0-git.v3-5-gabc123")) ≠ 0)
    by (vm_compute; discriminate).
  assert (H7 : ¬ ∃ json,
                 JSON_parse lib
                   (out (spawn_out world_anomaly "npm"
                           (view_args (pkgFullName pkgB "2.0.0-git.v3-5-gabc123"))))
                 = Some json
                 ∧ error_code json = JsString "E404").
  { intros (json & Hj & He). vm_compute in Hj. injection Hj as <-.
    vm_compute in He. discriminate. }
  pose proof (registry_check lib world_anomaly pkgB "2.0.0-git.v3-5-gabc123"
                (Some "ci") "/ws" in_order disk0 H1 H2 H3)
    as (_ & _ & _ & _ & Hhalt & Hrun).
  destruct (proj1 (Hrun _ _ H5) H6 H7) as (_ & _ & Hpub & _ & Htags).
  split; [exact H1|]. split; [exact H3|]. split; [exact H4|].
  split; [exact (Hhalt H4)|]. split; [exact H5|]. split; [exact H6|].
  split; [exact Hpub|exact Htags].
Defined.

Lemma write_only_if_different_witness :
  disk (initial disk0) !! manifest_path pkgA = Some (manifest "1.0.0")
  ∧ ∃ t' s',
      run_task world_ok 2
        (changePackageOptions pkgA (bump_options "1.0.1" "deadbeef"))
        (initial disk0) = (t', s')
      ∧ pending t' = false
      ∧ trace s'
        = [EvRead "/ws/a/package.json";
           EvWrite "/ws/a/package.json" (bumped "1.0.1") true].
Proof.
  assert (H1 : disk (initial disk0) !! manifest_path pkgA
               = Some (manifest "1.0.0")) by (vm_compute; reflexivity).
  split; [exact H1|].
  destruct (proj1 (proj2 (write_only_if_different lib world_ok pkgA
                     (bump_options "1.0.1" "deadbeef") (manifest "1.0.0")
                     (initial disk0) H1)))
    as (t' & s' & Hrun & Hpend & Htr & _).
  exists t', s'. split; [exact Hrun|]. split; [exact Hpend|].
  rewrite Htr. vm_compute. reflexivity.
Defined.

Lemma discovery_filter_witness :
  workspace_query lib world_ok = Ok workspace
  ∧ run lib world_ok (Some "ci") "/ws" in_order disk0 = Some (Ok tt, final_ok)
  ∧ filter (fun pkg => discovered "/ws" pkg) workspace = [pkgB; pkgA]
  ∧ ∃ evs, trace final_ok = ev_query :: evs
           ∧ Forall (later_event [pkgB; pkgA]) evs.
Proof.
  assert (H1 : workspace_query lib world_ok = Ok workspace)
    by (vm_compute; reflexivity).
  assert (H2 : run lib world_ok (Some "ci") "/ws" in_order disk0
               = Some (Ok tt, final_ok)) by (vm_compute; reflexivity).
  split; [exact H1|]. split; [exact H2|]. split; [vm_compute; reflexivity|].
  exact (proj2 (discovery_filter lib world_ok (Some "ci") "/ws" in_order disk0
                  workspace (Ok tt) final_ok H1 H2)).
Defined.

Lemma tag_promotion_order_witness :
  run lib world_ok (Some "ci") "/ws" in_order disk0 = Some (Ok tt, final_ok)
  ∧ run lib world_ok (Some "ci") "/ws" a_first disk0 = Some (Ok tt, final_a_first)
  ∧ (packagesToRelease final_ok).*1 = [keyB; keyA]
  ∧ (packagesToRelease final_a_first).*1 = [keyA; keyB]
  ∧ tag_calls (trace final_ok) = [keyA; keyB]
  ∧ tag_calls (trace final_ok) = tag_calls (trace final_a_first).
Proof.
  assert (H1 : run lib world_ok (Some "ci") "/ws" in_order disk0
               = Some (Ok tt, final_ok)) by (vm_compute; reflexivity).
  assert (H2 : run lib world_ok (Some "ci") "/ws" a_first disk0
               = Some (Ok tt, final_a_first)) by (vm_compute; reflexivity).
  split; [exact H1|]. split; [exact H2|].
  split; [vm_compute; reflexivity|]. split; [vm_compute; reflexivity|].
  split; [vm_compute; reflexivity|].
  apply (tag_promotion_order lib world_ok world_ok (Some "ci") (Some "ci")
           "/ws" "/ws" in_order a_first disk0 disk0 (Ok tt) (Ok tt)
           final_ok final_a_first H1 H2).
  - vm_compute. apply perm_swap.
  - vm_compute. discriminate.
  - vm_compute. discriminate.
Defined.

Lemma publish_batched_witness :
  (6 * length (packages_of lib world_ok "/ws") + 6 ≤ length in_order)%nat
  ∧ (∃ r s, run lib world_ok (Some "ci") "/ws" in_order disk0 = Some (r, s))
  ∧ run lib world_ok (Some "ci") "/ws" in_order disk0 = Some (Ok tt, final_ok)
  ∧ count_event ev_prepublish (trace final_ok) = 1%nat
  ∧ count_event
      (EvSpawn "npm" ["--workspace"; "/ws/b"; "--workspace"; "/ws/a";
                      "publish"; "--no-git-checks"; "--tag"; "ci"])
      (trace final_ok) = 1%nat.
Proof.
  assert (H1 : run lib world_ok (Some "ci") "/ws" in_order disk0
               = Some (Ok tt, final_ok)) by (vm_compute; reflexivity).
  assert (H0 : (6 * length (packages_of lib world_ok "/ws") + 6
                ≤ length in_order)%nat) by (vm_compute; lia).
  split; [exact H0|].
  split; [exact (proj1 (publish_batched lib world_ok (Some "ci") "/ws"
                          in_order disk0) H0)|].
  split; [exact H1|].
  exact (proj2 (proj2 (proj2 (proj2
           (proj2 (publish_batched lib world_ok (Some "ci") "/ws" in_order disk0)
              (Ok tt) final_ok H1)))) eq_refl).
Defined.

End Examples.

(** * More on the release coordinator *)

(** ** Failures before the [try] block *)

Section EarlyExit.
Context (lib : Lib) (w : World).

Lemma release_query_failed type cwd sched s0 e :
workspace_query lib w = Err e →
release lib w type cwd sched {| st := s0; bg := [] |}
= match sched with
  | [] => None
  | _ :: sched' => Some (Err e, sched', {| st := log ev_query s0; bg := [] |})
  end.
Proof.
intros Hq. unfold release, mbind, M_bind. rewrite await_npm.
destruct sched as [|n0 sched]; [done|].
change (["query"; ".workspace"] ++ ["--json"]) with query_args.
fold (workspace_query lib w). by rewrite Hq.
Qed.

Lemma release_describe_failed type cwd sched s0 all :
workspace_query lib w = Ok all →
code_of w "git" describe_args ≠ 0 →
release lib w type cwd sched {| st := s0; bg := [] |}
= match sched with
  | _ :: _ :: sched' =>
      Some (Err (git_failed w describe_args), sched',
            {| st := log ev_describe (log ev_query s0); bg := [] |})
  | _ => None
  end.
Proof.
intros Hq Hd. unfold release, mbind, M_bind. rewrite await_npm.
destruct sched as [|n0 sched]; [done|].
change (["query"; ".workspace"] ++ ["--json"]) with query_args.
fold (workspace_query lib w). rewrite Hq. rewrite await_exec.
destruct sched as [|n1 sched]; [done|].
cbn [code stderr no_options opt_stdout_pipe opt_stderr_pipe].
fold describe_args. apply Z.eqb_neq in Hd. by rewrite Hd.
Qed.

Lemma release_rev_parse_failed type cwd sched s0 all :
workspace_query lib w = Ok all →
code_of w "git" describe_args = 0 →
code_of w "git" rev_parse_args ≠ 0 →
release lib w type cwd sched {| st := s0; bg := [] |}
= match sched with
  | _ :: _ :: _ :: sched' =>
      Some (Err (git_failed w rev_parse_args), sched',
            {| st := queried s0; bg := [] |})
  | _ => None
  end.
Proof.
intros Hq Hd Hp. unfold release, mbind, M_bind. rewrite await_npm.
destruct sched as [|n0 sched]; [done|].
change (["query"; ".workspace"] ++ ["--json"]) with query_args.
fold (workspace_query lib w). rewrite Hq. rewrite await_exec.
destruct sched as [|n1 sched]; [done|].
cbn [code stderr stdout no_options opt_stdout_pipe opt_stderr_pipe].
fold describe_args. rewrite Hd. cbn [Z.eqb negb]. rewrite await_exec.
destruct sched as [|n2 sched]; [done|].
cbn [code stderr stdout no_options opt_stdout_pipe opt_stderr_pipe].
fold rev_parse_args. apply Z.eqb_neq in Hp. by rewrite Hp.
Qed.

End EarlyExit.

Section TryBlock.
Context (lib : Lib) (w : World).

(** When the three commands succeed, the flow enters the [try] block. *)
Lemma release_try_block type cwd sched s0 all :
workspace_query lib w = Ok all →
code_of w "git" describe_args = 0 →
code_of w "git" rev_parse_args = 0 →
release lib w type cwd sched {| st := s0; bg := [] |}
= match sched with
  | _ :: _ :: _ :: sched' =>
      try_block lib w type (discover cwd all) (gitVersion_of w) (gitHead_of w)
        sched' {| st := queried s0; bg := [] |}
  | _ => None
  end.
Proof.
intros Hq Hd Hp. unfold release, mbind, M_bind. rewrite await_npm.
destruct sched as [|n0 sched]; [done|].
change (["query"; ".workspace"] ++ ["--json"]) with query_args.
fold (workspace_query lib w). rewrite Hq. rewrite await_exec.
destruct sched as [|n1 sched]; [done|].
cbn [code stderr stdout no_options opt_stdout_pipe opt_stderr_pipe].
fold describe_args. rewrite Hd. cbn [Z.eqb negb]. rewrite await_exec.
destruct sched as [|n2 sched]; [done|].
cbn [code stderr stdout no_options opt_stdout_pipe opt_stderr_pipe].
fold rev_parse_args. rewrite Hp. cbn [Z.eqb negb]. done.
Qed.

End TryBlock.

(** * Invariants of a run *)

Section Invariant.
Context (w : World).
Context (I : State → Prop) (Φ : ∀ A : Type, Async A → Prop) (E : Error → Prop).
Hypothesis Φ_throw : ∀ A e, Φ A (Throw e) → E e.
Hypothesis Φ_advance :
∀ A (t : Async A) s t' s', Φ A t → I s → advance t s = (t', s') → Φ A t' ∧ I s'.
Hypothesis Φ_resume :
∀ A (t : Async A) s t' s', Φ A t → I s → resume w t s = (t', s') → Φ A t' ∧ I s'.

Lemma resume_nth_inv n (ts : list Task) s ts' s' :
Forall (Φ unit) ts → I s → resume_nth w n ts s = (ts', s') →
Forall (Φ unit) ts' ∧ I s'.
Proof.
revert n s ts' s'. induction ts as [|t ts IH]; simpl; intros n s ts' s' Hts HI Heq.
- by injection Heq as <- <-.
- apply Forall_cons in Hts as [Ht Hts]. destruct (pending t).
  + destruct n as [|n].
    * destruct (resume w t s) as [t1 s1] eqn:Hr. injection Heq as <- <-.
      destruct (Φ_resume _ _ _ _ _ Ht HI Hr). split; [by constructor|done].
    * destruct (resume_nth w n ts s) as [ts1 s1] eqn:Hr. injection Heq as <- <-.
      destruct (IH _ _ _ _ Hts HI Hr). split; [by constructor|done].
  + destruct (resume_nth w n ts s) as [ts1 s1] eqn:Hr. injection Heq as <- <-.
    destruct (IH _ _ _ _ Hts HI Hr). split; [by constructor|done].
Qed.

Lemma start_all_inv (ts : list Task) s ts' s' :
Forall (Φ unit) ts → I s → start_all ts s = (ts', s') →
Forall (Φ unit) ts' ∧ I s'.
Proof.
revert s ts' s'. induction ts as [|t ts IH]; simpl; intros s ts' s' Hts HI Heq.
- by injection Heq as <- <-.
- apply Forall_cons in Hts as [Ht Hts].
  destruct (advance t s) as [t1 s1] eqn:Ha.
  destruct (start_all ts s1) as [ts2 s2] eqn:Hs. injection Heq as <- <-.
  destruct (Φ_advance _ _ _ _ _ Ht HI Ha) as [Ht1 HI1].
  destruct (IH _ _ _ Hts HI1 Hs). split; [by constructor|done].
Qed.

Lemma first_rejection_inv (ts : list Task) e :
Forall (Φ unit) ts → first_rejection ts = Some e → E e.
Proof.
induction 1 as [|t ts Ht Hts IH]; simpl; [done|].
destruct t; simpl; try done. intros [= <-]. by eapply Φ_throw.
Qed.

Lemma all_loop_inv (fg : list Task) sched c r sched' c' :
Forall (Φ unit) fg → conf_inv I Φ c →
all_loop w fg sched c = Some (r, sched', c') →
conf_inv I Φ c' ∧ ∀ e, r = Err e → E e.
Proof.
revert fg c. induction sched as [|n sched IH]; intros fg c Hfg [HI Hbg]; simpl.
- destruct (first_rejection fg) as [e|] eqn:Hrej.
  + intros [= <- <- <-]. split.
    * split; [done|]. simpl. apply Forall_app. split; [done|].
      by apply Forall_filter_keep.
    * intros ? [= <-]. by apply (first_rejection_inv fg).
  + destruct (forallb fulfilled fg); [|done]. by intros [= <- <- <-].
- destruct (first_rejection fg) as [e|] eqn:Hrej.
  + intros [= <- <- <-]. split.
    * split; [done|]. simpl. apply Forall_app. split; [done|].
      by apply Forall_filter_keep.
    * intros ? [= <-]. by apply (first_rejection_inv fg).
  + destruct (forallb fulfilled fg); [by intros [= <- <- <-]|].
    destruct (_ <? _)%nat.
    * destruct (resume_nth w _ fg (st c)) as [fg1 s1] eqn:Hr.
      destruct (resume_nth_inv _ _ _ _ _ Hfg HI Hr). by apply IH.
    * destruct (resume_nth w _ (bg c) (st c)) as [bg1 s1] eqn:Hr.
      destruct (resume_nth_inv _ _ _ _ _ Hbg HI Hr). by apply IH.
Qed.

Lemma await_loop_inv {A} (t : Async A) sched c r sched' c' :
Φ A t → conf_inv I Φ c →
await_loop w t sched c = Some (r, sched', c') →
conf_inv I Φ c' ∧ ∀ e, r = Err e → E e.
Proof.
revert t c. induction sched as [|n sched IH]; intros t c Ht [HI Hbg].
- destruct t; simpl; try done.
  + by intros [= <- <- <-].
  + intros [= <- <- <-]. split; [done|]. intros ? [= <-]. by eapply Φ_throw.
- assert (Hstep :
    match (n `mod` S (count_pending (bg c)))%nat with
    | O => let '(t', s') := resume w t (st c) in
           await_loop w t' sched {| st := s'; bg := bg c |}
    | S i => let '(bg', s') := resume_nth w i (bg c) (st c) in
             await_loop w t sched {| st := s'; bg := bg' |}
    end = Some (r, sched', c') →
    conf_inv I Φ c' ∧ ∀ e, r = Err e → E e).
  { destruct (_ `mod` _)%nat.
    - destruct (resume w t (st c)) as [t1 s1] eqn:Hr.
      destruct (Φ_resume _ _ _ _ _ Ht HI Hr). by apply IH.
    - destruct (resume_nth w _ (bg c) (st c)) as [bg1 s1] eqn:Hr.
      destruct (resume_nth_inv _ _ _ _ _ Hbg HI Hr). by apply IH. }
  destruct t; simpl; try exact Hstep.
  + by intros [= <- <- <-].
  + intros [= <- <- <-]. split; [done|]. intros ? [= <-]. by eapply Φ_throw.
Qed.

(** ** The combinators of the main flow *)

Lemma keeps_weaken {A} (pre pre' : Conf → Prop) (m : M A) (post post' : A → Conf → Prop) :
(∀ c, pre' c → pre c) → (∀ a c, post a c → post' a c) →
keeps I Φ E pre m post → keeps I Φ E pre' m post'.
Proof.
intros Hpre Hpost Hm sched c r sched' c' Hc Hp Heq.
destruct (Hm _ _ _ _ _ Hc (Hpre _ Hp) Heq) as [? Hr]. split; [done|].
destruct r; auto.
Qed.

Lemma keeps_throw {A} pre e (post : A → Conf → Prop) :
E e → keeps I Φ E pre (throw e) post.
Proof. intros He sched c r sched' c' Hc _ [= <- <- <-]. done. Qed.

Lemma keeps_bind {A B} pre (m : M A) mid (f : A → M B) post :
keeps I Φ E pre m mid →
(∀ a, keeps I Φ E (mid a) (f a) post) →
keeps I Φ E pre (m ≫= f) post.
Proof.
intros Hm Hf sched c r sched' c' Hc Hp Heq.
apply M_bind_inv in Heq as [(a & sched1 & c1 & Hm1 & Hf1)|(e & Hm1 & ->)].
- destruct (Hm _ _ _ _ _ Hc Hp Hm1) as [Hc1 Hmid]. by eapply Hf.
- by destruct (Hm _ _ _ _ _ Hc Hp Hm1).
Qed.

Lemma keeps_try_finally {A} pre (body : M A) (fin : M unit) :
keeps I Φ E pre body any_result →
keeps I Φ E any_conf fin any_result →
keeps I Φ E pre (try_finally body fin) any_result.
Proof.
intros Hbody Hfin sched c r sched' c' Hc Hp Heq.
apply try_finally_inv in Heq as (r1 & sched1 & c1 & r2 & Hb & Hf & ->).
destruct (Hbody _ _ _ _ _ Hc Hp Hb) as [Hc1 Hr1].
destruct (Hfin _ _ _ _ _ Hc1 Logic.I Hf) as [Hc2 Hr2]. split; [done|].
destruct r2 as [[]|e]; simpl; [|done]. by destruct r1.
Qed.

Lemma keeps_await {A} (t : Async A) :
Φ A t → keeps I Φ E any_conf (await w t) any_result.
Proof.
intros Ht sched c r sched' c' [HI Hbg] _. unfold await.
destruct (advance t (st c)) as [t0 s0] eqn:Ha.
destruct (Φ_advance _ _ _ _ _ Ht HI Ha) as [Ht0 HI0]. intros Hl.
apply await_loop_inv in Hl as [Hc' He]; [|done|done]. split; [done|].
destruct r; [done|]. by apply He.
Qed.

Lemma keeps_Promise_all (ts : list Task) :
Forall (Φ unit) ts → keeps I Φ E any_conf (Promise_all w ts) any_result.
Proof.
intros Hts sched c r sched' c' [HI Hbg] _. unfold Promise_all.
destruct (start_all ts (st c)) as [fg s0] eqn:Hs.
destruct (start_all_inv _ _ _ _ Hts HI Hs) as [Hfg HI0]. intros Hl.
apply all_loop_inv in Hl as [Hc' He]; [|done|done]. split; [done|].
destruct r; [done|]. by apply He.
Qed.

Lemma keeps_keys :
keeps I Φ E any_conf packagesToRelease_keys
  (fun keys c => keys = (packagesToRelease (st c)).*1).
Proof. intros sched c r sched' c' Hc _ [= <- <- <-]. done. Qed.

End Invariant.

Section InvariantRun.
Context (lib : Lib) (w : World) (type : option string).
Context (I : State → Prop) (Φ : ∀ A : Type, Async A → Prop) (E : Error → Prop).
Hypothesis Φ_throw : ∀ A e, Φ A (Throw e) → E e.
Hypothesis Φ_advance :
∀ A (t : Async A) s t' s', Φ A t → I s → advance t s = (t', s') → Φ A t' ∧ I s'.
Hypothesis Φ_resume :
∀ A (t : Async A) s t' s', Φ A t → I s → resume w t s = (t', s') → Φ A t' ∧ I s'.

Section Block.
Context (packages : list Pkg) (gitVersion gitHead : string) (K : string → Prop).
Hypothesis H_type : type ≠ Some "ci" → E type_required.
Hypothesis H_bump :
type = Some "ci" →
∀ pkg, pkg ∈ packages → Φ unit (bump lib gitVersion gitHead pkg).
Hypothesis H_hooks :
type = Some "ci" →
Φ unit (execPipe "npm" ["run"; "prepublishOnly"])
∧ Φ unit (execPipe "npm" (publish_args packages))
∧ Φ unit (execPipe "npm" ["run"; "postpublish"]).
Hypothesis H_keys : ∀ s, I s → Forall K (packagesToRelease s).*1.
Hypothesis H_tag :
type = Some "ci" →
∀ key, K key → Φ unit (execPipe "npm" (dist_tag_args key)).
Hypothesis H_restore : ∀ pkg, pkg ∈ packages → Φ unit (restore pkg).

Lemma ci_keeps :
type = Some "ci" →
keeps I Φ E any_conf (ci lib w packages gitVersion gitHead) any_result.
Proof.
intros Hty. destruct (H_hooks Hty) as (Hpre & Hpub & Hpost). unfold ci.
eapply keeps_bind.
{ apply keeps_Promise_all; [done..|].
apply Forall_fmap, Forall_forall. intros pkg Hin. by apply H_bump. }
intros []. eapply keeps_weaken with (pre := any_conf) (post := any_result); [done|done|].
eapply keeps_bind; [by apply keeps_await|].
intros []. eapply keeps_weaken with (pre := any_conf) (post := any_result); [done|done|].
apply keeps_try_finally; by apply keeps_await.
Qed.

Lemma tags_keep :
type = Some "ci" →
keeps I Φ E any_conf
(keys ← packagesToRelease_keys;
 Promise_all w ((fun key => execPipe "npm" (dist_tag_args key)) <$> sort keys))
any_result.
Proof.
intros Hty. eapply keeps_bind; [apply keeps_keys|].
intros keys sched c r sched' c' Hc ->.
eapply keeps_Promise_all; [done..| |done|done].
apply Forall_fmap, Forall_forall. intros key Hin. apply H_tag; [done|].
rewrite sort_Permutation in Hin.
pose proof (H_keys _ (proj1 Hc)) as Hk. rewrite Forall_forall in Hk. by apply Hk.
Qed.

Lemma try_block_keeps :
keeps I Φ E any_conf (try_block lib w type packages gitVersion gitHead) any_result.
Proof.
unfold try_block. apply keeps_try_finally.
- destruct (decide (type = Some "ci")) as [Hty|Hty].
+ eapply keeps_bind; [by apply ci_keeps|].
  intros []. eapply keeps_weaken with (pre := any_conf) (post := any_result); [done|done|]. by apply tags_keep.
+ eapply keeps_bind with (mid := fun _ _ => False);
    [apply keeps_throw; by apply H_type|].
  by intros a sched c r sched' c' _ [].
- apply keeps_Promise_all; [done..|].
apply Forall_fmap, Forall_forall. intros pkg Hin. by apply H_restore.
Qed.

End Block.

Section Run.
Context (cwd : string) (K : string → Prop).
Hypothesis H_spawn : ∀ command args s, I s → I (log (EvSpawn command args) s).
Hypothesis H_type : type ≠ Some "ci" → E type_required.
Hypothesis H_bump :
type = Some "ci" →
∀ pkg, pkg ∈ packages_of lib w cwd →
     Φ unit (bump lib (gitVersion_of w) (gitHead_of w) pkg).
Hypothesis H_hooks :
type = Some "ci" →
Φ unit (execPipe "npm" ["run"; "prepublishOnly"])
∧ Φ unit (execPipe "npm" (publish_args (packages_of lib w cwd)))
∧ Φ unit (execPipe "npm" ["run"; "postpublish"]).
Hypothesis H_keys : ∀ s, I s → Forall K (packagesToRelease s).*1.
Hypothesis H_tag :
type = Some "ci" →
∀ key, K key → Φ unit (execPipe "npm" (dist_tag_args key)).
Hypothesis H_restore : ∀ pkg, pkg ∈ packages_of lib w cwd → Φ unit (restore pkg).

(** An invariant of the tasks of the script is an invariant of its runs. *)
Lemma run_keeps sched disk0 r s :
I (initial disk0) →
run lib w type cwd sched disk0 = Some (r, s) →
I s ∧ ∀ e, r = Err e → E e ∨ early_error lib w e.
Proof.
intros HI. unfold run.
destruct (release _ _ _ _ _ _) as [[[r' sched'] c']|] eqn:Hrel; [|done].
intros [= <- <-]. fold (initial disk0) in Hrel.
destruct (workspace_query lib w) as [all|e] eqn:Hq.
2:{ rewrite (release_query_failed _ _ _ _ _ _ e Hq) in Hrel.
  destruct sched as [|n0 sched]; [done|]. injection Hrel as <- <- <-. simpl.
  split; [by apply H_spawn|]. intros ? [= <-]. right. by left. }
destruct (decide (code_of w "git" describe_args = 0)) as [Hd|Hd].
2:{ rewrite (release_describe_failed _ _ _ _ _ _ all Hq Hd) in Hrel.
  destruct sched as [|n0 [|n1 sched]]; [done..|].
  injection Hrel as <- <- <-. simpl.
  split; [by do 2 apply H_spawn|]. intros ? [= <-]. right. right. by left. }
destruct (decide (code_of w "git" rev_parse_args = 0)) as [Hp|Hp].
2:{ rewrite (release_rev_parse_failed _ _ _ _ _ _ all Hq Hd Hp) in Hrel.
  destruct sched as [|n0 [|n1 [|n2 sched]]]; [done..|].
  injection Hrel as <- <- <-. simpl.
  split; [by do 3 apply H_spawn|]. intros ? [= <-]. right. right. by right. }
rewrite (release_try_block _ _ _ _ _ _ all Hq Hd Hp) in Hrel.
destruct sched as [|n0 [|n1 [|n2 sched]]]; [done..|].
rewrite (packages_of_query _ _ _ _ Hq) in *.
eapply (try_block_keeps (discover cwd all) (gitVersion_of w) (gitHead_of w) K)
in Hrel as [[HI' _] Hr]; try done.
- split; [done|]. intros e ->. by left.
- split; [|done]. simpl. by do 3 apply H_spawn.
Qed.

End Run.
End InvariantRun.

(** * The candidates of a run *)

Lemma sets_only_bind {A B} w Q (t : Async A) (f : A → Async B) :
  sets_only w Q t → (∀ a, sets_only w Q (f a)) → sets_only w Q (t ≫= f).
Proof.
  intros Ht Hf. unfold mbind, Async_bind.
  induction t as [| | ? ? ? IH | ? ? ? IH | ? ? IH | ? ? ? IH];
    simpl in *; intuition auto.
Qed.

Lemma emits_sets_only {A} w P (Q : string → Pkg → Prop) (t : Async A) :
  emits P no_entry t → sets_only w Q t.
Proof.
  induction t as [| | ? ? ? IH | ? ? ? IH | ? ? IH | ? ? ? IH]; simpl; try done.
  - by intros [[] _].
  - intros [_ Hk]. by apply IH.
  - intros [_ Hk] r. by apply IH.
  - intros [_ Hk]. by apply IH.
Qed.

Lemma execPipe_sets_only w Q command args : sets_only w Q (execPipe command args).
Proof.
  unfold execPipe, exec, mbind, Async_bind. simpl. by destruct (_ =? 0).
Qed.

Lemma restore_sets_only w Q pkg : sets_only w Q (restore pkg).
Proof.
  eapply emits_sets_only. apply (restore_emits [pkg]). by apply list_elem_of_singleton.
Qed.

Lemma sets_only_advance {A} w Q (t : Async A) s t' s' :
  sets_only w Q t → entries_in Q s → advance t s = (t', s') →
  sets_only w Q t' ∧ entries_in Q s'.
Proof.
  revert s. induction t as [| | key value k IH | | |]; simpl; intros s Ht Hs Heq;
    try by injection Heq as <- <-.
  destruct Ht as [HQ Hk]. eapply IH; [done| |done].
  unfold entries_in. simpl. by apply Map_set_Forall.
Qed.

Lemma sets_only_resume {A} w Q (t : Async A) s t' s' :
  sets_only w Q t → entries_in Q s → resume w t s = (t', s') →
  sets_only w Q t' ∧ entries_in Q s'.
Proof.
  destruct t as [| | key value k | c a k | f k | f d k]; simpl; intros Ht Hs Heq.
  - by injection Heq as <- <-.
  - by injection Heq as <- <-.
  - by eapply (sets_only_advance w Q (MapSet key value k)).
  - by eapply sets_only_advance.
  - eapply sets_only_advance; [| |exact Heq]; [apply Ht|exact Hs].
  - destruct (write_ok w f d);
      (eapply sets_only_advance; [| |exact Heq]; [exact Ht|exact Hs]).
Qed.

Lemma bump_sets_only lib w packages gitHead pkg :
  pkg ∈ packages →
  sets_only w (candidate lib w packages) (bump lib (gitVersion_of w) gitHead pkg).
Proof.
  intros Hin. unfold bump.
  destruct (semver_inc lib _ _ _ _) as [vnew|] eqn:Hv; [|done].
  destruct (negb _) eqn:Hne; [|done].
  apply negb_true_iff, String.eqb_neq in Hne.
  apply sets_only_bind.
  { eapply emits_sets_only. apply (changePackageOptions_emits [pkg]).
    by apply list_elem_of_singleton. }
  intros _. unfold check_online, exec, mbind, Async_bind. simpl.
  fold (code_of w "npm" (view_args (pkgFullName pkg vnew))).
  destruct (code_of w "npm" _ =? 0) eqn:Hc; simpl; [done|].
  apply Z.eqb_neq in Hc.
  destruct (JSON_parse lib _) as [json|] eqn:Hj; simpl; [|done].
  fold (error_code json).
  destruct (strict_ne_string _ _) eqn:Hs; simpl; [done|].
  apply strict_ne_string_false in Hs.
  split; [|done]. split; [done|]. exists vnew. repeat split; try done.
  by exists json.
Qed.

Section Candidates.
Context (lib : Lib) (w : World).

Lemma run_candidates type cwd sched disk0 r s :
run lib w type cwd sched disk0 = Some (r, s) →
entries_in (candidate lib w (packages_of lib w cwd)) s.
Proof.
intros Hrun.
eapply (run_keeps lib w type
          (entries_in (candidate lib w (packages_of lib w cwd)))
          (fun A t => sets_only w (candidate lib w (packages_of lib w cwd)) t)
          any_error) with (K := any_key) in Hrun; try done.
- by destruct Hrun.
- intros A t s0 t' s'. apply sets_only_advance.
- intros A t s0 t' s'. apply sets_only_resume.
- intros _ pkg Hin. by apply bump_sets_only.
- intros _. repeat split; apply execPipe_sets_only.
- intros s0 _. by apply Forall_true.
- intros _ key _. apply execPipe_sets_only.
- intros pkg _. apply restore_sets_only.
- constructor.
Qed.

End Candidates.

(** ** The candidates and the tag promotion *)

Section Promotion.
Context (lib : Lib) (w : World).

Lemma candidate_will_set packages gitHead key value :
candidate lib w packages key value →
will_set w (fun k => k = key) (bump lib (gitVersion_of w) gitHead value).
Proof.
intros (Hin & vnew & Hv & Hne & -> & Hc & json & Hj & He).
rewrite (bump_unfold lib _ gitHead _ _ Hv Hne). apply will_set_bind. intros _.
by eapply check_online_will_set.
Qed.

(** What a run that got as far as the pre-publish hook has in its candidate
  map, and which tag promotion calls a run has made. *)
Lemma run_promotion type cwd sched disk0 r s :
run lib w type cwd sched disk0 = Some (r, s) →
let packages := packages_of lib w cwd in
(ev_prepublish ∈ trace s →
 ∀ key value, candidate lib w packages key value →
              key ∈ (packagesToRelease s).*1)
∧ (tag_calls (trace s) ≠ [] → ev_prepublish ∈ trace s)
∧ (r = Ok tt → ev_prepublish ∈ trace s).
Proof.
intros Hrun packages.
apply run_shape, shape_trace in Hrun
  as (pre & hooks & tags & post & Htr & Hpre & Hhooks & Htags & Hpost & Hkeys
      & Hok & Hnotags & Hob & _).
fold packages in Hpre, Hhooks, Hpost, Hkeys, Hok, Hnotags, Hob.
pose proof (tags_tag_event _ _ _ Hkeys Htags) as Htags'.
assert (Hcount : count_event ev_prepublish (trace s)
                 = count_event ev_prepublish hooks).
{ rewrite Htr. eapply grammar_counts; try done. right. by left. }
assert (Hin : hooks ≠ [] → ev_prepublish ∈ trace s).
{ intros Hne. rewrite count_event_elem, Hcount.
  destruct Hhooks as [->|[->| ->]]; [done|..]; unfold publish_step;
    rewrite count_event_cons; rewrite decide_True by done; lia. }
split; [|split].
- intros Hpp key value Hc.
  assert (hooks ≠ []) as Hne.
  { intros ->. rewrite count_event_elem, Hcount in Hpp.
    unfold count_event in Hpp. simpl in Hpp. lia. }
  destruct (Hob Hne value (fun k => k = key)) as (k & Hk & ->); [| |done].
  + by destruct Hc.
  + by apply (candidate_will_set packages).
- intros Hcalls. apply Hin. intros ->. apply Hcalls.
  rewrite Htr, (Hnotags ltac:(discriminate)), !tag_calls_app. simpl.
  rewrite (tag_calls_file _ _ Hpost), app_nil_r.
  eapply tag_calls_none; [|exact Hpre].
  intros ev [[->|[->| ->]]|Hw]; [done..|]. by eapply tag_call_worker.
- intros Hr. apply Hin. rewrite (Hok Hr). discriminate.
Qed.

(** The tag promotion calls of a run that promotes tags, or succeeds. *)
Lemma run_promoted type cwd sched disk0 r s :
run lib w type cwd sched disk0 = Some (r, s) →
r = Ok tt ∨ tag_calls (trace s) ≠ [] →
tag_calls (trace s) = sort (packagesToRelease s).*1
∧ NoDup (packagesToRelease s).*1
∧ ∀ key, key ∈ (packagesToRelease s).*1
         ↔ ∃ value, candidate lib w (packages_of lib w cwd) key value.
Proof.
intros Hrun Hr.
pose proof (run_shape _ _ _ _ _ _ _ _ Hrun) as Hshape.
pose proof (shape_keys_NoDup _ _ _ _ _ _ _ Hshape) as Hnd.
destruct (shape_tag_calls _ _ _ _ _ _ _ Hshape) as [Hcalls Hok].
destruct (run_promotion _ _ _ _ _ _ Hrun) as (Hcomp & Htag & Hsucc).
pose proof (run_candidates lib w _ _ _ _ _ _ Hrun) as Hc.
unfold entries_in in Hc. rewrite Forall_forall in Hc.
assert (ev_prepublish ∈ trace s) as Hpp by (destruct Hr; auto).
split; [|split; [done|]].
- destruct Hr as [Hr|Hr]; [by apply Hok|]. by destruct Hcalls.
- intros key. split.
  + intros ([k v] & -> & Hkv)%list_elem_of_fmap. exists v. by apply (Hc (k, v)).
  + intros [value Hv]. by eapply Hcomp.
Qed.

End Promotion.

(** X1.  Whatever the scheduling, an entry of [packagesToRelease] is keyed
    [name@vnew] for a discovered package and the version [semver.inc]
    computes for it, and it is there because [npm view] failed for that key
    with the error code [E404]; there is at most one entry for each
    discovered package; and the [edge] tag is only ever added to such a
    key. *)
Theorem candidates_not_in_registry (lib : Lib) (w : World)
    (type : option string) (cwd : string) (sched : list nat)
    (disk0 : gmap string Manifest) (r : Result unit) (s : State) :
  run lib w type cwd sched disk0 = Some (r, s) →
  let packages := packages_of lib w cwd in
  (∀ key value, (key, value) ∈ packagesToRelease s →
                candidate lib w packages key value)
  ∧ NoDup (packagesToRelease s).*1
  ∧ (length (packagesToRelease s) ≤ length packages)%nat
  ∧ (∀ key, key ∈ tag_calls (trace s) →
            ∃ value, candidate lib w packages key value).
Proof.
  intros Hrun packages.
  pose proof (run_candidates lib w _ _ _ _ _ _ Hrun) as Hc.
  fold packages in Hc. unfold entries_in in Hc. rewrite Forall_forall in Hc.
  pose proof (run_shape _ _ _ _ _ _ _ _ Hrun) as Hshape.
  pose proof (shape_keys_NoDup _ _ _ _ _ _ _ Hshape) as Hnd.
  assert (Hkey : ∀ key, key ∈ (packagesToRelease s).*1 →
                        ∃ value, candidate lib w packages key value).
  { intros key ([k v] & -> & Hkv)%list_elem_of_fmap. exists v. by apply (Hc (k, v)). }
  split; [intros key value Hkv; by apply (Hc (key, value))|].
  split; [done|]. split.
  - etrans; [|apply (possible_keys_length lib (gitVersion_of w))].
    apply keys_bound; [done|]. apply Forall_forall. intros [k v] Hkv.
    destruct (Hc _ Hkv) as (Hin & vnew & Hv & _ & Hk & _). simpl in *.
    unfold possible_keys. apply list_elem_of_omap. exists v. split; [done|].
    rewrite Hv. simpl. by rewrite Hk.
  - intros key Hkey'. apply Hkey.
    destruct (shape_tag_calls _ _ _ _ _ _ _ Hshape) as [[Hcalls|Hcalls] _];
      rewrite Hcalls in Hkey'; [by apply elem_of_nil in Hkey'|].
    by rewrite sort_Permutation in Hkey'.
Qed.

(** X2.  The tag promotion does not depend on the scheduling: two runs in
    the same world that promote tags, or succeed, make the same [dist-tag
    add] calls in the same order, namely for the sorted keys of the packages
    whose new version the registry does not have. *)
Theorem tag_calls_determined (lib : Lib) (w : World)
    (type1 type2 : option string) (cwd : string) (sched1 sched2 : list nat)
    (disk1 disk2 : gmap string Manifest) (r1 r2 : Result unit) (s1 s2 : State) :
  run lib w type1 cwd sched1 disk1 = Some (r1, s1) →
  run lib w type2 cwd sched2 disk2 = Some (r2, s2) →
  r1 = Ok tt ∨ tag_calls (trace s1) ≠ [] →
  r2 = Ok tt ∨ tag_calls (trace s2) ≠ [] →
  tag_calls (trace s1) = tag_calls (trace s2)
  ∧ (∀ key, key ∈ tag_calls (trace s1)
            ↔ ∃ value, candidate lib w (packages_of lib w cwd) key value).
Proof.
  intros Hrun1 Hrun2 H1 H2.
  destruct (run_promoted lib w _ _ _ _ _ _ Hrun1 H1) as (Hc1 & Hnd1 & Hk1).
  destruct (run_promoted lib w _ _ _ _ _ _ Hrun2 H2) as (Hc2 & Hnd2 & Hk2).
  split.
  - rewrite Hc1, Hc2. apply sort_unique, NoDup_Permutation; [done..|].
    intros key. by rewrite Hk1, Hk2.
  - intros key. by rewrite Hc1, sort_Permutation.
Qed.

(** * The file system in a run *)







Lemma exec_edits packages d0 command args options :
  edits packages d0 (exec command args options).
Proof. done. Qed.





Section FileSystem.
Context (lib : Lib) (w : World).



End FileSystem.



(** * A run with the wrong mode *)

Lemma calm_bind {A B} d0 (t : Async A) (f : A → Async B) :
  calm d0 t → (∀ a, calm d0 (f a)) → calm d0 (t ≫= f).
Proof.
  intros Ht Hf. unfold mbind, Async_bind.
  induction t as [| | ? ? ? IH | ? ? ? IH | ? ? IH | ? ? ? IH];
    simpl in *; try done; auto.
Qed.

Lemma calm_advance {A} d0 (t : Async A) s t' s' :
  calm d0 t → untouched d0 s → advance t s = (t', s') →
  calm d0 t' ∧ untouched d0 s'.
Proof.
  revert s. induction t as [| | key value k IH | c a k _ | |]; simpl;
    intros s Ht [Hd Htr] Heq; try by injection Heq as <- <-.
  - eapply IH; [done| |exact Heq]. by split.
  - injection Heq as <- <-. split; [done|]. split; [done|]. simpl.
    apply Forall_app. split; [done|]. by repeat constructor.
Qed.

Lemma calm_resume {A} w d0 (t : Async A) s t' s' :
  calm d0 t → untouched d0 s → resume w t s = (t', s') →
  calm d0 t' ∧ untouched d0 s'.
Proof.
  destruct t as [| | key value k | c a k | f k | f d k]; simpl;
    intros Ht Hs Heq; try done.
  - by injection Heq as <- <-.
  - by eapply (calm_advance d0 (MapSet key value k)).
  - eapply calm_advance; [| |exact Heq]; [apply Ht|exact Hs].
  - destruct Hs as [Hd Htr].
    eapply calm_advance; [| |exact Heq]; [by rewrite Hd|].
    split; [done|]. simpl. apply Forall_app. split; [done|]. by repeat constructor.
Qed.

Lemma restore_calm d0 pkg : restored pkg d0 → calm d0 (restore pkg).
Proof.
  intros (m & Hm & Hv & Hg).
  unfold restore, changePackageOptions, readFile, writeFile, mbind, Async_bind.
  simpl. rewrite Hm. simpl. rewrite Hv, Hg.
  by rewrite !bool_decide_eq_true_2.
Qed.

(** X5.  With a mode other than [ci], or none, and manifests that have the
    version and revision [npm query] reported, a run attempts no write and
    leaves the file system as it is, and it ends with an error, which is the
    configuration error once the workspace query and the two [git] commands
    have succeeded. *)
Theorem wrong_mode_writes_nothing (lib : Lib) (w : World) (type : option string)
    (cwd : string) (sched : list nat) (disk0 : gmap string Manifest)
    (r : Result unit) (s : State) :
  type ≠ Some "ci" →
  (∀ pkg, pkg ∈ packages_of lib w cwd → restored pkg disk0) →
  run lib w type cwd sched disk0 = Some (r, s) →
  disk s = disk0
  ∧ Forall not_write (trace s)
  ∧ (∃ e, r = Err e ∧ (e = type_required ∨ early_error lib w e)).
Proof.
  intros Hty Hd0 Hrun.
  assert (∃ e, r = Err e) as [e ->].
  { apply run_shape in Hrun. inversion Hrun; subst; try done; eauto.
    destruct r_restore; simpl; eauto. }
  eapply (run_keeps lib w type (untouched disk0) (fun A t => calm disk0 t)
            (fun e => e = type_required)) with (K := any_key) in Hrun; try done.
  - destruct Hrun as [[Hd Htr] He]. split; [done|]. split; [done|].
    exists e. split; [done|]. by apply He.
  - intros A t s0 t' s'. apply calm_advance.
  - intros A t s0 t' s'. apply calm_resume.
  - intros c a s0 [Hd Htr]. split; [done|]. simpl.
    apply Forall_app. split; [done|]. by repeat constructor.
  - intros s0 _. by apply Forall_true.
  - intros pkg Hin. by apply restore_calm, Hd0.
Qed.

(** * A run in which nothing fails *)








Section NothingFails.
Context (lib : Lib) (w : World) (cwd : string) (all : list Pkg).
Hypothesis H_query : workspace_query lib w = Ok all.
Hypothesis H_describe : code_of w "git" describe_args = 0.
Hypothesis H_rev_parse : code_of w "git" rev_parse_args = 0.
Hypothesis H_write : ∀ fname data, write_ok w fname data = true.
Hypothesis H_view :
∀ pkg vnew,
  pkg ∈ discover cwd all →
  semver_inc lib (pkg_version pkg) "prerelease" ("git." +:+ gitVersion_of w) false
  = Some vnew →
  code_of w "npm" (view_args (pkgFullName pkg vnew)) = 0
  ∨ not_found_in_registry lib w (pkgFullName pkg vnew).
Hypothesis H_prepublish : code_of w "npm" ["run"; "prepublishOnly"] = 0.
Hypothesis H_publish : code_of w "npm" (publish_args (discover cwd all)) = 0.
Hypothesis H_postpublish : code_of w "npm" ["run"; "postpublish"] = 0.
Hypothesis H_dist_tag : ∀ key, code_of w "npm" (dist_tag_args key) = 0.


End NothingFails.


(** * The order of the steps *)

(** X7.  A failure of the workspace query or of one of the two [git]
    commands ends the run at once, with the error of that command: the run
    has spawned one, two or three commands, has accessed no manifest, and
    runs no restore, for the [try] block has not been entered.  (The first
    one, two or three scheduling decisions are used up.) *)
Theorem early_exit (lib : Lib) (w : World) (type : option string)
    (cwd : string) (sched : list nat) (disk0 : gmap string Manifest) :
  let s0 := initial disk0 in
  (∀ e, workspace_query lib w = Err e →
        run lib w type cwd sched disk0
        = match sched with
          | _ :: _ => Some (Err e, log ev_query s0)
          | _ => None
          end)
  ∧ (∀ all, workspace_query lib w = Ok all →
            code_of w "git" describe_args ≠ 0 →
            run lib w type cwd sched disk0
            = match sched with
              | _ :: _ :: _ =>
                  Some (Err (git_failed w describe_args),
                        log ev_describe (log ev_query s0))
              | _ => None
              end)
  ∧ (∀ all, workspace_query lib w = Ok all →
            code_of w "git" describe_args = 0 →
            code_of w "git" rev_parse_args ≠ 0 →
            run lib w type cwd sched disk0
            = match sched with
              | _ :: _ :: _ :: _ => Some (Err (git_failed w rev_parse_args), queried s0)
              | _ => None
              end).
Proof.
  intros s0. unfold run. fold (initial disk0). fold s0. split; [|split].
  - intros e Hq. rewrite (release_query_failed _ _ _ _ _ _ e Hq).
    by destruct sched.
  - intros all Hq Hd. rewrite (release_describe_failed _ _ _ _ _ _ all Hq Hd).
    by destruct sched as [|? [|? ?]].
  - intros all Hq Hd Hp.
    rewrite (release_rev_parse_failed _ _ _ _ _ _ all Hq Hd Hp).
    by destruct sched as [|? [|? [|? ?]]].
Qed.

Lemma publish_result_Ok w packages :
  publish_result w packages = Ok tt →
  code_of w "npm" (publish_args packages) = 0
  ∧ code_of w "npm" ["run"; "postpublish"] = 0.
Proof.
  unfold publish_result, npm_result.
  destruct (code_of w "npm" (publish_args packages) =? 0) eqn:H1;
    destruct (code_of w "npm" ["run"; "postpublish"] =? 0) eqn:H2; try done.
  intros _. by apply Z.eqb_eq in H1, H2.
Qed.

Lemma shape_tagged_inv lib w type cwd disk0 r s :
  release_shape lib w type cwd (initial disk0) r s →
  tag_calls (trace s) ≠ [] →
  let packages := packages_of lib w cwd in
  type = Some "ci"
  ∧ code_of w "npm" ["run"; "prepublishOnly"] = 0
  ∧ code_of w "npm" (publish_args packages) = 0
  ∧ code_of w "npm" ["run"; "postpublish"] = 0
  ∧ ∃ before after,
      trace s = before ++ publish_step packages
                ++ (ev_dist_tag <$> sort (packagesToRelease s).*1) ++ after
      ∧ Forall (fun ev => is_query ev ∨ worker_event packages ev) before
      ∧ Forall (file_event packages) after.
Proof.
  inversion 1 as
    [ e Hq | all Hq Hd | all Hq Hd Hp
    | all r2 s' Hq Hd Hp Hty [(R & HR & HfR) _] Hr2
    | all e s' Hq Hd Hp Hty [(W & HW & HfW) _]
    | all s1 r2 s' Hq Hd Hp Hty [(W & HW & HfW) _] Hob Hpre [(R & HR & HfR) _] Hr2
    | all s1 r2 s' Hq Hd Hp Hty [(W & HW & HfW) _] Hob Hpre Hpub [(R & HR & HfR) _] Hr2
    | all s1 rt r2 s' Hq Hd Hp Hty [(W & HW & HfW) _] Hob Hpre Hpub Hev Hrt Hr2 ];
    subst; intros Hcalls packages; subst packages;
    try rewrite (packages_of_query _ _ _ _ Hq) in *.
  - by destruct Hcalls.
  - by destruct Hcalls.
  - by destruct Hcalls.
  - destruct Hcalls. by rewrite HR, tag_calls_app, (tag_calls_file _ _ HfR).
  - destruct Hcalls. by rewrite HW, tag_calls_app, (tag_calls_worker _ _ HfW).
  - destruct Hcalls. rewrite HR. simpl.
    by rewrite HW, !tag_calls_app, (tag_calls_file _ _ HfR),
      (tag_calls_worker _ _ HfW).
  - destruct Hcalls. rewrite HR. simpl.
    rewrite HW, !tag_calls_app, (tag_calls_file _ _ HfR),
      (tag_calls_worker _ _ HfW).
    by rewrite !tag_calls_cons, tag_call_publish.
  - destruct (publish_result_Ok _ _ Hpub) as [Hc1 Hc2].
    pose proof (evolves_no_entry _ _ _ Hev) as Hkeys.
    destruct Hev as [(R & HR & HfR) _].
    split; [done|]. split; [done|]. split; [done|]. split; [done|].
    exists (trace (queried (initial disk0)) ++ W), R.
    split; [|split; [|done]].
    + rewrite HR, Hkeys. simpl. rewrite HW. simpl. by rewrite <-!app_assoc.
    + simpl. repeat (apply Forall_cons; split; [left; unfold is_query; auto|]).
      eapply Forall_impl; [done|]. auto.
Qed.

(** X8.  The [edge] tag is only added after a publish that went through: a
    run that makes a [dist-tag add] call has the mode [ci], its pre-publish
    hook, publish command and post-publish hook have exited with 0, and its
    trace is the version update, then these three commands, then the tag
    promotion calls for the sorted candidate keys, then manifest accesses
    only. *)
Theorem tag_only_after_publish (lib : Lib) (w : World) (type : option string)
    (cwd : string) (sched : list nat) (disk0 : gmap string Manifest)
    (r : Result unit) (s : State) :
  run lib w type cwd sched disk0 = Some (r, s) →
  tag_calls (trace s) ≠ [] →
  let packages := packages_of lib w cwd in
  type = Some "ci"
  ∧ code_of w "npm" ["run"; "prepublishOnly"] = 0
  ∧ code_of w "npm" (publish_args packages) = 0
  ∧ code_of w "npm" ["run"; "postpublish"] = 0
  ∧ ∃ before after,
      trace s = before ++ publish_step packages
                ++ (ev_dist_tag <$> sort (packagesToRelease s).*1) ++ after
      ∧ Forall (fun ev => is_query ev ∨ worker_event packages ev) before
      ∧ Forall (file_event packages) after.
Proof.
  intros Hrun%run_shape Hcalls.
  exact (shape_tagged_inv _ _ _ _ _ _ _ Hrun Hcalls).
Qed.

(** * More on the manifest update *)

Lemma Object_assign_cons packageJSON k v optionsNew :
  Object_assign packageJSON ((k, v) :: optionsNew)
  = Object_assign (manifest_set packageJSON k v) optionsNew.
Proof. done. Qed.

Lemma manifest_get_set packageJSON k v k' :
  manifest_get (manifest_set packageJSON k v) k'
  = if decide (k = k') then v else manifest_get packageJSON k'.
Proof. by destruct k, k'. Qed.

Lemma Object_assign_get_other packageJSON optionsNew k :
  k ∉ Object_keys optionsNew →
  manifest_get (Object_assign packageJSON optionsNew) k = manifest_get packageJSON k.
Proof.
  revert packageJSON. induction optionsNew as [|[k' v] o IH]; intros m; [done|].
  unfold Object_keys. rewrite fmap_cons, not_elem_of_cons. cbn [fst].
  intros [Hne Hk].
  rewrite Object_assign_cons, IH by done. rewrite manifest_get_set.
  by rewrite decide_False.
Qed.

Lemma Object_assign_get packageJSON optionsNew k :
  NoDup (Object_keys optionsNew) → k ∈ Object_keys optionsNew →
  manifest_get (Object_assign packageJSON optionsNew) k = options_get optionsNew k.
Proof.
  revert packageJSON. induction optionsNew as [|[k' v] o IH]; intros m;
    [by intros _ ?%elem_of_nil|].
  unfold Object_keys. rewrite fmap_cons, NoDup_cons, elem_of_cons. cbn [fst].
  intros [Hk' Hnd] Hk. rewrite Object_assign_cons. destruct (decide (k' = k)) as [->|Hne].
  - rewrite Object_assign_get_other by done. rewrite manifest_get_set.
    simpl. by rewrite !decide_True.
  - destruct Hk as [->|Hk]; [done|]. simpl. rewrite decide_False by done.
    by apply IH.
Qed.

Lemma Object_assign_settled packageJSON optionsNew :
  NoDup (Object_keys optionsNew) →
  ¬ differs (Object_assign packageJSON optionsNew) optionsNew.
Proof.
  intros Hnd (k & Hk & Hne)%Exists_exists. by rewrite Object_assign_get in Hne.
Qed.

(** X9.  [changePackageOptions] is idempotent: after a call that is
    fulfilled, a second call with the same options (an object has each key
    once) reads the manifest, finds every proposed property in place, and
    returns [null] without a write. *)
Theorem changePackageOptions_idempotent (w : World) (pkg : Pkg)
    (optionsNew : Options) (packageJSON : Manifest) (s : State) :
  NoDup (Object_keys optionsNew) →
  disk s !! manifest_path pkg = Some packageJSON →
  let first := run_task w 2 (changePackageOptions pkg optionsNew) s in
  fulfilled first.1 = true →
  ¬ differs (default packageJSON (disk first.2 !! manifest_path pkg)) optionsNew
  ∧ run_task w 2 (changePackageOptions pkg optionsNew) first.2
    = (Ret None, log (EvRead (manifest_path pkg)) first.2).
Proof.
  intros Hnd Hdisk first Hful. subst first.
  destruct (run_task w 2 (changePackageOptions pkg optionsNew) s) as [t1 s1] eqn:H1.
  simpl in Hful. cbn [fst snd].
  assert (∃ m, disk s1 !! manifest_path pkg = Some m ∧ ¬ differs m optionsNew)
    as (m & Hm & Hsame).
  { revert H1. unfold changePackageOptions, readFile, writeFile, mbind, Async_bind.
    simpl. rewrite Hdisk. simpl.
    pose proof (findIndex_differs packageJSON optionsNew) as Hf.
    destruct (findIndex _ _) as [i|]; simpl.
    - destruct (write_ok w _ _); simpl; intros [= <- <-]; [|done].
      eexists. split; [apply lookup_insert_eq|]. by apply Object_assign_settled.
    - intros [= <- <-]. exists packageJSON. split; [done|]. by intros [? ?]%Hf. }
  rewrite Hm. simpl. split; [done|].
  unfold changePackageOptions, readFile, mbind, Async_bind.
  simpl. rewrite Hm. simpl.
  pose proof (findIndex_differs m optionsNew) as Hf.
  destruct (findIndex _ _) as [i|]; simpl; [|done].
  destruct Hsame. apply Hf. by eexists.
Qed.


(** * The helpers that spawn commands *)

Section Helpers.
Context (w : World).

(** X11.  A child process that is killed by a signal has no exit code;
  [exec] reports [-1] for it, so [execPipe] takes it for a failure, as it
  does every exit code other than 0.  [execPipe], awaited while nothing
  else is in flight, is fulfilled exactly when the child exits with 0, and
  otherwise throws an error that names the command and nothing of what the
  child printed. *)
Theorem execPipe_outcome (command : string) (args : list string) (n : nat)
  (sched : list nat) (s : State) :
await w (execPipe command args) (n :: sched) {| st := s; bg := [] |}
= Some (if decide (exit_code (spawn_out w command args) = Some 0)
        then Ok tt
        else Err (JsError (command +:+ " command failed")),
        sched, {| st := log (EvSpawn command args) s; bg := [] |}).
Proof.
rewrite await_execPipe. unfold code_of.
destruct (exit_code (spawn_out w command args)) as [c|]; simpl.
- destruct (c =? 0) eqn:Hc.
  + apply Z.eqb_eq in Hc as ->. by rewrite decide_True.
  + apply Z.eqb_neq in Hc. rewrite decide_False; [done|]. by intros [= ->].
- done.
Qed.

End Helpers.

(** * An empty workspace *)

Section Empty.
Context (lib : Lib) (w : World).

Lemma Promise_all_nil sched s tasks :
Promise_all w [] sched {| st := s; bg := tasks |}
= Some (Ok tt, sched, {| st := s; bg := tasks |}).
Proof. unfold Promise_all. simpl. by destruct sched. Qed.

(** X12.  With no package to work on (the workspace is empty, or every
  package is private, the root or outside the scope) the [ci] mode still
  runs the publish step: after the pre-publish hook it calls [npm publish
  --no-git-checks --tag ci] with no [--workspace] argument at all, then the
  post-publish hook.  It reads and writes no manifest and adds no tag, and
  the outcome of the run is the outcome of these two commands. *)
Theorem empty_workspace_still_publishes (cwd : string) (all : list Pkg)
  (n1 n2 n3 n4 n5 n6 : nat) (sched : list nat) (disk0 : gmap string Manifest) :
workspace_query lib w = Ok all →
discover cwd all = [] →
code_of w "git" describe_args = 0 →
code_of w "git" rev_parse_args = 0 →
code_of w "npm" ["run"; "prepublishOnly"] = 0 →
run lib w (Some "ci") cwd (n1 :: n2 :: n3 :: n4 :: n5 :: n6 :: sched) disk0
= Some (publish_result w [],
        {| disk := disk0;
           packagesToRelease := [];
           trace := [ev_query; ev_describe; ev_rev_parse; ev_prepublish;
                     EvSpawn "npm" ["publish"; "--no-git-checks"; "--tag"; "ci"];
                     ev_postpublish] |}).
Proof.
intros Hq Hnone Hd Hp Hpre. unfold run. fold (initial disk0).
rewrite (release_try_block _ _ _ _ _ _ all Hq Hd Hp), Hnone.
unfold try_block, try_finally, ci, mbind, M_bind.
rewrite decide_True by done. rewrite fmap_nil, Promise_all_nil.
rewrite await_execPipe, Hpre. cbn [Z.eqb].
rewrite publish_block.
destruct (publish_result w []) as [[]|e] eqn:Hr.
- unfold packagesToRelease_keys. simpl. by rewrite !Promise_all_nil.
- by rewrite Promise_all_nil.
Qed.

End Empty.

(** * More on the extension groups *)

Section MoreExtensionGroups.
Import BlockNoteExtensions.

Lemma groups_eighth opts :
getBlockNoteExtensionGroups opts
= base_groups opts ++ [eighth_group opts] ++ [editor_group opts].
Proof.
unfold getBlockNoteExtensionGroups, eighth_group.
destruct (collaboration opts); by rewrite <-app_assoc.
Qed.

Lemma eighth_group_no_node opts : omap block_node_name (extensions (eighth_group opts)) = [].
Proof.
unfold eighth_group. destruct (collaboration opts) as [c|]; [|done].
unfold collaboration_group. simpl. by destruct (truthy _).
Qed.

Lemma omap_block_node_name ed dom (specs : list BlockSpec) :
omap block_node_name ((fun blockSpec => BlockSpecNode (node blockSpec) ed dom) <$> specs)
= node <$> specs.
Proof. induction specs as [|spec specs IH]; [done|]. simpl. f_equal. exact IH. Qed.

Lemma flat_map_single (g : BlockNoteExtensionGroup) :
flat_map extensions [g] = extensions g.
Proof. simpl. apply app_nil_r. Qed.

(** The extensions of the seven groups the list starts with. *)
Lemma base_extensions opts :
flat_map extensions (base_groups opts)
= [ClipboardTextSerializer; Commands; Editable; FocusEvents; Tabindex;
   Gapcursor;
   Placeholder true false; UniqueID ["blockContainer"]; HardBreak;
   Text;
   Bold; Code; Italic; Strike; Underline; Link;
   TextColorMark; TextColorExtension;
   BackgroundColorMark; BackgroundColorExtension;
   TextAlignmentExtension;
   Doc; BlockContainer (domAttributes opts); BlockGroup (domAttributes opts)]
  ++ ((fun blockSpec =>
         BlockSpecNode (node blockSpec) (editor opts) (domAttributes opts))
      <$> (blockSchema opts).*2)
  ++ [CustomBlockSerializerExtension; Dropcursor 5 "#ddeeff"; TrailingNode].
Proof. simpl. by rewrite <-!app_assoc. Qed.

Lemma extensions_split opts :
getBlockNoteExtensions opts
= flat_map extensions (base_groups opts)
  ++ extensions (eighth_group opts) ++ extensions (editor_group opts).
Proof.
unfold getBlockNoteExtensions.
by rewrite groups_eighth, !flat_map_app, !flat_map_single.
Qed.

(** X13.  Every block spec of the schema gets one node extension, in the
  order of the schema, and these are the only block spec nodes in the
  list; each is configured with the editor and the DOM attributes of the
  options, the same DOM attributes that the block container and the block
  group get. *)
Theorem schema_nodes_registered (opts : GetExtensionsOptions) :
let exts := getBlockNoteExtensions opts in
omap block_node_name exts = node <$> (blockSchema opts).*2
∧ (∀ name ed dom,
     BlockSpecNode name ed dom ∈ exts ↔
     (∃ blockSpec, blockSpec ∈ (blockSchema opts).*2 ∧ name = node blockSpec)
     ∧ ed = editor opts ∧ dom = domAttributes opts)
∧ (∀ dom, BlockContainer dom ∈ exts ↔ dom = domAttributes opts)
∧ (∀ dom, BlockGroup dom ∈ exts ↔ dom = domAttributes opts).
Proof.
intros exts. subst exts. rewrite extensions_split, base_extensions.
assert (Heighth : ∀ e, e ∈ extensions (eighth_group opts) →
                       block_node_name e = None
                       ∧ (∀ dom, e ≠ BlockContainer dom)
                       ∧ (∀ dom, e ≠ BlockGroup dom)).
{ intros e He. unfold eighth_group in He.
  destruct (collaboration opts) as [c|]; simpl in He.
  - destruct (truthy _); simpl in He; elem_cases He; by subst.
  - elem_cases He; by subst. }
assert (Heditor : ∀ e, e ∈ extensions (editor_group opts) →
                       ∃ plugins, e = BlockNoteUIExtension plugins).
{ intros e He. simpl in He. elem_cases He. subst. eauto. }
split; [|split; [|split]].
- rewrite !omap_app, omap_block_node_name, eighth_group_no_node.
  cbn [omap list_omap block_node_name app editor_group extensions].
  by rewrite !app_nil_r.
- intros name ed dom. rewrite !elem_of_app, list_elem_of_fmap. split.
  + intros [[H|[H|H]]|[H|H]].
    * elem_cases H.
    * destruct H as (spec & [= -> -> ->] & Hin). eauto.
    * elem_cases H.
    * by destruct (Heighth _ H) as [? _].
    * by destruct (Heditor _ H) as [? ?].
  + intros ((spec & Hin & ->) & -> & ->). left. right. left. eauto.
- intros dom. rewrite !elem_of_app, list_elem_of_fmap. split.
  + intros [[H|[H|H]]|[H|H]].
    * elem_cases H. by injection H.
    * by destruct H as (spec & [=] & _).
    * elem_cases H.
    * by destruct (Heighth _ H) as (_ & Hc & _), (Hc dom).
    * by destruct (Heditor _ H) as [? ?].
  + intros ->. left. left. do 22 apply list_elem_of_further. apply list_elem_of_here.
- intros dom. rewrite !elem_of_app, list_elem_of_fmap. split.
  + intros [[H|[H|H]]|[H|H]].
    * elem_cases H. by injection H.
    * by destruct H as (spec & [=] & _).
    * elem_cases H.
    * by destruct (Heighth _ H) as (_ & _ & Hc), (Hc dom).
    * by destruct (Heditor _ H) as [? ?].
  + intros ->. left. left. do 23 apply list_elem_of_further. apply list_elem_of_here.
Qed.

End MoreExtensionGroups.

Section ExtensionList.
Import BlockNoteExtensions.

Lemma base_extensions_plain opts e :
  e ∈ flat_map extensions (base_groups opts) →
  (∀ frag, e ≠ Collaboration frag)
  ∧ (∀ u render prov, e ≠ CollaborationCursor u render prov)
  ∧ e ≠ History
  ∧ (∀ plugins, e ≠ BlockNoteUIExtension plugins).
Proof.
  rewrite base_extensions. intros He. elem_cases He; by subst.
Qed.

(** X14.  The flattened list holds a Collaboration extension exactly for
    the fragment of the collaboration option, and a CollaborationCursor
    exactly when the provider of that option has a truthy [awareness]; the
    cursor then has the user and the provider of the option and is drawn
    by [renderCursor] when that is given and by the default otherwise. *)
Theorem collaboration_configured (opts : GetExtensionsOptions) :
  let exts := getBlockNoteExtensions opts in
  (∀ frag,
     Collaboration frag ∈ exts ↔
     ∃ c, collaboration opts = Some c ∧ frag = fragment c)
  ∧ (∀ u render prov,
       CollaborationCursor u render prov ∈ exts ↔
       ∃ c, collaboration opts = Some c
            ∧ truthy (opt_get (provider c) "awareness") = true
            ∧ u = user c
            ∧ render = match renderCursor c with
                       | Some f => customRender f
                       | None => defaultRender
                       end
            ∧ prov = provider c).
Proof.
  intros exts. subst exts. split.
  - intros frag. rewrite extensions_split, !elem_of_app. split.
    + intros [Hb|[Hc|He]].
      * apply base_extensions_plain in Hb as (Hb & _). by destruct (Hb frag).
      * unfold eighth_group in Hc. destruct (collaboration opts) as [c|].
        -- exists c. split; [done|]. unfold collaboration_group in Hc. simpl in Hc.
           destruct (truthy _); simpl in Hc; elem_cases Hc; by injection Hc.
        -- simpl in Hc. by elem_cases Hc.
      * simpl in He. by elem_cases He.
    + intros (c & Hc & ->). right. left. unfold eighth_group. rewrite Hc.
      unfold collaboration_group. simpl.
      destruct (truthy _); simpl; apply list_elem_of_here.
  - intros u render prov. rewrite extensions_split, !elem_of_app. split.
    + intros [Hb|[Hc|He]].
      * apply base_extensions_plain in Hb as (_ & Hb & _). by destruct (Hb u render prov).
      * unfold eighth_group in Hc. destruct (collaboration opts) as [c|].
        -- exists c. split; [done|]. unfold collaboration_group in Hc. simpl in Hc.
           destruct (truthy _) eqn:Ht; simpl in Hc; elem_cases Hc.
           injection Hc as -> -> ->. by destruct (renderCursor c).
        -- simpl in Hc. by elem_cases Hc.
      * simpl in He. by elem_cases He.
    + intros (c & Hc & Ht & -> & -> & ->). right. left.
      unfold eighth_group. rewrite Hc. unfold collaboration_group. simpl.
      rewrite Ht. simpl. apply list_elem_of_further.
      destruct (renderCursor c); apply list_elem_of_here.
Qed.




End ExtensionList.

(** * The properties on the small workspace *)

Section MoreExamples.
Import Fixture Corner.

Lemma run_ok_in_order :
run lib world_ok (Some "ci") "/ws" in_order disk0 = Some (Ok tt, final_ok).
Proof. vm_compute; reflexivity. Defined.

Lemma run_ok_a_first :
run lib world_ok (Some "ci") "/ws" a_first disk0 = Some (Ok tt, final_a_first).
Proof. vm_compute; reflexivity. Defined.

Lemma disk0_consistent (w : World) :
packages_of lib w "/ws" = [pkgB; pkgA] →
∀ pkg, pkg ∈ packages_of lib w "/ws" → restored pkg disk0.
Proof.
intros -> pkg Hin. elem_cases Hin; subst pkg.
- exists (manifest "2.0.0"). split; [vm_compute; reflexivity|done].
- exists (manifest "1.0.0"). split; [vm_compute; reflexivity|done].
Defined.

Lemma candidates_not_in_registry_witness :
run lib world_ok (Some "ci") "/ws" in_order disk0 = Some (Ok tt, final_ok)
∧ (∀ key value, (key, value) ∈ packagesToRelease final_ok →
                candidate lib world_ok (packages_of lib world_ok "/ws") key value)
∧ NoDup (packagesToRelease final_ok).*1
∧ (length (packagesToRelease final_ok)
   ≤ length (packages_of lib world_ok "/ws"))%nat
∧ (∀ key, key ∈ tag_calls (trace final_ok) →
          ∃ value, candidate lib world_ok (packages_of lib world_ok "/ws") key value).
Proof.
split; [exact run_ok_in_order|].
exact (candidates_not_in_registry lib world_ok (Some "ci") "/ws" in_order disk0
         (Ok tt) final_ok run_ok_in_order).
Defined.

Lemma tag_calls_determined_witness :
run lib world_ok (Some "ci") "/ws" in_order disk0 = Some (Ok tt, final_ok)
∧ run lib world_ok (Some "ci") "/ws" a_first disk0 = Some (Ok tt, final_a_first)
∧ trace final_ok ≠ trace final_a_first
∧ tag_calls (trace final_ok) = tag_calls (trace final_a_first)
∧ (∀ key, key ∈ tag_calls (trace final_ok)
          ↔ ∃ value, candidate lib world_ok (packages_of lib world_ok "/ws") key value).
Proof.
split; [exact run_ok_in_order|]. split; [exact run_ok_a_first|].
split; [vm_compute; discriminate|].
exact (tag_calls_determined lib world_ok (Some "ci") (Some "ci") "/ws"
         in_order a_first disk0 disk0 (Ok tt) (Ok tt) final_ok final_a_first
         run_ok_in_order run_ok_a_first (or_introl eq_refl) (or_introl eq_refl)).
Defined.





Lemma run_no_type :
run lib world_ok None "/ws" in_order disk0 = Some (Err type_required, final_no_type).
Proof. vm_compute; reflexivity. Defined.

Lemma wrong_mode_writes_nothing_witness :
None ≠ Some "ci"
∧ (∀ pkg, pkg ∈ packages_of lib world_ok "/ws" → restored pkg disk0)
∧ run lib world_ok None "/ws" in_order disk0 = Some (Err type_required, final_no_type)
∧ disk final_no_type = disk0
∧ Forall not_write (trace final_no_type)
∧ (∃ e, Err type_required = Err (A := unit) e
        ∧ (e = type_required ∨ early_error lib world_ok e)).
Proof.
assert (H1 : (None : option string) ≠ Some "ci") by discriminate.
assert (H2 : ∀ pkg, pkg ∈ packages_of lib world_ok "/ws" → restored pkg disk0)
  by (apply disk0_consistent; vm_compute; reflexivity).
split; [exact H1|]. split; [exact H2|]. split; [exact run_no_type|].
exact (wrong_mode_writes_nothing lib world_ok None "/ws" in_order disk0
         (Err type_required) final_no_type H1 H2 run_no_type).
Defined.





Lemma tag_only_after_publish_witness :
run lib world_ok (Some "ci") "/ws" in_order disk0 = Some (Ok tt, final_ok)
∧ tag_calls (trace final_ok) ≠ []
∧ Some "ci" = Some "ci"
∧ code_of world_ok "npm" ["run"; "prepublishOnly"] = 0
∧ code_of world_ok "npm" (publish_args (packages_of lib world_ok "/ws")) = 0
∧ code_of world_ok "npm" ["run"; "postpublish"] = 0
∧ ∃ before after,
    trace final_ok
    = before ++ publish_step (packages_of lib world_ok "/ws")
      ++ (ev_dist_tag <$> sort (packagesToRelease final_ok).*1) ++ after
    ∧ Forall (fun ev => is_query ev
                        ∨ worker_event (packages_of lib world_ok "/ws") ev) before
    ∧ Forall (file_event (packages_of lib world_ok "/ws")) after.
Proof.
assert (H1 : tag_calls (trace final_ok) ≠ []) by (vm_compute; discriminate).
split; [exact run_ok_in_order|]. split; [exact H1|].
exact (tag_only_after_publish lib world_ok (Some "ci") "/ws" in_order disk0
         (Ok tt) final_ok run_ok_in_order H1).
Defined.

Lemma changePackageOptions_idempotent_witness :
NoDup (Object_keys options)
∧ disk (initial disk0) !! manifest_path pkgA = Some (manifest "1.0.0")
∧ fulfilled
    (run_task world_ok 2 (changePackageOptions pkgA options) (initial disk0)).1
  = true
∧ disk after_first_call !! manifest_path pkgA
  = Some {| m_version := Some "9.9.9"; m_gitHead := Some "deadbeef";
            m_other := "{}" |}
∧ run_task world_ok 2 (changePackageOptions pkgA options) after_first_call
  = (Ret None, log (EvRead (manifest_path pkgA)) after_first_call).
Proof.
assert (H1 : NoDup (Object_keys options)).
{ repeat (apply NoDup_cons; split; [intros H; by elem_cases H|]).
  apply NoDup_nil_2. }
assert (H2 : disk (initial disk0) !! manifest_path pkgA = Some (manifest "1.0.0"))
  by (vm_compute; reflexivity).
assert (H3 : fulfilled
               (run_task world_ok 2 (changePackageOptions pkgA options)
                  (initial disk0)).1 = true)
  by (vm_compute; reflexivity).
split; [exact H1|]. split; [exact H2|]. split; [exact H3|].
split; [vm_compute; reflexivity|].
exact (proj2 (changePackageOptions_idempotent world_ok pkgA options
                (manifest "1.0.0") (initial disk0) H1 H2 H3)).
Defined.

Lemma empty_workspace_still_publishes_witness :
workspace_query lib_none world_ok = Ok nothing_to_release
∧ discover "/ws" nothing_to_release = []
∧ run lib_none world_ok (Some "ci") "/ws" in_order disk0
  = Some (Ok tt,
          {| disk := disk0;
             packagesToRelease := [];
             trace := [ev_query; ev_describe; ev_rev_parse; ev_prepublish;
                       EvSpawn "npm" ["publish"; "--no-git-checks"; "--tag"; "ci"];
                       ev_postpublish] |}).
Proof.
assert (H1 : workspace_query lib_none world_ok = Ok nothing_to_release)
  by (vm_compute; reflexivity).
assert (H2 : discover "/ws" nothing_to_release = []) by (vm_compute; reflexivity).
split; [exact H1|]. split; [exact H2|].
exact (empty_workspace_still_publishes lib_none world_ok "/ws" nothing_to_release
         0%nat 0%nat 0%nat 0%nat 0%nat 0%nat (replicate 34 0%nat) disk0 H1 H2
         eq_refl eq_refl eq_refl).
Defined.

End MoreExamples.
